(** * The CME212 peercode [Graph] containers, embedded in Rocq

    Four header files implement the same undirected-graph interface:

    - [hw1/Graph-26021.hpp]  adjacency vectors, with the three iterators;
    - [hw0/Graph-1703.hpp]   explicit edge list, edges carry an [edgeid_];
    - [hw0/Graph-20862.hpp]  explicit list of index pairs;
    - [hw0/Graph-20558.hpp]  explicit list of node pairs.

    Each one is embedded in a module of its own, named after the file.

    Conventions of the embedding.

    - [size_type] is [unsigned]: a value of [N] below [2^32]; every
      conversion of a [size_t] to [size_type] and every [unsigned]
      arithmetic result is wrapped with [wrap32] / [sub32].
    - A [std::vector] is a [list]; [v[i]] out of range is undefined
      behaviour and [assert] is taken as enabled (the headers include
      <cassert> and never define NDEBUG), so calls return an [outcome].
    - A [Graph*] is a [ptr]: [None] is [nullptr], [Some a] the address of
      a Graph object.  A member function that touches only [*this] is a
      function of [this] and of the object's state; one that follows the
      graph pointer stored in a handle takes the store of all Graph
      objects.
    - A counted loop [for (unsigned i = 0; i < v.size(); i++)] is a
      traversal of the list [v]. *)

From Stdlib Require Import NArith List Bool Lia.
From stdpp Require Import base option numbers list gmap.

Local Open Scope N_scope.

(** ** Machine integers, pointers and outcomes *)

Abbreviation size_type := N (only parsing).

Definition wrap32 (n : N) : size_type := n mod 2 ^ 32.

(** [a - b] computed in [unsigned]. *)
Definition sub32 (a b : size_type) : size_type :=
  wrap32 (a + (2 ^ 32 - wrap32 b)).

(** [std::vector::size()], a [size_t]. *)
Definition vsize {A : Type} (v : list A) : N := N.of_nat (length v).

Definition addr : Type := N.

Definition ptr : Type := option addr.

Definition nullptr : ptr := None.

Definition ptr_eqb (p q : ptr) : bool := bool_decide (p = q).

(** One total order of pointers, as [std::less<Graph*>] provides: by
    address, the null pointer first. *)
Definition ptr_ltb_by_address (p q : ptr) : bool :=
  match p, q with
  | None, Some _ => true
  | Some a, Some b => a <? b
  | _, None => false
  end.

Inductive outcome (A : Type) : Type :=
| Ret (a : A)      (* the call returns [a] *)
| AssertFail       (* an [assert] fires and the program aborts *)
| Undefined.       (* out-of-range [operator[]], read through a dangling or
                      null pointer, read of an uninitialised member *)

Arguments Ret {A} a.
Arguments AssertFail {A}.
Arguments Undefined {A}.

#[global] Instance outcome_ret : MRet outcome := @Ret.

#[global] Instance outcome_bind : MBind outcome :=
  fun A B (f : A -> outcome B) (m : outcome A) =>
    match m with
    | Ret a => f a
    | AssertFail => AssertFail
    | Undefined => Undefined
    end.

(** [v[i]] on a vector. *)
Definition vec_at {A : Type} (v : list A) (i : size_type) : outcome A :=
  match v !! N.to_nat i with
  | Some x => Ret x
  | None => Undefined
  end.

(** [v[i].push_back(x)] on a vector of vectors. *)
Definition push_back_at {A : Type} (v : list (list A)) (i : size_type) (x : A)
  : outcome (list (list A)) :=
  row ← vec_at v i; Ret (<[N.to_nat i := row ++ [x]]> v).

(** [p && q] with [q] evaluated only when [p] holds. *)
Definition and_then (p q : outcome bool) : outcome bool :=
  b ← p; if (b : bool) then q else Ret false.

(** [p || q] with [q] evaluated only when [p] fails. *)
Definition or_else (p q : outcome bool) : outcome bool :=
  b ← p; if (b : bool) then Ret true else q.

(** [*p] for a pointer [p] into the store [h] of live objects. *)
Definition deref {G : Type} (h : gmap addr G) (p : ptr) : outcome G :=
  match p with
  | Some a => match h !! a with Some g => Ret g | None => Undefined end
  | None => Undefined
  end.

(** ** hw1/Graph-26021.hpp: adjacency vectors *)

Module Graph26021.
Section WithPayload.
Context {Point V : Type}.

Record internal_node : Type :=
  { m_node_point : Point; m_node_value : V }.

(** The data members of [Graph]. *)
Record Graph : Type :=
  { m_graph_nodes : list internal_node;
    m_adjacency : list (list size_type) }.

(** [Graph()] *)
Definition empty : Graph := {| m_graph_nodes := []; m_adjacency := [] |}.

(** An initialised [Node] ([Node(graph_ptr, node_index)]); the members of
    a default-constructed one are indeterminate. *)
Record Node : Type := { m_graph_ptr : ptr; m_node_index : size_type }.

(** An initialised [Edge]; its graph pointer is the source's
    [m_graph_ptr]. *)
Record Edge : Type :=
  { edge_graph_ptr : ptr; m_node1_index : size_type; m_node2_index : size_type }.

(** An [EdgeIterator]; the source names its members [m_graph_ptr],
    [m_node1_index] and [m_edge_index]. *)
Record EdgeIterator : Type :=
  { it_graph_ptr : ptr; it_node1_index : size_type; m_edge_index : size_type }.

Definition index (n : Node) : size_type := m_node_index n.

Definition size (g : Graph) : size_type := wrap32 (vsize (m_graph_nodes g)).

Definition num_nodes (g : Graph) : size_type := size g.

Definition add_node (this : addr) (g : Graph) (position : Point) (node_value : V)
  : Graph * Node :=
  let n := {| m_node_point := position; m_node_value := node_value |} in
  let g' := {| m_graph_nodes := m_graph_nodes g ++ [n];
               m_adjacency := m_adjacency g ++ [[]] |} in
  (g', {| m_graph_ptr := Some this; m_node_index := sub32 (size g') 1 |}).

Definition has_node (this : addr) (g : Graph) (n : Node) : outcome bool :=
  if m_node_index n <? size g
  then Ret (ptr_eqb (m_graph_ptr n) (Some this))
  else AssertFail.

Definition node (this : addr) (g : Graph) (i : size_type) : outcome Node :=
  if i <? size g
  then Ret {| m_graph_ptr := Some this; m_node_index := i |}
  else AssertFail.

(** [Node::degree] *)
Definition degree (h : gmap addr Graph) (n : Node) : outcome size_type :=
  g ← deref h (m_graph_ptr n);
  row ← vec_at (m_adjacency g) (m_node_index n);
  Ret (wrap32 (vsize row)).

(** [Node::operator==]: [m_graph_ptr->has_node(n) && m_node_index==n.index()] *)
Definition Node_eq (h : gmap addr Graph) (x n : Node) : outcome bool :=
  match m_graph_ptr x with
  | Some a =>
      g ← deref h (Some a);
      and_then (has_node a g n) (Ret (m_node_index x =? index n))
  | None => Undefined
  end.

Definition node1 (e : Edge) : Node :=
  {| m_graph_ptr := edge_graph_ptr e; m_node_index := m_node1_index e |}.

Definition node2 (e : Edge) : Node :=
  {| m_graph_ptr := edge_graph_ptr e; m_node_index := m_node2_index e |}.

(** [Edge::operator==] *)
Definition Edge_eq (h : gmap addr Graph) (x e : Edge) : outcome bool :=
  or_else
    (and_then (Node_eq h (node1 x) (node1 e)) (Node_eq h (node2 x) (node2 e)))
    (and_then (Node_eq h (node1 x) (node2 e)) (Node_eq h (node2 x) (node1 e))).

Definition num_edges (g : Graph) : size_type :=
  fold_left (fun tmp row => wrap32 (tmp + vsize row)) (m_adjacency g) 0 / 2.

(** The loop [for i: if (tmp[i]==index) return true]. *)
Definition row_has (tmp : list size_type) (index : size_type) : bool :=
  existsb (fun x => x =? index) tmp.

Definition has_edge (this : addr) (g : Graph) (a b : Node) : outcome bool :=
  if negb (ptr_eqb (m_graph_ptr a) (Some this))
     || negb (ptr_eqb (m_graph_ptr b) (Some this))
  then Ret false
  else tmp ← vec_at (m_adjacency g) (index a); Ret (row_has tmp (index b)).

Definition add_edge (this : addr) (g : Graph) (a b : Node) : outcome (Graph * Edge) :=
  let e := {| edge_graph_ptr := Some this;
              m_node1_index := index a; m_node2_index := index b |} in
  found ← (if ptr_eqb (m_graph_ptr a) (Some this)
              && ptr_eqb (m_graph_ptr b) (Some this)
           then tmp ← vec_at (m_adjacency g) (index a); Ret (row_has tmp (index b))
           else Ret false);
  if (found : bool) then Ret (g, e)
  else
    adj1 ← push_back_at (m_adjacency g) (index b) (index a);
    adj2 ← push_back_at adj1 (index a) (index b);
    Ret ({| m_graph_nodes := m_graph_nodes g; m_adjacency := adj2 |}, e).

Definition clear (g : Graph) : Graph :=
  {| m_graph_nodes := []; m_adjacency := [] |}.

(** *** EdgeIterator.  The iterator functions take the state [g] of the
    graph the iterator points to. *)

(** [EdgeIterator::operator*] *)
Definition EdgeIterator_deref (g : Graph) (it : EdgeIterator) : outcome Edge :=
  row ← vec_at (m_adjacency g) (it_node1_index it);
  x ← vec_at row (m_edge_index it);
  Ret {| edge_graph_ptr := it_graph_ptr it;
         m_node1_index := it_node1_index it; m_node2_index := x |}.

(** The two nested [while] loops of [operator++], one test of the inner
    loop per unit of fuel; [None] when the fuel runs out. *)
Fixpoint incr_loop (fuel : nat) (adj : list (list size_type)) (n e : size_type)
  : option (outcome (size_type * size_type)) :=
  match fuel with
  | O => None
  | S fuel' =>
      if n <? vsize adj then
        match vec_at adj n with
        | Ret row =>
            if e <? vsize row then
              match vec_at row e with
              | Ret x =>
                  if n <? x then Some (Ret (n, e))
                  else incr_loop fuel' adj n (wrap32 (e + 1))
              | _ => Some Undefined
              end
            else incr_loop fuel' adj (wrap32 (n + 1)) 0
        | _ => Some Undefined
        end
      else Some (Ret (n, e))
  end.

(** Enough fuel for [operator++] from any position of a graph whose
    vectors have fewer than [2^32] elements: every adjacency slot and every
    row end is passed at most once. *)
Definition incr_fuel (adj : list (list size_type)) : nat :=
  S (length adj + length (concat adj)).

(** [EdgeIterator::operator++] *)
Definition EdgeIterator_incr (g : Graph) (it : EdgeIterator)
  : option (outcome EdgeIterator) :=
  match incr_loop (incr_fuel (m_adjacency g)) (m_adjacency g)
          (it_node1_index it) (wrap32 (m_edge_index it + 1)) with
  | Some (Ret (n, e)) =>
      Some (Ret {| it_graph_ptr := it_graph_ptr it;
                   it_node1_index := n; m_edge_index := e |})
  | Some AssertFail => Some AssertFail
  | Some Undefined => Some Undefined
  | None => None
  end.

(** [EdgeIterator::operator==] *)
Definition EdgeIterator_eq (x y : EdgeIterator) : bool :=
  ptr_eqb (it_graph_ptr x) (it_graph_ptr y)
  && (it_node1_index x =? it_node1_index y)
  && (m_edge_index x =? m_edge_index y).

Definition edge_begin (this : addr) (g : Graph) : EdgeIterator :=
  {| it_graph_ptr := Some this; it_node1_index := 0; m_edge_index := 0 |}.

Definition edge_end (this : addr) (g : Graph) : EdgeIterator :=
  {| it_graph_ptr := Some this;
     it_node1_index := wrap32 (vsize (m_adjacency g)); m_edge_index := 0 |}.

(** The positions a client visits with
    [for (auto it = g.edge_begin(); it != g.edge_end(); ++it)], starting
    from [it]; [None] when the fuel runs out or [++] does not return. *)
Fixpoint edge_range_from (fuel : nat) (this : addr) (g : Graph) (it : EdgeIterator)
  : option (list EdgeIterator) :=
  match fuel with
  | O => None
  | S fuel' =>
      if EdgeIterator_eq it (edge_end this g) then Some []
      else
        match EdgeIterator_incr g it with
        | Some (Ret it') =>
            match edge_range_from fuel' this g it' with
            | Some rest => Some (it :: rest)
            | None => None
            end
        | _ => None
        end
  end.

Definition edge_range (this : addr) (g : Graph) : option (list EdgeIterator) :=
  edge_range_from (incr_fuel (m_adjacency g)) this g (edge_begin this g).

(** [Graph::edge]: [*(std::next(edge_begin(), i))] *)
Fixpoint EdgeIterator_next (k : nat) (g : Graph) (it : EdgeIterator)
  : option (outcome EdgeIterator) :=
  match k with
  | O => Some (Ret it)
  | S k' =>
      match EdgeIterator_incr g it with
      | Some (Ret it') => EdgeIterator_next k' g it'
      | r => r
      end
  end.

Definition edge (this : addr) (g : Graph) (i : size_type) : option (outcome Edge) :=
  if i <? num_edges g then
    match EdgeIterator_next (N.to_nat i) g (edge_begin this g) with
    | Some (Ret it) => Some (EdgeIterator_deref g it)
    | Some AssertFail => Some AssertFail
    | Some Undefined => Some Undefined
    | None => None
    end
  else Some AssertFail.

(** *** The enumeration the specification asks for: walk the node
    identifiers in increasing order and, for each node, its adjacency
    entry; emit a position only when the neighbour identifier is strictly
    greater than the node identifier. *)

(** The positions to emit in the entries [row] of node [n], the first of
    them at position [e]. *)
Fixpoint row_positions (n e : size_type) (row : list size_type)
  : list (size_type * size_type) :=
  match row with
  | [] => []
  | x :: row' => (if n <? x then [(n, e)] else []) ++ row_positions n (e + 1) row'
  end.

(** The positions to emit in the adjacency entries [adj] of the nodes [n],
    [n+1], ... *)
Fixpoint positions_from (n : size_type) (adj : list (list size_type))
  : list (size_type * size_type) :=
  match adj with
  | [] => []
  | row :: adj' => row_positions n 0 row ++ positions_from (n + 1) adj'
  end.

Definition lesser_endpoint_positions (g : Graph) : list (size_type * size_type) :=
  positions_from 0 (m_adjacency g).

(** Node [n]'s adjacency entry, empty for a node that does not exist. *)
Definition row_of (adj : list (list size_type)) (n : size_type) : list size_type :=
  default [] (adj !! N.to_nat n).

(** The positions to emit at or after position [(n, e)] in node [n]'s
    entry, and in the entries of the nodes from [n] on. *)
Definition row_after (adj : list (list size_type)) (n e : size_type)
  : list (size_type * size_type) :=
  row_positions n e (drop (N.to_nat e) (row_of adj n)).

Definition rows_after (adj : list (list size_type)) (n : size_type)
  : list (size_type * size_type) :=
  positions_from n (drop (N.to_nat n) adj).

(** The positions to emit strictly after position [(n, e)]. *)
Definition after (adj : list (list size_type)) (n e : size_type)
  : list (size_type * size_type) :=
  row_after adj n (e + 1) ++ rows_after adj (n + 1).

(** Position (0,0), where [edge_begin()] starts, when it is not a position
    to emit although the graph has nodes. *)
Definition spurious_start (adj : list (list size_type)) : list (size_type * size_type) :=
  match adj with
  | [] => []
  | [] :: _ => [(0, 0)]
  | (x :: _) :: _ => if 0 <? x then [] else [(0, 0)]
  end.

Definition position_iterator (this : addr) (p : size_type * size_type) : EdgeIterator :=
  {| it_graph_ptr := Some this; it_node1_index := p.1; m_edge_index := p.2 |}.

(** The position [operator++] stops at: the first one to emit, the end
    position when there is none. *)
Definition first_or_end (adj : list (list size_type))
    (l : list (size_type * size_type)) : size_type * size_type :=
  match l with
  | p :: _ => p
  | [] => (vsize adj, 0)
  end.

(** Tests of the inner loop of [operator++] still to run from position
    [(n, e)]. *)
Definition tests_left (adj : list (list size_type)) (n e : size_type) : nat :=
  length (drop (N.to_nat e) (row_of adj n))
  + length (drop (S (N.to_nat n)) adj)
  + length (concat (drop (S (N.to_nat n)) adj)).

(** The adjacency vector and each of its rows have a size that fits
    [size_type]. *)
Definition fits_adj (adj : list (list size_type)) : Prop :=
  vsize adj < 2 ^ 32 /\ Forall (fun row => vsize row < 2 ^ 32) adj.

(** Every vector of the graph has a size that fits [size_type]. *)
Definition fits32 (g : Graph) : Prop :=
  vsize (m_graph_nodes g) < 2 ^ 32 /\ fits_adj (m_adjacency g).

(** The body [*it] of the client's loop at each position of a traversal. *)
Fixpoint visit_all (g : Graph) (its : list EdgeIterator) : outcome (list Edge) :=
  match its with
  | [] => Ret []
  | it :: its' =>
      e ← EdgeIterator_deref g it; es ← visit_all g its'; Ret (e :: es)
  end.

(** The recorded (node, neighbour) pairs: every entry of the adjacency
    vector with the node it belongs to; the first row is node [n]'s. *)
Fixpoint directed_pairs_from (n : size_type) (adj : list (list size_type))
  : list (size_type * size_type) :=
  match adj with
  | [] => []
  | row :: adj' => (pair n <$> row) ++ directed_pairs_from (n + 1) adj'
  end.

Definition directed_pairs (g : Graph) : list (size_type * size_type) :=
  directed_pairs_from 0 (m_adjacency g).

(** The recorded pairs seen from their lesser endpoint. *)
Definition lesser_first (p : size_type * size_type) : Prop := p.1 < p.2.

Definition lesser_endpoint_pairs (g : Graph) : list (size_type * size_type) :=
  filter lesser_first (directed_pairs g).

(** [Edge(this, p.first, p.second)] *)
Definition pair_edge (this : addr) (p : size_type * size_type) : Edge :=
  {| edge_graph_ptr := Some this; m_node1_index := p.1; m_node2_index := p.2 |}.

(** [j] occurs in row [i] of an adjacency vector. *)
Definition row_member (adj : list (list size_type)) (i j : size_type) : Prop :=
  exists row, adj !! N.to_nat i = Some row /\ j ∈ row.

(** [j] is recorded in node [i]'s adjacency entry. *)
Definition neighbor (g : Graph) (i j : size_type) : Prop :=
  row_member (m_adjacency g) i j.

Definition symmetric (g : Graph) : Prop :=
  forall i j, neighbor g i j <-> neighbor g j i.

(** [calls this k g]: [g] is a state of the graph at address [this]
    reached by member-function calls that returned, [k] of them calls of
    [add_node] since the construction or the last [clear]. *)
Inductive calls (this : addr) : nat -> Graph -> Prop :=
| calls_ctor : calls this 0 empty
| calls_add_node k g position node_value :
    calls this k g ->
    calls this (S k) (add_node this g position node_value).1
| calls_add_edge k g a b g' e :
    calls this k g ->
    add_edge this g a b = Ret (g', e) ->
    calls this k g'
| calls_clear k g :
    calls this k g ->
    calls this 0 (clear g).

Definition reachable (this : addr) (g : Graph) : Prop :=
  exists k, calls this k g.

(** [n] is a valid node of the graph at [this]: issued by it and within
    its current bounds. *)
Definition valid_node (this : addr) (g : Graph) (n : Node) : Prop :=
  m_graph_ptr n = Some this /\ m_node_index n < num_nodes g.

(** [built this g]: [g] is reached by calls that respect the documented
    precondition of [add_edge], distinct valid nodes of this graph. *)
Inductive built (this : addr) : Graph -> Prop :=
| built_ctor : built this empty
| built_add_node g position node_value :
    built this g ->
    built this (add_node this g position node_value).1
| built_add_edge g a b g' e :
    built this g ->
    valid_node this g a ->
    valid_node this g b ->
    index a <> index b ->
    add_edge this g a b = Ret (g', e) ->
    built this g'
| built_clear g :
    built this g ->
    built this (clear g).

(** The graph is simple: the neighbour relation is symmetric, no entry
    repeats a neighbour, no node is its own neighbour. *)
Definition simple (g : Graph) : Prop :=
  symmetric g
  /\ Forall NoDup (m_adjacency g)
  /\ forall i, ~ neighbor g i i.

(** *** The accessors of [Node] *)

(** [Node::position] *)
Definition position (h : gmap addr Graph) (n : Node) : outcome Point :=
  g ← deref h (m_graph_ptr n);
  r ← vec_at (m_graph_nodes g) (m_node_index n);
  Ret (m_node_point r).

(** [Node::value] *)
Definition value (h : gmap addr Graph) (n : Node) : outcome V :=
  g ← deref h (m_graph_ptr n);
  r ← vec_at (m_graph_nodes g) (m_node_index n);
  Ret (m_node_value r).

(** [n.value() = v]: the assignment through the reference that the
    non-const [Node::value] returns. *)
Definition value_assign (h : gmap addr Graph) (n : Node) (v : V)
  : outcome (gmap addr Graph) :=
  match m_graph_ptr n with
  | Some a =>
      g ← deref h (Some a);
      r ← vec_at (m_graph_nodes g) (m_node_index n);
      Ret (<[a := {| m_graph_nodes :=
                       <[N.to_nat (m_node_index n) :=
                           {| m_node_point := m_node_point r; m_node_value := v |}]>
                         (m_graph_nodes g);
                     m_adjacency := m_adjacency g |}]> h)
  | None => Undefined
  end.

(** [Node::operator<].  The built-in order of two different graph pointers
    is the parameter [ptr_ltb]. *)
Definition Node_lt (ptr_ltb : ptr -> ptr -> bool) (x n : Node) : bool :=
  if ptr_eqb (m_graph_ptr x) (m_graph_ptr n)
  then m_node_index x <? index n
  else ptr_ltb (m_graph_ptr x) (m_graph_ptr n).

(** [Edge::operator<] *)
Definition Edge_lt (ptr_ltb : ptr -> ptr -> bool) (x e : Edge) : bool :=
  if ptr_eqb (edge_graph_ptr x) (edge_graph_ptr e) then
    if negb (N.max (m_node1_index x) (m_node2_index x)
             =? N.max (m_node1_index e) (m_node2_index e))
    then N.max (m_node1_index x) (m_node2_index x)
         <? N.max (m_node1_index e) (m_node2_index e)
    else N.min (m_node1_index x) (m_node2_index x)
         <? N.min (m_node1_index e) (m_node2_index e)
  else ptr_ltb (edge_graph_ptr x) (edge_graph_ptr e).

(** *** NodeIterator; the source names its members [m_graph_ptr] and
    [m_node_index]. *)

Record NodeIterator : Type :=
  { ni_graph_ptr : ptr; ni_node_index : size_type }.

(** [NodeIterator::operator*] *)
Definition NodeIterator_deref (it : NodeIterator) : Node :=
  {| m_graph_ptr := ni_graph_ptr it; m_node_index := ni_node_index it |}.

(** [NodeIterator::operator++] *)
Definition NodeIterator_incr (it : NodeIterator) : NodeIterator :=
  {| ni_graph_ptr := ni_graph_ptr it;
     ni_node_index := wrap32 (ni_node_index it + 1) |}.

(** [NodeIterator::operator==] *)
Definition NodeIterator_eq (x y : NodeIterator) : bool :=
  (ni_node_index x =? ni_node_index y)
  && ptr_eqb (ni_graph_ptr x) (ni_graph_ptr y).

Definition node_begin (this : addr) (g : Graph) : NodeIterator :=
  {| ni_graph_ptr := Some this; ni_node_index := 0 |}.

Definition node_end (this : addr) (g : Graph) : NodeIterator :=
  {| ni_graph_ptr := Some this; ni_node_index := size g |}.

(** The positions a client visits with
    [for (auto it = g.node_begin(); it != g.node_end(); ++it)], starting
    from [it]; [None] when the fuel runs out. *)
Fixpoint node_range_from (fuel : nat) (this : addr) (g : Graph) (it : NodeIterator)
  : option (list NodeIterator) :=
  match fuel with
  | O => None
  | S fuel' =>
      if NodeIterator_eq it (node_end this g) then Some []
      else
        match node_range_from fuel' this g (NodeIterator_incr it) with
        | Some rest => Some (it :: rest)
        | None => None
        end
  end.

Definition node_range (this : addr) (g : Graph) : option (list NodeIterator) :=
  node_range_from (S (length (m_graph_nodes g))) this g (node_begin this g).

(** *** IncidentIterator; the source names its members [m_graph_ptr],
    [m_node_index] and [m_incident_index].  As for the EdgeIterator, the
    functions that read the graph take the state [g] of the graph the
    handle points to. *)

Record IncidentIterator : Type :=
  { ii_graph_ptr : ptr; ii_node_index : size_type; m_incident_index : size_type }.

(** [IncidentIterator::operator*] *)
Definition IncidentIterator_deref (g : Graph) (it : IncidentIterator) : outcome Edge :=
  row ← vec_at (m_adjacency g) (ii_node_index it);
  x ← vec_at row (m_incident_index it);
  Ret {| edge_graph_ptr := ii_graph_ptr it;
         m_node1_index := ii_node_index it; m_node2_index := x |}.

(** [IncidentIterator::operator++] *)
Definition IncidentIterator_incr (it : IncidentIterator) : IncidentIterator :=
  {| ii_graph_ptr := ii_graph_ptr it; ii_node_index := ii_node_index it;
     m_incident_index := wrap32 (m_incident_index it + 1) |}.

(** [IncidentIterator::operator==] *)
Definition IncidentIterator_eq (x y : IncidentIterator) : bool :=
  ptr_eqb (ii_graph_ptr x) (ii_graph_ptr y)
  && (ii_node_index x =? ii_node_index y)
  && (m_incident_index x =? m_incident_index y).

(** [Node::edge_begin] *)
Definition Node_edge_begin (n : Node) : IncidentIterator :=
  {| ii_graph_ptr := m_graph_ptr n; ii_node_index := m_node_index n;
     m_incident_index := 0 |}.

(** [Node::edge_end] *)
Definition Node_edge_end (g : Graph) (n : Node) : outcome IncidentIterator :=
  row ← vec_at (m_adjacency g) (m_node_index n);
  Ret {| ii_graph_ptr := m_graph_ptr n; ii_node_index := m_node_index n;
         m_incident_index := wrap32 (vsize row) |}.

(** The positions a client visits with
    [for (auto it = n.edge_begin(); it != n.edge_end(); ++it)]. *)
Fixpoint incident_range_from (fuel : nat) (last it : IncidentIterator)
  : option (list IncidentIterator) :=
  match fuel with
  | O => None
  | S fuel' =>
      if IncidentIterator_eq it last then Some []
      else
        match incident_range_from fuel' last (IncidentIterator_incr it) with
        | Some rest => Some (it :: rest)
        | None => None
        end
  end.

Definition incident_range (g : Graph) (n : Node)
  : outcome (option (list IncidentIterator)) :=
  last ← Node_edge_end g n;
  Ret (incident_range_from (S (N.to_nat (m_incident_index last))) last
         (Node_edge_begin n)).

(** The body [*it] of the client's loop at each position. *)
Fixpoint incident_visit_all (g : Graph) (its : list IncidentIterator)
  : outcome (list Edge) :=
  match its with
  | [] => Ret []
  | it :: its' =>
      e ← IncidentIterator_deref g it; es ← incident_visit_all g its'; Ret (e :: es)
  end.

End WithPayload.
Arguments Graph : clear implicits.
Arguments internal_node : clear implicits.

(** Sample runs, with [unit] for the position and value types, of a graph at
    address 1. *)

(** [add_node] three times. *)
Definition three_nodes : Graph unit unit :=
  (add_node 1 (add_node 1 (add_node 1 empty tt tt).1 tt tt).1 tt tt).1.

(** [add_node] three times, then [add_edge(node(1), node(2))]. *)
Definition three_nodes_edge12 : outcome (Graph unit unit) :=
  n1 ← node 1 three_nodes 1;
  n2 ← node 1 three_nodes 2;
  r ← add_edge 1 three_nodes n1 n2;
  Ret r.1.

(** [add_node] once. *)
Definition one_node : Graph unit unit * Node := add_node 1 empty tt tt.

(** Three nodes and the edges {0,1} and {1,2}. *)
Definition path_graph : Graph unit unit :=
  {| m_graph_nodes := m_graph_nodes three_nodes;
     m_adjacency := [[1]; [0; 2]; [1]] |}.

(** Three nodes and the edge {1,2}. *)
Definition edge12_graph : Graph unit unit :=
  {| m_graph_nodes := m_graph_nodes three_nodes;
     m_adjacency := [[]; [2]; [1]] |}.

(** The scenario of the specification: [add_node] three times, then
    [add_edge(n0,n1)], [add_edge(n1,n0)], [add_edge(n1,n2)]; the graph after
    each of the three [add_edge] calls. *)
Definition scenario : outcome (Graph unit unit * Graph unit unit * Graph unit unit) :=
  n0 ← node 1 three_nodes 0;
  n1 ← node 1 three_nodes 1;
  n2 ← node 1 three_nodes 2;
  r1 ← add_edge 1 three_nodes n0 n1;
  r2 ← add_edge 1 r1.1 n1 n0;
  r3 ← add_edge 1 r2.1 n1 n2;
  Ret (r1.1, r2.1, r3.1).

End Graph26021.

(** ** hw0/Graph-1703.hpp: explicit edge list, edges identified by [edgeid_] *)

Module Graph1703.
Section WithPoint.
Context {Point : Type}.

(** [Node() {}] leaves [g_] and [uid_] uninitialised. *)
Inductive Node : Type :=
| Node_default
| Node_mk (g_ : ptr) (uid_ : size_type).

(** [Edge() {}] leaves all four members uninitialised. *)
Inductive Edge : Type :=
| Edge_default
| Edge_mk (g_ : ptr) (edgeid_ node_a_ node_b_ : size_type).

Record internal_nodes : Type := { position : Point; uid : size_type }.

Record internal_edges : Type :=
  { node_a : Node; node_b : Node; edgeid : size_type }.

Record Graph : Type :=
  { nodes_ : list internal_nodes; edges_ : list internal_edges }.

Definition empty : Graph := {| nodes_ := []; edges_ := [] |}.

Definition size (g : Graph) : size_type := wrap32 (vsize (nodes_ g)).

Definition num_nodes (g : Graph) : size_type := size g.

Definition add_node (this : addr) (g : Graph) (pos : Point) : Graph * Node :=
  let node_addition := {| position := pos; uid := size g |} in
  ({| nodes_ := nodes_ g ++ [node_addition]; edges_ := edges_ g |},
   Node_mk (Some this) (uid node_addition)).

Definition has_node (this : addr) (g : Graph) (n : Node) : outcome bool :=
  match n with
  | Node_mk g_ _ => Ret (ptr_eqb g_ (Some this))
  | Node_default => Undefined
  end.

Definition node (this : addr) (g : Graph) (i : size_type) : Node :=
  if size g <=? i then Node_default else Node_mk (Some this) i.

(** [Node::index]: [g_->nodes_[uid_].uid] *)
Definition Node_index (h : gmap addr Graph) (n : Node) : outcome size_type :=
  match n with
  | Node_mk g_ uid_ =>
      g ← deref h g_; r ← vec_at (nodes_ g) uid_; Ret (uid r)
  | Node_default => Undefined
  end.

(** [Node::operator==]: [n.g_ == this->g_ && n.uid_ == this->uid_] *)
Definition Node_eq (x n : Node) : outcome bool :=
  match x, n with
  | Node_mk gx ux, Node_mk gn un => Ret (ptr_eqb gn gx && (un =? ux))
  | _, _ => Undefined
  end.

Definition node1 (h : gmap addr Graph) (e : Edge) : outcome Node :=
  match e with
  | Edge_mk g_ edgeid_ _ _ =>
      g ← deref h g_; ie ← vec_at (edges_ g) edgeid_; Ret (node_a ie)
  | Edge_default => Undefined
  end.

Definition node2 (h : gmap addr Graph) (e : Edge) : outcome Node :=
  match e with
  | Edge_mk g_ edgeid_ _ _ =>
      g ← deref h g_; ie ← vec_at (edges_ g) edgeid_; Ret (node_b ie)
  | Edge_default => Undefined
  end.

(** [Edge::operator==]: [e.edgeid_ == this->edgeid_] *)
Definition Edge_eq (x e : Edge) : outcome bool :=
  match x, e with
  | Edge_mk _ ix _ _, Edge_mk _ ie _ _ => Ret (ie =? ix)
  | _, _ => Undefined
  end.

Definition num_edges (g : Graph) : size_type := wrap32 (vsize (edges_ g)).

Definition edge (h : gmap addr Graph) (this : addr) (i : size_type) : outcome Edge :=
  g ← deref h (Some this);
  if vsize (edges_ g) <=? i then Ret Edge_default
  else
    ie ← vec_at (edges_ g) i;
    a ← Node_index h (node_a ie);
    b ← Node_index h (node_b ie);
    Ret (Edge_mk (Some this) i a b).

(** The test of both edge loops:
    [(edges_[i].node_a == a && edges_[i].node_b == b) ||
     (edges_[i].node_b == a && edges_[i].node_a == b)] *)
Definition connects (ie : internal_edges) (a b : Node) : outcome bool :=
  or_else (and_then (Node_eq (node_a ie) a) (Node_eq (node_b ie) b))
          (and_then (Node_eq (node_b ie) a) (Node_eq (node_a ie) b)).

(** The loop over [edges_] of [has_edge] and [add_edge]: the index [i] at
    which the test first holds, counting from [i]. *)
Fixpoint find_edge (es : list internal_edges) (i : size_type) (a b : Node)
  : outcome (option size_type) :=
  match es with
  | [] => Ret None
  | ie :: es' =>
      c ← connects ie a b;
      if (c : bool) then Ret (Some i) else find_edge es' (wrap32 (i + 1)) a b
  end.

Definition has_edge (this : addr) (g : Graph) (a b : Node) : outcome bool :=
  match a with
  | Node_default => Undefined
  | Node_mk ga _ =>
      if negb (ptr_eqb (Some this) ga) then Ret false
      else
        match b with
        | Node_default => Undefined
        | Node_mk gb _ =>
            if negb (ptr_eqb (Some this) gb) then Ret false
            else
              r ← find_edge (edges_ g) 0 a b;
              Ret (match r with Some _ => true | None => false end)
        end
  end.

Definition add_edge (h : gmap addr Graph) (this : addr) (a b : Node)
  : outcome (gmap addr Graph * Edge) :=
  same ← Node_eq a b;
  if (same : bool) then Ret (h, Edge_default)
  else
    g ← deref h (Some this);
    present ← has_edge this g a b;
    if (present : bool) then
      r ← find_edge (edges_ g) 0 a b;
      match r with
      | Some i =>
          ia ← Node_index h a; ib ← Node_index h b;
          Ret (h, Edge_mk (Some this) i ia ib)
      | None => Ret (h, Edge_default)
      end
    else
      let edge_addition := {| node_a := a; node_b := b; edgeid := size g |} in
      let g' := {| nodes_ := nodes_ g; edges_ := edges_ g ++ [edge_addition] |} in
      let h' := <[this := g']> h in
      ia ← Node_index h' (node_a edge_addition);
      ib ← Node_index h' (node_b edge_addition);
      Ret (h', Edge_mk (Some this) (edgeid edge_addition) ia ib).

Definition clear (g : Graph) : Graph := {| nodes_ := []; edges_ := [] |}.

(** The record [ie] holds the nodes [a] and [b], in either order. *)
Definition joins (ie : internal_edges) (a b : Node) : Prop :=
  (node_a ie = a /\ node_b ie = b) \/ (node_b ie = a /\ node_a ie = b).

(** Every node stored in an edge record was made by [Node(g, uid)]. *)
Definition stored_initialised (g : Graph) : Prop :=
  Forall (fun ie => node_a ie <> Node_default /\ node_b ie <> Node_default)
         (edges_ g).

(** The states of the graph at [this] that calls of its member functions
    reach from the constructor; [add_edge] runs in a store that holds the
    graph. *)
Inductive calls (this : addr) : Graph -> Prop :=
| calls_ctor : calls this empty
| calls_add_node g pos : calls this g -> calls this (add_node this g pos).1
| calls_add_edge g h a b h' e g' :
    calls this g ->
    h !! this = Some g ->
    add_edge h this a b = Ret (h', e) ->
    h' !! this = Some g' ->
    calls this g'
| calls_clear g : calls this g -> calls this (clear g).

End WithPoint.
Arguments Graph : clear implicits.
Arguments internal_nodes : clear implicits.

(** Sample runs, with [unit] for the position type. *)

(** [add_node] once, on a graph at address 1. *)
Definition one_node : Graph unit * Node := add_node 1 empty tt.

(** [add_node] three times, on a graph at address [this]. *)
Definition three_nodes (this : addr) : Graph unit :=
  (add_node this (add_node this (add_node this empty tt).1 tt).1 tt).1.

(** On one graph with three nodes: [add_edge(node(0), node(1))], then
    [add_edge(node(1), node(2))]; the two handles returned. *)
Definition two_edges_one_graph : outcome (Edge * Edge) :=
  let h := {[ 1 := three_nodes 1 ]} in
  r1 ← add_edge h 1 (node 1 (three_nodes 1) 0) (node 1 (three_nodes 1) 1);
  r2 ← add_edge r1.1 1 (node 1 (three_nodes 1) 1) (node 1 (three_nodes 1) 2);
  Ret (r1.2, r2.2).

(** On two graphs with three nodes each, at addresses 1 and 2:
    [add_edge(node(0), node(1))] on each; the two handles returned. *)
Definition two_graphs_one_edge : outcome (Edge * Edge) :=
  let h := <[ 2 := three_nodes 2 ]> {[ 1 := three_nodes 1 ]} in
  r1 ← add_edge h 1 (node 1 (three_nodes 1) 0) (node 1 (three_nodes 1) 1);
  r2 ← add_edge r1.1 2 (node 2 (three_nodes 2) 0) (node 2 (three_nodes 2) 1);
  Ret (r1.2, r2.2).

End Graph1703.

(** ** hw0/Graph-20862.hpp: explicit list of index pairs *)

Module Graph20862.
Section WithPoint.
Context {Point : Type}.

Record Node : Type := { id : size_type; graph : ptr }.

(** [Node()]: [id = size_type(-1)], [graph = nullptr] *)
Definition Node_default : Node := {| id := sub32 0 1; graph := nullptr |}.

(** The source names the members of [Edge] [id] and [graph] too. *)
Record Edge : Type := { edge_id : size_type; edge_graph : ptr }.

(** [Edge()] *)
Definition Edge_default : Edge := {| edge_id := sub32 0 1; edge_graph := nullptr |}.

Record Graph : Type :=
  { Points : list Point; Edges : list (size_type * size_type) }.

Definition empty : Graph := {| Points := []; Edges := [] |}.

Definition index (n : Node) : size_type := id n.

(** [Node::operator==]: [n.graph==this->graph && n.index()==this->id] *)
Definition Node_eq (x n : Node) : bool :=
  ptr_eqb (graph n) (graph x) && (index n =? id x).

Definition size (g : Graph) : size_type := wrap32 (vsize (Points g)).

Definition num_nodes (g : Graph) : size_type := size g.

(** [i >= this->Points.size()] compares as [size_t]; the message written
    to [std::cout] out of range is not modelled. *)
Definition node (this : addr) (g : Graph) (i : size_type) : Node :=
  if vsize (Points g) <=? i then Node_default
  else {| id := i; graph := Some this |}.

Definition add_node (this : addr) (g : Graph) (position : Point) : Graph * Node :=
  let g' := {| Points := Points g ++ [position]; Edges := Edges g |} in
  (g', node this g' (wrap32 (vsize (Points g') - 1))).

(** [in_graph=this->node(n.index())==n]; the assignment under
    [if(n.index()>this->size())] before it is overwritten by this one. *)
Definition has_node (this : addr) (g : Graph) (n : Node) : bool :=
  Node_eq (node this g (index n)) n.

(** [i > Edges.size()] compares as [size_t]. *)
Definition edge (this : addr) (g : Graph) (i : size_type) : Edge :=
  if vsize (Edges g) <? i then Edge_default
  else {| edge_id := i; edge_graph := Some this |}.

(** [Edge::node1]: [graph->node(graph->Edges[id].first)] *)
Definition node1 (h : gmap addr Graph) (e : Edge) : outcome Node :=
  match edge_graph e with
  | Some a =>
      g ← deref h (Some a);
      pair ← vec_at (Edges g) (edge_id e);
      Ret (node a g pair.1)
  | None => Undefined
  end.

Definition node2 (h : gmap addr Graph) (e : Edge) : outcome Node :=
  match edge_graph e with
  | Some a =>
      g ← deref h (Some a);
      pair ← vec_at (Edges g) (edge_id e);
      Ret (node a g pair.2)
  | None => Undefined
  end.

(** [x.f() == e.g()] for two endpoint accessors. *)
Definition ends_eq (h : gmap addr Graph)
    (f g : gmap addr Graph -> Edge -> outcome Node) (x e : Edge) : outcome bool :=
  n ← f h x; m ← g h e; Ret (Node_eq n m).

(** [Edge::operator==] *)
Definition Edge_eq (h : gmap addr Graph) (x e : Edge) : outcome bool :=
  or_else
    (and_then (ends_eq h node1 node1 x e) (ends_eq h node2 node2 x e))
    (and_then (ends_eq h node1 node2 x e) (ends_eq h node2 node1 x e)).

Definition num_edges (g : Graph) : size_type := wrap32 (vsize (Edges g)).

Definition pair_eqb (p q : size_type * size_type) : bool :=
  (p.1 =? q.1) && (p.2 =? q.2).

(** [std::find(v.begin(), v.end(), x) - v.begin()]: the position of the
    first occurrence of [x], the length of [v] when there is none. *)
Fixpoint find_pos (v : list (size_type * size_type)) (x : size_type * size_type) : nat :=
  match v with
  | [] => O
  | y :: v' => if pair_eqb y x then O else S (find_pos v' x)
  end.

Definition has_edge (g : Graph) (a b : Node) : bool :=
  let edge1 := (index a, index b) in
  let edge2 := (index b, index a) in
  if negb (Nat.eqb (find_pos (Edges g) edge1) (length (Edges g))) then true
  else if negb (Nat.eqb (find_pos (Edges g) edge2) (length (Edges g))) then true
  else false.

Definition add_edge (this : addr) (g : Graph) (a b : Node) : Graph * Edge :=
  let edge1 := (index a, index b) in
  let edge2 := (index b, index a) in
  let pos1 := find_pos (Edges g) edge1 in
  let pos2 := find_pos (Edges g) edge2 in
  if negb (Nat.eqb pos1 (length (Edges g))) then
    (g, edge this g (wrap32 (N.of_nat pos1)))
  else if negb (Nat.eqb pos2 (length (Edges g))) then
    (g, edge this g (wrap32 (N.of_nat pos1)))
  else
    let g' := {| Points := Points g; Edges := Edges g ++ [edge1] |} in
    (g', edge this g' (wrap32 (vsize (Edges g') - 1))).

Definition clear (g : Graph) : Graph := {| Points := []; Edges := [] |}.

(** [Node::operator<]; [ptr_ltb] is the order [std::less<Graph*>] of graph
    pointers. *)
Definition Node_lt (ptr_ltb : ptr -> ptr -> bool) (x n : Node) : bool :=
  if id x <? index n then true
  else if id x =? index n then ptr_ltb (graph x) (graph n)
  else false.

(** [n] is a valid node of the graph at [this]. *)
Definition valid_node (this : addr) (g : Graph) (n : Node) : Prop :=
  graph n = Some this /\ id n < vsize (Points g).

(** The unordered pair of a stored edge: lesser endpoint first. *)
Definition unordered (p : size_type * size_type) : size_type * size_type :=
  (N.min p.1 p.2, N.max p.1 p.2).

(** [calls this g]: [g] is a state of the graph at address [this] reached
    by member-function calls, with arbitrary arguments. *)
Inductive calls (this : addr) : Graph -> Prop :=
| calls_ctor : calls this empty
| calls_add_node g position :
    calls this g -> calls this (add_node this g position).1
| calls_add_edge g a b :
    calls this g -> calls this (add_edge this g a b).1
| calls_clear g :
    calls this g -> calls this (clear g).

End WithPoint.
Arguments Graph : clear implicits.

(** Sample run, with [unit] for the position type, of a graph at address 1:
    [add_node] twice. *)
Definition two_nodes : Graph unit :=
  (add_node 1 (add_node 1 empty tt).1 tt).1.

End Graph20862.

(** ** hw0/Graph-20558.hpp: explicit list of node pairs *)

Module Graph20558.
Section WithPoint.
Context {Point : Type}.

(** Initialised handles; [Node() {}] and [Edge() {}] leave the members
    indeterminate. *)
Record Node : Type := { m_index : size_type; m_ptr_graph : ptr }.

(** The source names the members of [Edge] [m_index] and [m_ptr_graph]
    too. *)
Record Edge : Type := { edge_index : size_type; edge_ptr_graph : ptr }.

Record internal_node : Type := { m_node_point : Point }.

Record internal_edge : Type := { m_node1 : Node; m_node2 : Node }.

Record Graph : Type :=
  { m_graph_nodes : list internal_node; m_graph_edges : list internal_edge }.

Definition empty : Graph := {| m_graph_nodes := []; m_graph_edges := [] |}.

Definition index (n : Node) : size_type := m_index n.

Definition size (g : Graph) : size_type := wrap32 (vsize (m_graph_nodes g)).

Definition num_nodes (g : Graph) : size_type := size g.

Definition add_node (this : addr) (g : Graph) (position : Point) : Graph * Node :=
  let n := {| m_node_point := position |} in
  let g' := {| m_graph_nodes := m_graph_nodes g ++ [n];
               m_graph_edges := m_graph_edges g |} in
  let i := size g' in
  (g', {| m_index := sub32 i 1; m_ptr_graph := Some this |}).

(** [has_node] reads no member of the graph. *)
Definition has_node (this : addr) (n : Node) : bool :=
  ptr_eqb (m_ptr_graph n) (Some this).

Definition node (this : addr) (g : Graph) (i : size_type) : outcome Node :=
  if i <? size g then Ret {| m_index := i; m_ptr_graph := Some this |}
  else AssertFail.

(** [Node::operator==]: [m_ptr_graph->has_node(n) && m_index==n.index()];
    [live] is the set of addresses that hold a Graph object. *)
Definition Node_eq (live : gset addr) (x n : Node) : outcome bool :=
  match m_ptr_graph x with
  | Some a =>
      if bool_decide (a ∈ live)
      then Ret (has_node a n && (m_index x =? index n))
      else Undefined
  | None => Undefined
  end.

Definition num_edges (g : Graph) : size_type := wrap32 (vsize (m_graph_edges g)).

Definition edge (this : addr) (g : Graph) (i : size_type) : outcome Edge :=
  if i <? num_edges g then Ret {| edge_index := i; edge_ptr_graph := Some this |}
  else AssertFail.

Definition connects (live : gset addr) (ie : internal_edge) (a b : Node)
  : outcome bool :=
  or_else (and_then (Node_eq live (m_node1 ie) a) (Node_eq live (m_node2 ie) b))
          (and_then (Node_eq live (m_node1 ie) b) (Node_eq live (m_node2 ie) a)).

(** The loop over [m_graph_edges] of [has_edge] and [add_edge]. *)
Fixpoint find_edge (live : gset addr) (es : list internal_edge) (i : size_type)
    (a b : Node) : outcome (option size_type) :=
  match es with
  | [] => Ret None
  | ie :: es' =>
      c ← connects live ie a b;
      if (c : bool) then Ret (Some i)
      else find_edge live es' (wrap32 (i + 1)) a b
  end.

Definition add_edge (live : gset addr) (this : addr) (g : Graph) (a b : Node)
  : outcome (Graph * Edge) :=
  found ← (if ptr_eqb (m_ptr_graph a) (Some this)
              && ptr_eqb (m_ptr_graph b) (Some this)
           then find_edge live (m_graph_edges g) 0 a b
           else Ret None);
  match found with
  | Some i => Ret (g, {| edge_index := i; edge_ptr_graph := Some this |})
  | None =>
      let e := {| m_node1 := a; m_node2 := b |} in
      let g' := {| m_graph_nodes := m_graph_nodes g;
                   m_graph_edges := m_graph_edges g ++ [e] |} in
      let i := num_edges g' in
      Ret (g', {| edge_index := sub32 i 1; edge_ptr_graph := Some this |})
  end.

Definition clear (g : Graph) : Graph :=
  {| m_graph_nodes := []; m_graph_edges := [] |}.

(** [has_edge]: [false] unless both handles point to this graph, else the
    loop over [m_graph_edges]. *)
Definition has_edge (live : gset addr) (this : addr) (g : Graph) (a b : Node)
  : outcome bool :=
  if negb (ptr_eqb (m_ptr_graph a) (Some this))
     || negb (ptr_eqb (m_ptr_graph b) (Some this))
  then Ret false
  else
    found ← find_edge live (m_graph_edges g) 0 a b;
    Ret (match found with Some _ => true | None => false end).

(** [Edge::node1]: [(m_ptr_graph->m_graph_edges)[m_index].m_node1] *)
Definition node1 (h : gmap addr Graph) (e : Edge) : outcome Node :=
  g ← deref h (edge_ptr_graph e);
  ie ← vec_at (m_graph_edges g) (edge_index e);
  Ret (m_node1 ie).

Definition node2 (h : gmap addr Graph) (e : Edge) : outcome Node :=
  g ← deref h (edge_ptr_graph e);
  ie ← vec_at (m_graph_edges g) (edge_index e);
  Ret (m_node2 ie).

(** [Node::operator<]: [m_index<n.index()] *)
Definition Node_lt (x n : Node) : bool := m_index x <? index n.

(** The record [ie] holds the nodes [a] and [b], in either order. *)
Definition joins (ie : internal_edge) (a b : Node) : Prop :=
  (m_node1 ie = a /\ m_node2 ie = b) \/ (m_node1 ie = b /\ m_node2 ie = a).

(** Every node stored in an edge record points to a live Graph object. *)
Definition stored_live (live : gset addr) (g : Graph) : Prop :=
  Forall (fun ie =>
            (exists p, m_ptr_graph (m_node1 ie) = Some p /\ p ∈ live)
            /\ (exists q, m_ptr_graph (m_node2 ie) = Some q /\ q ∈ live))
         (m_graph_edges g).

(** As [Graph26021.calls]. *)
Inductive calls (live : gset addr) (this : addr) : nat -> Graph -> Prop :=
| calls_ctor : calls live this 0 empty
| calls_add_node k g position :
    calls live this k g ->
    calls live this (S k) (add_node this g position).1
| calls_add_edge k g a b g' e :
    calls live this k g ->
    add_edge live this g a b = Ret (g', e) ->
    calls live this k g'
| calls_clear k g :
    calls live this k g ->
    calls live this 0 (clear g).

End WithPoint.
Arguments Graph : clear implicits.
Arguments internal_node : clear implicits.

(** Sample run, with [unit] for the position type, of a graph at address 1:
    [add_node] three times. *)
Definition three_nodes : Graph unit :=
  (add_node 1 (add_node 1 (add_node 1 empty tt).1 tt).1 tt).1.

End Graph20558.

(** * Properties *)

(** ** Arithmetic of [size_type] *)

Lemma wrap32_small (n : N) : n < 2 ^ 32 -> wrap32 n = n.
Proof. intros Hn. unfold wrap32. apply N.mod_small; exact Hn. Qed.

Lemma wrap32_le (n : N) : wrap32 n <= n.
Proof. unfold wrap32. apply N.Div0.mod_le. Qed.

(** The index of the last element after a [push_back]: [size() - 1]. *)
Lemma sub32_last (n : N) : n < 2 ^ 32 -> sub32 (wrap32 (n + 1)) 1 = n.
Proof.
  intros Hn. unfold sub32.
  rewrite (wrap32_small 1) by reflexivity.
  destruct (N.eq_dec (n + 1) (2 ^ 32)) as [Heq | Hne].
  - rewrite Heq. unfold wrap32 at 2. rewrite N.Div0.mod_same.
    rewrite N.add_0_l. rewrite wrap32_small by lia. lia.
  - rewrite (wrap32_small (n + 1)) by lia.
    replace (n + 1 + (2 ^ 32 - 1)) with (n + 1 * 2 ^ 32) by lia.
    unfold wrap32. rewrite N.Div0.mod_add. apply N.mod_small; exact Hn.
Qed.

Lemma vsize_app {A : Type} (v w : list A) : vsize (v ++ w) = vsize v + vsize w.
Proof. unfold vsize. rewrite length_app. lia. Qed.

(** ** The outcome monad *)

Lemma vec_at_Ret {A : Type} (v : list A) (i : size_type) (x : A) :
  vec_at v i = Ret x <-> v !! N.to_nat i = Some x.
Proof.
  unfold vec_at. destruct (v !! N.to_nat i); split; intros H; congruence.
Qed.

Lemma vec_at_in_range {A : Type} (v : list A) (i : size_type) :
  i < vsize v -> exists x, vec_at v i = Ret x.
Proof.
  intros Hi. unfold vsize in Hi.
  destruct (lookup_lt_is_Some_2 v (N.to_nat i)) as [x Hx]; [lia |].
  exists x. apply vec_at_Ret. exact Hx.
Qed.

Lemma push_back_at_Ret {A : Type} (v v' : list (list A)) (i : size_type) (x : A) :
  push_back_at v i x = Ret v' ->
  exists row, v !! N.to_nat i = Some row /\ v' = <[N.to_nat i := row ++ [x]]> v.
Proof.
  unfold push_back_at. destruct (vec_at v i) as [row | |] eqn:Hrow; simpl; try discriminate.
  intros [= <-]. exists row. split; [apply vec_at_Ret; exact Hrow | reflexivity].
Qed.

Lemma push_back_at_length {A : Type} (v v' : list (list A)) (i : size_type) (x : A) :
  push_back_at v i x = Ret v' -> length v' = length v.
Proof.
  intros H. apply push_back_at_Ret in H as (row & _ & ->). apply length_insert.
Qed.

Lemma and_then_Ret (b1 b2 : bool) : and_then (Ret b1) (Ret b2) = Ret (b1 && b2).
Proof. destruct b1; reflexivity. Qed.

Lemma or_else_Ret (b1 b2 : bool) : or_else (Ret b1) (Ret b2) = Ret (b1 || b2).
Proof. destruct b1; reflexivity. Qed.

(** [fits32] of a graph given by its vectors. *)
Ltac fits32_by_computation :=
  split;
  [ vm_compute; reflexivity
  | split;
    [ vm_compute; reflexivity
    | repeat (apply Forall_cons; split; [vm_compute; reflexivity |]);
      apply Forall_nil_2 ] ].

Lemma bool_eq_iff (b1 b2 : bool) : (b1 = true <-> b2 = true) -> b1 = b2.
Proof. destruct b1, b2; intros [H1 H2]; auto; symmetry; auto. Qed.

(** ** hw1/Graph-26021.hpp *)

Section Graph26021_facts.
Context {Point V : Type}.
Import Graph26021.
Implicit Types (g : Graph Point V) (a b : Node) (i j : size_type).
Implicit Types (adj : list (list size_type)) (h : gmap addr (Graph Point V)).

Lemma row_has_true (tmp : list size_type) (x : size_type) :
  row_has tmp x = true <-> x ∈ tmp.
Proof.
  unfold row_has. rewrite existsb_exists, list_elem_of_In. split.
  - intros (y & Hy & Heq). apply N.eqb_eq in Heq. subst y. exact Hy.
  - intros Hx. exists x. split; [exact Hx | apply N.eqb_refl].
Qed.

Lemma row_member_push (adj adj' : list (list size_type)) (i x : size_type) :
  push_back_at adj i x = Ret adj' ->
  forall i' j, row_member adj' i' j <-> row_member adj i' j \/ (i' = i /\ j = x).
Proof.
  intros H i' j. apply push_back_at_Ret in H as (row & Hrow & ->).
  unfold row_member. destruct (N.eq_dec i' i) as [-> | Hne].
  - rewrite list_lookup_insert_eq by (eapply lookup_lt_Some; exact Hrow).
    split.
    + intros (r & [= <-] & Hj). apply elem_of_app in Hj as [Hj | Hj].
      * left. exists row. split; [exact Hrow | exact Hj].
      * right. apply list_elem_of_singleton in Hj. split; [reflexivity | exact Hj].
    + intros [(r & Hr & Hj) | [_ ->]].
      * exists (row ++ [x]). split; [reflexivity |].
        apply elem_of_app. left. congruence.
      * exists (row ++ [x]). split; [reflexivity |].
        apply elem_of_app. right. apply list_elem_of_singleton. reflexivity.
  - rewrite list_lookup_insert_ne by lia. split.
    + intros H. left. exact H.
    + intros [H | [Heq _]]; [exact H | contradiction].
Qed.

Lemma row_member_new_row (adj : list (list size_type)) (i j : size_type) :
  row_member (adj ++ [[]]) i j <-> row_member adj i j.
Proof.
  unfold row_member. split; intros (row & Hrow & Hj).
  - apply lookup_app_Some in Hrow as [Hrow | [_ Hrow]].
    + exists row. split; [exact Hrow | exact Hj].
    + apply list_lookup_singleton_Some in Hrow as [_ <-].
      apply elem_of_nil in Hj. contradiction.
  - exists row. split; [| exact Hj]. apply lookup_app_l_Some. exact Hrow.
Qed.

(** What a returning [add_edge] does to the graph. *)
Lemma add_edge_Ret this g a b g' e :
  add_edge this g a b = Ret (g', e) ->
  e = {| edge_graph_ptr := Some this;
         m_node1_index := index a; m_node2_index := index b |}
  /\ m_graph_nodes g' = m_graph_nodes g
  /\ length (m_adjacency g') = length (m_adjacency g)
  /\ ((g' = g /\ neighbor g (index a) (index b))
      \/ (forall i j, neighbor g' i j <->
            neighbor g i j \/ (i = index b /\ j = index a)
            \/ (i = index a /\ j = index b))).
Proof.
  unfold add_edge. intros H.
  destruct (ptr_eqb (m_graph_ptr a) (Some this) && ptr_eqb (m_graph_ptr b) (Some this)) eqn:Hown.
  - destruct (vec_at (m_adjacency g) (index a)) as [tmp | |] eqn:Htmp; simpl in H;
      try discriminate.
    destruct (row_has tmp (index b)) eqn:Hhas.
    + injection H as <- <-. repeat split. left. split; [reflexivity |].
      exists tmp. split; [apply vec_at_Ret; exact Htmp | apply row_has_true; exact Hhas].
    + destruct (push_back_at (m_adjacency g) (index b) (index a)) as [adj1 | |] eqn:H1;
        simpl in H; try discriminate.
      destruct (push_back_at adj1 (index a) (index b)) as [adj2 | |] eqn:H2;
        simpl in H; try discriminate.
      injection H as <- <-. simpl. repeat split.
      * rewrite (push_back_at_length _ _ _ _ H2). apply (push_back_at_length _ _ _ _ H1).
      * right. intros i j. unfold neighbor. simpl.
        change (row_member adj2 i j <->
                row_member (m_adjacency g) i j \/ (i = index b /\ j = index a)
                \/ (i = index a /\ j = index b)).
        rewrite (row_member_push _ _ _ _ H2), (row_member_push _ _ _ _ H1). tauto.
  - simpl in H.
    destruct (push_back_at (m_adjacency g) (index b) (index a)) as [adj1 | |] eqn:H1;
      simpl in H; try discriminate.
    destruct (push_back_at adj1 (index a) (index b)) as [adj2 | |] eqn:H2;
      simpl in H; try discriminate.
    injection H as <- <-. simpl. repeat split.
    * rewrite (push_back_at_length _ _ _ _ H2). apply (push_back_at_length _ _ _ _ H1).
    * right. intros i j. unfold neighbor. simpl.
      change (row_member adj2 i j <->
              row_member (m_adjacency g) i j \/ (i = index b /\ j = index a)
              \/ (i = index a /\ j = index b)).
      rewrite (row_member_push _ _ _ _ H2), (row_member_push _ _ _ _ H1). tauto.
Qed.

Lemma symmetric_empty : symmetric (@empty Point V).
Proof.
  intros i j. unfold neighbor. simpl.
  split; intros (row & Hrow & _); rewrite lookup_nil in Hrow; discriminate.
Qed.

Lemma symmetric_add_node this g position v :
  symmetric g -> symmetric (add_node this g position v).1.
Proof.
  intros Hsym i j. unfold neighbor. simpl.
  change (row_member (m_adjacency g ++ [[]]) i j <-> row_member (m_adjacency g ++ [[]]) j i).
  rewrite !row_member_new_row. apply Hsym.
Qed.

Lemma symmetric_add_edge this g a b g' e :
  symmetric g -> add_edge this g a b = Ret (g', e) -> symmetric g'.
Proof.
  intros Hsym H. apply add_edge_Ret in H as (_ & _ & _ & [[-> _] | Hnb]); [exact Hsym |].
  intros i j. rewrite !Hnb. specialize (Hsym i j). tauto.
Qed.

Lemma symmetric_clear g : symmetric (clear g).
Proof. apply symmetric_empty. Qed.

Lemma calls_symmetric this k g : calls this k g -> symmetric g.
Proof.
  induction 1 as [| k g position v _ IH | k g a b g' e _ IH Hadd | k g _ _].
  - apply symmetric_empty.
  - apply symmetric_add_node. exact IH.
  - eapply symmetric_add_edge; [exact IH | exact Hadd].
  - apply symmetric_clear.
Qed.

(** After a returning [add_edge(a,b)] on a reachable graph both
    directions are recorded. *)
Lemma add_edge_records_both this g a b g' e :
  reachable this g ->
  add_edge this g a b = Ret (g', e) ->
  neighbor g' (index a) (index b) /\ neighbor g' (index b) (index a).
Proof.
  intros [k Hcalls] Hadd. pose proof (calls_symmetric _ _ _ Hcalls) as Hsym.
  apply add_edge_Ret in Hadd as (_ & _ & _ & [[-> Hab] | Hnb]).
  - split; [exact Hab | apply Hsym; exact Hab].
  - rewrite !Hnb. tauto.
Qed.

(** Both vectors of a reachable graph have one element per [add_node]
    call. *)
Lemma calls_lengths this k g :
  calls this k g ->
  length (m_graph_nodes g) = k /\ length (m_adjacency g) = k.
Proof.
  induction 1 as [| k g position v _ [IHn IHa] | k g a b g' e _ [IHn IHa] Hadd | k g _ _].
  - split; reflexivity.
  - simpl. rewrite !length_app. simpl. lia.
  - apply add_edge_Ret in Hadd as (_ & Hn & Ha & _). rewrite Hn, Ha. split; assumption.
  - split; reflexivity.
Qed.

Lemma push_back_at_in_range (adj : list (list size_type)) (i x : size_type) :
  i < vsize adj -> exists adj', push_back_at adj i x = Ret adj'.
Proof.
  intros Hi. destruct (vec_at_in_range adj i Hi) as [row Hrow].
  unfold push_back_at. rewrite Hrow. simpl. eexists. reflexivity.
Qed.

(** [add_edge] returns when both indices are inside the adjacency
    vector. *)
Lemma add_edge_returns this g a b :
  index a < vsize (m_adjacency g) ->
  index b < vsize (m_adjacency g) ->
  exists g' e, add_edge this g a b = Ret (g', e).
Proof.
  intros Ha Hb. unfold add_edge.
  destruct (vec_at_in_range _ _ Ha) as [tmp Htmp].
  destruct (push_back_at_in_range (m_adjacency g) (index b) (index a) Hb) as [adj1 H1].
  destruct (push_back_at_in_range adj1 (index a) (index b)) as [adj2 H2].
  { unfold vsize in *. rewrite (push_back_at_length _ _ _ _ H1). exact Ha. }
  destruct (ptr_eqb (m_graph_ptr a) (Some this) && ptr_eqb (m_graph_ptr b) (Some this)).
  - rewrite Htmp. simpl. destruct (row_has tmp (index b)).
    + eexists _, _. reflexivity.
    + rewrite H1. simpl. rewrite H2. simpl. eexists _, _. reflexivity.
  - simpl. rewrite H1. simpl. rewrite H2. simpl. eexists _, _. reflexivity.
Qed.

(** The already-connected branch of [add_edge]. *)
Lemma add_edge_present this g a b :
  m_graph_ptr a = Some this -> m_graph_ptr b = Some this ->
  neighbor g (index a) (index b) ->
  add_edge this g a b
  = Ret (g, {| edge_graph_ptr := Some this;
               m_node1_index := index a; m_node2_index := index b |}).
Proof.
  intros Ha Hb (row & Hrow & Hin). unfold add_edge, ptr_eqb.
  rewrite Ha, Hb, !bool_decide_eq_true_2 by reflexivity. simpl.
  apply vec_at_Ret in Hrow. rewrite Hrow. simpl.
  apply row_has_true in Hin. rewrite Hin. reflexivity.
Qed.

Lemma valid_node_in_range this k g n :
  calls this k g -> valid_node this g n -> index n < vsize (m_adjacency g).
Proof.
  intros Hcalls [_ Hn]. apply calls_lengths in Hcalls as [Hlen Hadj].
  unfold num_nodes, size in Hn. pose proof (wrap32_le (vsize (m_graph_nodes g))) as Hle.
  unfold vsize in *. unfold index. lia.
Qed.

(** [x == n] for a handle [x] of the graph at [this] and a valid node [n]
    of it. *)
Lemma Node_eq_valid (h : gmap addr (Graph Point V)) this g x n :
  h !! this = Some g ->
  m_graph_ptr x = Some this ->
  valid_node this g n ->
  Node_eq h x n = Ret (m_node_index x =? m_node_index n).
Proof.
  intros Hg Hx [Hn Hlt]. unfold Node_eq, deref, has_node, ptr_eqb.
  rewrite Hx, Hg. simpl.
  apply N.ltb_lt in Hlt. unfold num_nodes in Hlt. rewrite Hlt.
  rewrite Hn, bool_decide_eq_true_2 by reflexivity. reflexivity.
Qed.

Lemma valid_node_same_nodes this g g' n :
  m_graph_nodes g' = m_graph_nodes g -> valid_node this g n -> valid_node this g' n.
Proof.
  intros Heq [Hp Hn]. split; [exact Hp |].
  unfold num_nodes, size in *. rewrite Heq. exact Hn.
Qed.

(** *** The edge iterator *)

Lemma row_of_lookup adj n row :
  adj !! N.to_nat n = Some row -> row_of adj n = row.
Proof. intros H. unfold row_of. rewrite H. reflexivity. Qed.

Lemma row_after_entry adj n e x :
  row_of adj n !! N.to_nat e = Some x ->
  row_after adj n e = (if n <? x then [(n, e)] else []) ++ row_after adj n (e + 1).
Proof.
  intros Hx. unfold row_after.
  rewrite (drop_S _ _ _ Hx). simpl.
  replace (N.to_nat (e + 1)) with (S (N.to_nat e)) by lia. reflexivity.
Qed.

Lemma row_after_end adj n e :
  vsize (row_of adj n) <= e -> row_after adj n e = [].
Proof.
  intros He. unfold row_after. rewrite drop_ge; [reflexivity |].
  unfold vsize in He. lia.
Qed.

Lemma rows_after_node adj n :
  n < vsize adj ->
  rows_after adj n = row_after adj n 0 ++ rows_after adj (n + 1).
Proof.
  intros Hn. unfold vsize in Hn.
  destruct (lookup_lt_is_Some_2 adj (N.to_nat n)) as [row Hrow]; [lia |].
  unfold rows_after, row_after. rewrite (drop_S _ _ _ Hrow). simpl.
  rewrite (row_of_lookup _ _ _ Hrow), drop_0.
  replace (N.to_nat (n + 1)) with (S (N.to_nat n)) by lia. reflexivity.
Qed.

Lemma rows_after_end adj n : vsize adj <= n -> rows_after adj n = [].
Proof.
  intros Hn. unfold rows_after. rewrite drop_ge; [reflexivity |].
  unfold vsize in Hn. lia.
Qed.

Lemma fits_row adj n row :
  fits_adj adj -> adj !! N.to_nat n = Some row -> vsize row < 2 ^ 32.
Proof.
  intros [_ Hall] Hrow. rewrite Forall_forall in Hall. apply Hall.
  eapply list_elem_of_lookup_2. exact Hrow.
Qed.

Lemma incr_loop_spec adj (fuel : nat) : forall n e,
  fits_adj adj ->
  n < vsize adj ->
  (S (tests_left adj n e) < fuel)%nat ->
  incr_loop fuel adj n e
  = Some (Ret (first_or_end adj (row_after adj n e ++ rows_after adj (n + 1)))).
Proof.
  induction fuel as [| fuel IH]; intros n e Hfit Hn Hfuel; [lia |].
  simpl. apply N.ltb_lt in Hn as Hn'. rewrite Hn'.
  destruct (vec_at_in_range adj n Hn) as [row Hrow]. rewrite Hrow.
  apply vec_at_Ret in Hrow. pose proof (row_of_lookup _ _ _ Hrow) as Hrowof.
  pose proof (fits_row _ _ _ Hfit Hrow) as Hrowfit.
  destruct (N.ltb_spec e (vsize row)) as [He | He].
  - destruct (vec_at_in_range row e He) as [x Hx]. rewrite Hx.
    apply vec_at_Ret in Hx.
    rewrite (row_after_entry adj n e x) by (rewrite Hrowof; exact Hx).
    destruct (n <? x) eqn:Hlt; [reflexivity |]. simpl.
    assert (He1 : wrap32 (e + 1) = e + 1) by (apply wrap32_small; lia).
    rewrite He1. apply IH; [exact Hfit | exact Hn |].
    unfold tests_left in *. rewrite Hrowof in *. rewrite !length_drop in *.
    unfold vsize in He. lia.
  - rewrite (row_after_end adj n e) by (rewrite Hrowof; exact He). simpl.
    assert (Hn1 : wrap32 (n + 1) = n + 1) by (apply wrap32_small; destruct Hfit; lia).
    rewrite Hn1.
    destruct (N.ltb_spec (n + 1) (vsize adj)) as [Hin | Hout].
    + rewrite (rows_after_node adj (n + 1) Hin).
      apply IH; [exact Hfit | exact Hin |].
      unfold tests_left in *.
      unfold vsize in Hin.
      destruct (lookup_lt_is_Some_2 adj (N.to_nat (n + 1))) as [row' Hrow']; [lia |].
      rewrite (row_of_lookup _ _ _ Hrow'), drop_0.
      replace (N.to_nat (n + 1)) with (S (N.to_nat n)) in * by lia.
      rewrite (drop_S _ _ _ Hrow') in Hfuel. simpl in Hfuel.
      rewrite length_app in Hfuel. lia.
    + rewrite (rows_after_end adj (n + 1) Hout). simpl.
      destruct fuel as [| fuel']; [lia |].
      simpl. assert (Hend : n + 1 = vsize adj) by lia.
      rewrite Hend, N.ltb_irrefl. reflexivity.
Qed.

Lemma row_after_head adj n (k : nat) : forall e n' e' L,
  (length (row_of adj n) - N.to_nat e = k)%nat ->
  row_after adj n e = (n', e') :: L ->
  n' = n /\ e' < vsize (row_of adj n) /\ L = row_after adj n (e' + 1).
Proof.
  induction k as [| k IH]; intros e n' e' L Hk Hafter.
  - rewrite row_after_end in Hafter by (unfold vsize; lia). discriminate.
  - destruct (lookup_lt_is_Some_2 (row_of adj n) (N.to_nat e)) as [x Hx]; [lia |].
    rewrite (row_after_entry adj n e x Hx) in Hafter.
    destruct (n <? x).
    + injection Hafter as <- <- <-. split; [reflexivity |].
      split; [unfold vsize; lia | reflexivity].
    + apply (IH (e + 1)); [lia | exact Hafter].
Qed.

Lemma rows_after_head adj (k : nat) : forall n n' e' L,
  (length adj - N.to_nat n = k)%nat ->
  rows_after adj n = (n', e') :: L ->
  n' < vsize adj /\ e' < vsize (row_of adj n')
  /\ L = row_after adj n' (e' + 1) ++ rows_after adj (n' + 1).
Proof.
  induction k as [| k IH]; intros n n' e' L Hk Hafter.
  - rewrite rows_after_end in Hafter by (unfold vsize; lia). discriminate.
  - assert (Hn : n < vsize adj) by (unfold vsize; lia).
    rewrite (rows_after_node adj n Hn) in Hafter.
    destruct (row_after adj n 0) as [| q L1] eqn:Hrow.
    + apply (IH (n + 1)); [lia | exact Hafter].
    + injection Hafter as -> <-.
      destruct (row_after_head adj n _ 0 n' e' L1 eq_refl Hrow) as (-> & He' & ->).
      split; [exact Hn |]. split; [exact He' | reflexivity].
Qed.

Lemma after_head adj n e n' e' L :
  after adj n e = (n', e') :: L ->
  n' < vsize adj /\ e' < vsize (row_of adj n') /\ after adj n' e' = L.
Proof.
  unfold after. intros Hafter.
  destruct (row_after adj n (e + 1)) as [| q L1] eqn:Hrow.
  - destruct (rows_after_head adj _ (n + 1) n' e' L eq_refl Hafter) as (Hn' & He' & ->).
    split; [exact Hn' |]. split; [exact He' | reflexivity].
  - injection Hafter as -> <-.
    destruct (row_after_head adj n _ (e + 1) n' e' L1 eq_refl Hrow) as (-> & He' & ->).
    split; [| split; [exact He' | reflexivity]].
    unfold row_of, vsize in He'.
    destruct (adj !! N.to_nat n) as [row |] eqn:Hlook; [| simpl in He'; lia].
    apply lookup_lt_Some in Hlook. unfold vsize. lia.
Qed.

Lemma concat_length_split adj (i : nat) row :
  adj !! i = Some row ->
  (length row + length (concat (drop (S i) adj)) <= length (concat adj))%nat.
Proof.
  intros Hrow. rewrite <- (take_drop_middle adj i row Hrow) at 2.
  rewrite concat_app, length_app. simpl. rewrite length_app. lia.
Qed.

Lemma EdgeIterator_incr_spec this g n e :
  fits32 g ->
  n < vsize (m_adjacency g) ->
  e + 1 < 2 ^ 32 ->
  EdgeIterator_incr g (position_iterator this (n, e))
  = Some (Ret (position_iterator this
                 (first_or_end (m_adjacency g) (after (m_adjacency g) n e)))).
Proof.
  intros (_ & Hfit) Hn He. unfold EdgeIterator_incr, position_iterator.
  cbn [it_node1_index m_edge_index it_graph_ptr fst snd].
  rewrite (wrap32_small (e + 1)) by exact He.
  rewrite (incr_loop_spec (m_adjacency g) _ n (e + 1) Hfit Hn).
  - fold (after (m_adjacency g) n e).
    destruct (first_or_end (m_adjacency g) (after (m_adjacency g) n e)). reflexivity.
  - unfold incr_fuel, tests_left.
    destruct (lookup_lt_is_Some_2 (m_adjacency g) (N.to_nat n)) as [row Hrow];
      [unfold vsize in Hn; lia |].
    rewrite (row_of_lookup _ _ _ Hrow).
    pose proof (concat_length_split _ _ _ Hrow) as Hsplit.
    rewrite !length_drop. unfold vsize in Hn. lia.
Qed.

Lemma edge_range_from_S (fuel : nat) this g it :
  edge_range_from (S fuel) this g it
  = if EdgeIterator_eq it (edge_end this g) then Some []
    else
      match EdgeIterator_incr g it with
      | Some (Ret it') =>
          match edge_range_from fuel this g it' with
          | Some rest => Some (it :: rest)
          | None => None
          end
      | _ => None
      end.
Proof. reflexivity. Qed.

Lemma EdgeIterator_eq_inside this g n e :
  fits32 g -> n < vsize (m_adjacency g) ->
  EdgeIterator_eq (position_iterator this (n, e)) (edge_end this g) = false.
Proof.
  intros (_ & Hadj & _) Hn. unfold EdgeIterator_eq, edge_end, position_iterator.
  cbn [it_node1_index m_edge_index it_graph_ptr fst snd].
  rewrite (wrap32_small _ Hadj).
  destruct (N.eqb_spec n (vsize (m_adjacency g))) as [Heq | _]; [lia |].
  rewrite andb_false_r. reflexivity.
Qed.

Lemma EdgeIterator_eq_end this g :
  fits32 g ->
  EdgeIterator_eq (position_iterator this (vsize (m_adjacency g), 0)) (edge_end this g)
  = true.
Proof.
  intros (_ & Hadj & _). unfold EdgeIterator_eq, edge_end, position_iterator, ptr_eqb.
  cbn [it_node1_index m_edge_index it_graph_ptr fst snd].
  rewrite (wrap32_small _ Hadj), bool_decide_eq_true_2, !N.eqb_refl by reflexivity.
  reflexivity.
Qed.

Lemma edge_range_from_spec this g (L : list (size_type * size_type)) :
  forall n e (fuel : nat),
    fits32 g ->
    n < vsize (m_adjacency g) ->
    e + 1 < 2 ^ 32 ->
    after (m_adjacency g) n e = L ->
    (length L + 2 <= fuel)%nat ->
    edge_range_from fuel this g (position_iterator this (n, e))
    = Some (position_iterator this (n, e) :: map (position_iterator this) L).
Proof.
  induction L as [| [n' e'] L IH]; intros n e fuel Hfit Hn He Hafter Hfuel.
  - destruct fuel as [| [| fuel]]; [simpl in Hfuel; lia .. |].
    rewrite edge_range_from_S, (EdgeIterator_eq_inside this g n e Hfit Hn).
    rewrite (EdgeIterator_incr_spec this g n e Hfit Hn He), Hafter.
    cbn [first_or_end].
    rewrite edge_range_from_S, (EdgeIterator_eq_end this g Hfit). reflexivity.
  - destruct fuel as [| fuel]; [simpl in Hfuel; lia |].
    rewrite edge_range_from_S, (EdgeIterator_eq_inside this g n e Hfit Hn).
    rewrite (EdgeIterator_incr_spec this g n e Hfit Hn He), Hafter.
    cbn [first_or_end].
    destruct (after_head _ _ _ _ _ _ Hafter) as (Hn' & He' & Hafter').
    rewrite (IH n' e' fuel Hfit Hn').
    + reflexivity.
    + assert (vsize (row_of (m_adjacency g) n') < 2 ^ 32); [| lia].
      unfold row_of. destruct (m_adjacency g !! N.to_nat n') as [row |] eqn:Hrow.
      * destruct Hfit as (_ & Hfit). apply (fits_row _ _ _ Hfit Hrow).
      * reflexivity.
    + exact Hafter'.
    + simpl in Hfuel. lia.
Qed.

Lemma row_positions_length n e (row : list size_type) :
  (length (row_positions n e row) <= length row)%nat.
Proof.
  revert e. induction row as [| x row IH]; intros e; simpl; [lia |].
  rewrite length_app. specialize (IH (e + 1)). destruct (n <? x); simpl; lia.
Qed.

Lemma positions_from_length n adj :
  (length (positions_from n adj) <= length (concat adj))%nat.
Proof.
  revert n. induction adj as [| row adj IH]; intros n; simpl; [lia |].
  rewrite !length_app. specialize (IH (n + 1)).
  pose proof (row_positions_length n 0 row). lia.
Qed.

(** The traversal from [edge_begin()] to [edge_end()] visits the positions
    the specification asks for, in its order, after position (0,0) when that
    is not one of them. *)
Theorem edge_range_spec this g :
  fits32 g ->
  edge_range this g
  = Some (map (position_iterator this)
            (spurious_start (m_adjacency g) ++ lesser_endpoint_positions g)).
Proof.
  intros Hfit. unfold edge_range, lesser_endpoint_positions.
  destruct (m_adjacency g) as [| row0 adj] eqn:Hadj.
  - pose proof (EdgeIterator_eq_end this g Hfit) as Hend. rewrite Hadj in Hend.
    change (position_iterator this (vsize [], 0)) with (edge_begin this g) in Hend.
    change (incr_fuel []) with 1%nat.
    rewrite edge_range_from_S, Hend. reflexivity.
  - change (edge_begin this g) with (position_iterator this (0, 0)).
    assert (Hafter : spurious_start (row0 :: adj) ++ positions_from 0 (row0 :: adj)
                     = (0, 0) :: after (row0 :: adj) 0 0).
    { unfold after, row_after, rows_after, row_of. simpl.
      destruct row0 as [| x row0]; simpl; [reflexivity |].
      destruct (0 <? x); reflexivity. }
    rewrite Hafter. simpl map. rewrite <- Hadj.
    apply edge_range_from_spec.
    + exact Hfit.
    + rewrite Hadj. unfold vsize. simpl. lia.
    + reflexivity.
    + reflexivity.
    + rewrite Hadj. unfold incr_fuel, after, row_after, rows_after, row_of. simpl.
      rewrite !length_app.
      pose proof (row_positions_length 0 (0 + 1) (drop 1 row0)) as H1.
      pose proof (positions_from_length (0 + 1) adj) as H2.
      rewrite length_drop in H1.
      change (N.to_nat (0 + 1)) with 1%nat. rewrite drop_0. lia.
Qed.

(** *** The recorded pairs and the count of edges *)

Lemma directed_pairs_from_elem adj : forall n i j,
  (i, j) ∈ directed_pairs_from n adj <-> n <= i /\ row_member adj (i - n) j.
Proof.
  induction adj as [| row adj IH]; intros n i j; simpl.
  - split.
    + intros H. apply elem_of_nil in H. contradiction.
    + intros [_ (r & Hr & _)]. rewrite lookup_nil in Hr. discriminate.
  - rewrite elem_of_app, list_elem_of_fmap, IH. unfold row_member. split.
    + intros [(x & [= -> ->] & Hx) | (Hle & r & Hr & Hj)].
      * split; [lia |]. exists row. rewrite N.sub_diag. split; [reflexivity | exact Hx].
      * split; [lia |]. exists r. split; [| exact Hj].
        replace (N.to_nat (i - n)) with (S (N.to_nat (i - (n + 1)))) by lia. exact Hr.
    + intros (Hle & r & Hr & Hj). destruct (N.eq_dec i n) as [-> | Hne].
      * left. rewrite N.sub_diag in Hr. injection Hr as <-. exists j. split; [reflexivity | exact Hj].
      * right. split; [lia |]. exists r. split; [| exact Hj].
        replace (N.to_nat (i - n)) with (S (N.to_nat (i - (n + 1)))) in Hr by lia. exact Hr.
Qed.

Lemma directed_pairs_elem g i j : (i, j) ∈ directed_pairs g <-> neighbor g i j.
Proof.
  unfold directed_pairs, neighbor. rewrite directed_pairs_from_elem, N.sub_0_r.
  split; [intros [_ H]; exact H | intros H; split; [lia | exact H]].
Qed.

Lemma directed_pairs_from_NoDup adj : forall n,
  Forall NoDup adj -> NoDup (directed_pairs_from n adj).
Proof.
  induction adj as [| row adj IH]; intros n Hall; simpl; [apply NoDup_nil_2 |].
  apply Forall_cons in Hall as [Hrow Hall]. apply NoDup_app. split; [| split].
  - apply NoDup_fmap_2; [| exact Hrow]. intros x y [= ->]. reflexivity.
  - intros [i j] Hin Hin'. apply list_elem_of_fmap in Hin as (x & [= -> ->] & _).
    apply directed_pairs_from_elem in Hin' as [Hle _]. lia.
  - apply IH. exact Hall.
Qed.

Lemma directed_pairs_from_length adj : forall n,
  length (directed_pairs_from n adj) = length (concat adj).
Proof.
  induction adj as [| row adj IH]; intros n; simpl; [reflexivity |].
  rewrite !length_app, length_fmap, IH. reflexivity.
Qed.

(** In a simple graph every edge is recorded twice, once from each
    endpoint. *)
Lemma directed_pairs_twice g :
  simple g ->
  length (directed_pairs g) = (2 * length (lesser_endpoint_pairs g))%nat.
Proof.
  intros (Hsym & Hnodup & Hloop).
  pose proof (directed_pairs_from_NoDup (m_adjacency g) 0 Hnodup) as HD.
  fold (directed_pairs g) in HD.
  rewrite <- (filter_app_complement lesser_first (directed_pairs g)) at 1.
  rewrite length_app. fold (lesser_endpoint_pairs g).
  assert (Hperm : filter (fun p => ~ lesser_first p) (directed_pairs g)
                  ≡ₚ prod_swap <$> lesser_endpoint_pairs g).
  { apply NoDup_Permutation.
    - apply NoDup_filter. exact HD.
    - apply NoDup_fmap_2; [apply _ |]. apply NoDup_filter. exact HD.
    - intros [i j]. rewrite list_elem_of_filter, list_elem_of_fmap.
      unfold lesser_endpoint_pairs, lesser_first. simpl. split.
      + intros [Hnlt Hin]. exists (j, i). split; [reflexivity |].
        apply list_elem_of_filter. simpl. apply directed_pairs_elem in Hin.
        split.
        * destruct (N.eq_dec i j) as [-> | Hne]; [destruct (Hloop j Hin) | lia].
        * apply directed_pairs_elem, Hsym. exact Hin.
      + intros ([i' j'] & [= -> ->] & Hin). apply list_elem_of_filter in Hin as [Hlt Hin].
        unfold lesser_first in Hlt. simpl in Hlt. split. lia.
        apply directed_pairs_elem, Hsym, directed_pairs_elem. exact Hin. }
  rewrite Hperm, length_fmap. lia.
Qed.

Lemma num_edges_sum adj : forall acc,
  acc + vsize (concat adj) < 2 ^ 32 ->
  fold_left (fun tmp row => wrap32 (tmp + vsize row)) adj acc = acc + vsize (concat adj).
Proof.
  induction adj as [| row adj IH]; intros acc Hfit; simpl in *.
  - unfold vsize. simpl. lia.
  - rewrite vsize_app in *. rewrite wrap32_small by lia. rewrite IH; lia.
Qed.

Lemma num_edges_simple g :
  simple g ->
  vsize (concat (m_adjacency g)) < 2 ^ 32 ->
  num_edges g = vsize (lesser_endpoint_pairs g).
Proof.
  intros Hsimple Hfit. unfold num_edges. rewrite num_edges_sum by lia.
  pose proof (directed_pairs_twice g Hsimple) as Htwice.
  unfold directed_pairs in Htwice. rewrite directed_pairs_from_length in Htwice.
  unfold vsize. rewrite Htwice, N.add_0_l.
  replace (N.of_nat (2 * length (lesser_endpoint_pairs g)))
    with (N.of_nat (length (lesser_endpoint_pairs g)) * 2) by lia.
  apply N.div_mul. lia.
Qed.

Lemma visit_all_app g (l1 l2 : list EdgeIterator) es1 es2 :
  visit_all g l1 = Ret es1 -> visit_all g l2 = Ret es2 ->
  visit_all g (l1 ++ l2) = Ret (es1 ++ es2).
Proof.
  revert es1. induction l1 as [| it l1 IH]; intros es1 H1 H2; simpl in *.
  - injection H1 as <-. exact H2.
  - destruct (EdgeIterator_deref g it) as [e | |]; simpl in *; try discriminate.
    destruct (visit_all g l1) as [es | |]; simpl in *; try discriminate.
    injection H1 as <-. rewrite (IH es eq_refl H2). reflexivity.
Qed.

Lemma visit_all_length g (its : list EdgeIterator) es :
  visit_all g its = Ret es -> length es = length its.
Proof.
  revert es. induction its as [| it its IH]; intros es H; simpl in *.
  - injection H as <-. reflexivity.
  - destruct (EdgeIterator_deref g it) as [e | |]; simpl in *; try discriminate.
    destruct (visit_all g its) as [es' | |]; simpl in *; try discriminate.
    injection H as <-. simpl. rewrite (IH es' eq_refl). reflexivity.
Qed.

Lemma EdgeIterator_deref_entry this g n e row x :
  m_adjacency g !! N.to_nat n = Some row ->
  row !! N.to_nat e = Some x ->
  EdgeIterator_deref g (position_iterator this (n, e)) = Ret (pair_edge this (n, x)).
Proof.
  intros Hrow Hx. unfold EdgeIterator_deref, position_iterator. simpl.
  apply vec_at_Ret in Hrow, Hx. rewrite Hrow. simpl. rewrite Hx. reflexivity.
Qed.

Lemma visit_row this g n row :
  m_adjacency g !! N.to_nat n = Some row ->
  forall rest done,
    row = done ++ rest ->
    visit_all g (position_iterator this <$> row_positions n (vsize done) rest)
    = Ret (pair_edge this <$> filter lesser_first (pair n <$> rest)).
Proof.
  intros Hrow. induction rest as [| x rest IH]; intros done Hsplit; [reflexivity |].
  assert (Hx : row !! N.to_nat (vsize done) = Some x).
  { subst row. unfold vsize. rewrite Nat2N.id. apply list_lookup_middle. reflexivity. }
  specialize (IH (done ++ [x])). rewrite vsize_app in IH.
  change (vsize [x]) with 1 in IH.
  rewrite <- app_assoc in IH. specialize (IH Hsplit).
  simpl. rewrite fmap_app. rewrite filter_cons.
  destruct (N.ltb_spec n x) as [Hlt | Hge].
  - rewrite decide_True by exact Hlt.
    apply (visit_all_app g [_] _ [_]); [| exact IH].
    simpl. rewrite (EdgeIterator_deref_entry this g n _ row x Hrow Hx). reflexivity.
  - rewrite decide_False by (unfold lesser_first; simpl; lia).
    exact IH.
Qed.

Lemma visit_rows this g : forall post pre,
  m_adjacency g = pre ++ post ->
  visit_all g (position_iterator this <$> positions_from (vsize pre) post)
  = Ret (pair_edge this <$> filter lesser_first (directed_pairs_from (vsize pre) post)).
Proof.
  induction post as [| row post IH]; intros pre Hsplit; [reflexivity |].
  simpl. rewrite fmap_app, filter_app, fmap_app.
  apply visit_all_app.
  - apply (visit_row this g (vsize pre) row) with (done := []); [| reflexivity].
    rewrite Hsplit. unfold vsize. rewrite Nat2N.id. apply list_lookup_middle. reflexivity.
  - specialize (IH (pre ++ [row])). rewrite vsize_app in IH.
    change (vsize [row]) with 1 in IH. apply IH. rewrite <- app_assoc. exact Hsplit.
Qed.

(** Dereferencing the positions the specification asks for gives the
    recorded pairs seen from their lesser endpoint, in the same order. *)
Lemma visit_lesser_endpoint_positions this g :
  visit_all g (position_iterator this <$> lesser_endpoint_positions g)
  = Ret (pair_edge this <$> lesser_endpoint_pairs g).
Proof. apply (visit_rows this g (m_adjacency g) []). reflexivity. Qed.

(** *** Graphs built within the precondition of [add_edge] are simple *)

Lemma push_back_at_NoDup adj adj' i x :
  push_back_at adj i x = Ret adj' ->
  Forall NoDup adj -> ~ row_member adj i x -> Forall NoDup adj'.
Proof.
  intros H Hall Hnot. apply push_back_at_Ret in H as (row & Hrow & ->).
  apply Forall_insert; [exact Hall |].
  apply NoDup_app. split; [| split].
  - rewrite Forall_forall in Hall. apply Hall. eapply list_elem_of_lookup_2. exact Hrow.
  - intros y Hy Hy'. apply list_elem_of_singleton in Hy'. subst y.
    apply Hnot. exists row. split; [exact Hrow | exact Hy].
  - apply NoDup_singleton.
Qed.

Lemma add_edge_pushes this g a b g' e :
  m_graph_ptr a = Some this -> m_graph_ptr b = Some this ->
  add_edge this g a b = Ret (g', e) ->
  (g' = g /\ neighbor g (index a) (index b))
  \/ (~ neighbor g (index a) (index b)
      /\ exists adj1,
          push_back_at (m_adjacency g) (index b) (index a) = Ret adj1
          /\ push_back_at adj1 (index a) (index b) = Ret (m_adjacency g')).
Proof.
  intros Ha Hb. unfold add_edge, ptr_eqb.
  rewrite Ha, Hb, !bool_decide_eq_true_2 by reflexivity. simpl. intros H.
  destruct (vec_at (m_adjacency g) (index a)) as [tmp | |] eqn:Htmp; simpl in H;
    try discriminate.
  apply vec_at_Ret in Htmp.
  destruct (row_has tmp (index b)) eqn:Hhas.
  - injection H as <- _. left. split; [reflexivity |].
    exists tmp. split; [exact Htmp | apply row_has_true; exact Hhas].
  - right. split.
    + intros (row & Hrow & Hin). rewrite Htmp in Hrow. injection Hrow as <-.
      apply row_has_true in Hin. congruence.
    + destruct (push_back_at (m_adjacency g) (index b) (index a)) as [adj1 | |];
        simpl in H; try discriminate.
      destruct (push_back_at adj1 (index a) (index b)) as [adj2 | |] eqn:H2;
        simpl in H; try discriminate.
      injection H as <- _. exists adj1. split; [reflexivity | exact H2].
Qed.

Lemma simple_empty : simple (@empty Point V).
Proof.
  split; [apply symmetric_empty |]. split; [apply Forall_nil_2 |].
  intros i (row & Hrow & _). simpl in Hrow. rewrite lookup_nil in Hrow. discriminate.
Qed.

Lemma simple_add_node this g position v :
  simple g -> simple (add_node this g position v).1.
Proof.
  intros (Hsym & Hnodup & Hloop). split; [apply symmetric_add_node; exact Hsym |].
  split.
  - simpl. apply Forall_app. split; [exact Hnodup |].
    apply Forall_singleton. apply NoDup_nil_2.
  - intros i Hi. apply (Hloop i). unfold neighbor in *. simpl in Hi.
    apply (proj1 (row_member_new_row _ _ _)) in Hi. exact Hi.
Qed.

Lemma simple_add_edge this g a b g' e :
  simple g ->
  m_graph_ptr a = Some this -> m_graph_ptr b = Some this ->
  index a <> index b ->
  add_edge this g a b = Ret (g', e) ->
  simple g'.
Proof.
  intros (Hsym & Hnodup & Hloop) Ha Hb Hne Hadd.
  split; [eapply symmetric_add_edge; [exact Hsym | exact Hadd] |].
  destruct (add_edge_pushes this g a b g' e Ha Hb Hadd)
    as [[-> _] | (Hnot & adj1 & H1 & H2)]; [split; assumption |].
  split.
  - apply (push_back_at_NoDup _ _ _ _ H2).
    + apply (push_back_at_NoDup _ _ _ _ H1); [exact Hnodup |].
      intros Hba. apply Hnot. apply Hsym. exact Hba.
    + rewrite (row_member_push _ _ _ _ H1). intros [Hab | [Heq _]]; [| congruence].
      apply Hnot. exact Hab.
  - intros i Hi. unfold neighbor in Hi.
    rewrite (row_member_push _ _ _ _ H2), (row_member_push _ _ _ _ H1) in Hi.
    destruct Hi as [[Hi | [-> Heq]] | [-> Heq]]; [apply (Hloop i Hi) | congruence ..].
Qed.

Lemma built_simple this g : built this g -> simple g.
Proof.
  induction 1 as [| g position v _ IH | g a b g' e _ IH [Ha _] [Hb _] Hne Hadd | g _ _].
  - apply simple_empty.
  - apply simple_add_node. exact IH.
  - apply (simple_add_edge this g a b g' e IH Ha Hb Hne Hadd).
  - apply simple_empty.
Qed.

Lemma built_reachable this g : built this g -> reachable this g.
Proof.
  induction 1 as [| g position v _ [k IH] | g a b g' e _ [k IH] _ _ _ Hadd | g _ [k IH]].
  - exists 0%nat. apply calls_ctor.
  - exists (S k). apply calls_add_node. exact IH.
  - exists k. apply (calls_add_edge this k g a b g' e IH Hadd).
  - exists 0%nat. apply (calls_clear this k g IH).
Qed.

(** [Edge::operator==] on two edges of one graph with valid endpoints
    compares the unordered pairs of endpoint indices. *)
Lemma Edge_eq_pair_edge (h : gmap addr (Graph Point V)) this g (p q : size_type * size_type) :
  h !! this = Some g ->
  p.1 < num_nodes g -> p.2 < num_nodes g ->
  q.1 < num_nodes g -> q.2 < num_nodes g ->
  Edge_eq h (pair_edge this p) (pair_edge this q)
  = Ret (((p.1 =? q.1) && (p.2 =? q.2)) || ((p.1 =? q.2) && (p.2 =? q.1))).
Proof.
  intros Hh Hp1 Hp2 Hq1 Hq2. unfold Edge_eq, node1, node2, pair_edge.
  cbn [edge_graph_ptr m_node1_index m_node2_index].
  rewrite !(Node_eq_valid h this g) by
    (first [ exact Hh | reflexivity | split; [reflexivity | assumption] ]).
  cbn [m_node_index]. rewrite !and_then_Ret, or_else_Ret. reflexivity.
Qed.

Lemma has_edge_true this g a b :
  m_graph_ptr a = Some this -> m_graph_ptr b = Some this ->
  has_edge this g a b = Ret true <-> neighbor g (index a) (index b).
Proof.
  intros Ha Hb. unfold has_edge, ptr_eqb.
  rewrite Ha, Hb, !bool_decide_eq_true_2 by reflexivity. simpl.
  unfold neighbor, row_member, vec_at.
  destruct (m_adjacency g !! N.to_nat (index a)) as [tmp |]; simpl.
  - split.
    + intros [= Hhas]. exists tmp. split; [reflexivity | apply row_has_true; exact Hhas].
    + intros (row & [= <-] & Hin). apply row_has_true in Hin. rewrite Hin. reflexivity.
  - split; [discriminate | intros (row & Hrow & _); discriminate].
Qed.

(** Every recorded neighbour pair of a built graph joins two of its
    nodes. *)
Lemma built_neighbor_in_range this g i j :
  built this g -> fits32 g -> neighbor g i j -> i < num_nodes g /\ j < num_nodes g.
Proof.
  intros Hbuilt (Hfit & _) Hij.
  destruct (built_reachable this g Hbuilt) as [k Hcalls].
  apply calls_lengths in Hcalls as [Hn Ha].
  pose proof (proj1 (built_simple this g Hbuilt)) as Hsym.
  assert (Hrange : forall i' j', neighbor g i' j' -> i' < num_nodes g).
  { intros i' j' (row & Hrow & _). apply lookup_lt_Some in Hrow.
    unfold num_nodes, size. rewrite wrap32_small by exact Hfit. unfold vsize. lia. }
  split; [apply (Hrange i j Hij) | apply (Hrange j i), Hsym, Hij].
Qed.

(** The traversal of a graph built within the precondition of [add_edge],
    when [edge_begin()] happens to be a position to emit (or the graph has
    no node): it has [num_edges()] positions; dereferencing them gives the
    recorded pairs seen from the lesser endpoint, each pair once, a pair
    for each two nodes with [has_edge] true, and Edges that are pairwise
    unequal under [Edge::operator==]. *)
Theorem edge_range_of_built_graph this g :
  built this g ->
  fits32 g ->
  vsize (concat (m_adjacency g)) < 2 ^ 32 ->
  spurious_start (m_adjacency g) = [] ->
  exists its,
    edge_range this g = Some its
    /\ vsize its = num_edges g
    /\ visit_all g its = Ret (pair_edge this <$> lesser_endpoint_pairs g)
    /\ NoDup (lesser_endpoint_pairs g)
    /\ (forall i j, (i, j) ∈ lesser_endpoint_pairs g <-> i < j /\ neighbor g i j)
    /\ (forall a b,
          valid_node this g a -> valid_node this g b ->
          has_edge this g a b = Ret true <->
          (index a, index b) ∈ lesser_endpoint_pairs g
          \/ (index b, index a) ∈ lesser_endpoint_pairs g)
    /\ (forall (h : gmap addr (Graph Point V)) p q,
          h !! this = Some g ->
          p ∈ lesser_endpoint_pairs g -> q ∈ lesser_endpoint_pairs g -> p <> q ->
          Edge_eq h (pair_edge this p) (pair_edge this q) = Ret false).
Proof.
  intros Hbuilt Hfit Htotal Hstart.
  pose proof (built_simple this g Hbuilt) as Hsimple.
  assert (Helem : forall i j,
             (i, j) ∈ lesser_endpoint_pairs g <-> i < j /\ neighbor g i j).
  { intros i j. unfold lesser_endpoint_pairs.
    rewrite list_elem_of_filter, directed_pairs_elem. reflexivity. }
  exists (position_iterator this <$> lesser_endpoint_positions g).
  split; [rewrite (edge_range_spec this g Hfit), Hstart; reflexivity |].
  pose proof (visit_lesser_endpoint_positions this g) as Hvisit.
  split; [| split; [exact Hvisit |]].
  - rewrite (num_edges_simple g Hsimple Htotal). unfold vsize. f_equal.
    apply visit_all_length in Hvisit. rewrite length_fmap in Hvisit. symmetry. exact Hvisit.
  - split; [| split; [exact Helem | split]].
    + apply NoDup_filter, directed_pairs_from_NoDup. apply Hsimple.
    + intros a b [Ha _] [Hb _]. rewrite (has_edge_true this g a b Ha Hb), !Helem.
      destruct Hsimple as (Hsym & _ & Hloop). split.
      * intros Hab. destruct (N.lt_trichotomy (index a) (index b)) as [Hlt | [Heq | Hgt]].
        -- left. split; [exact Hlt | exact Hab].
        -- rewrite Heq in Hab. destruct (Hloop _ Hab).
        -- right. split; [exact Hgt | apply Hsym; exact Hab].
      * intros [[_ Hab] | [_ Hba]]; [exact Hab | apply Hsym; exact Hba].
    + intros h [i j] [i' j'] Hh Hp Hq Hne.
      apply Helem in Hp as [Hlt Hij], Hq as [Hlt' Hij'].
      destruct (built_neighbor_in_range this g i j Hbuilt Hfit Hij) as [Hi Hj].
      destruct (built_neighbor_in_range this g i' j' Hbuilt Hfit Hij') as [Hi' Hj'].
      rewrite (Edge_eq_pair_edge h this g (i, j) (i', j') Hh Hi Hj Hi' Hj'). simpl.
      f_equal. apply orb_false_iff. split; apply andb_false_iff.
      * destruct (N.eqb_spec i i') as [-> | _]; [| left; reflexivity].
        right. apply N.eqb_neq. congruence.
      * destruct (N.eqb_spec i j') as [-> | _]; [| left; reflexivity].
        right. apply N.eqb_neq. lia.
Qed.

(** The defect of [edge_begin()] in general: in a built graph whose node 0
    has no neighbour, with vector sizes that fit [size_type] and fewer than
    2^32 adjacency entries (fewer than 2^31 edges), the traversal starts on
    position (0,0), which is no entry of the adjacency vector, and has
    [num_edges() + 1] positions. *)
Theorem edge_range_one_too_many this g rest :
  built this g ->
  fits32 g ->
  vsize (concat (m_adjacency g)) < 2 ^ 32 ->
  m_adjacency g = [] :: rest ->
  exists its,
    edge_range this g = Some (edge_begin this g :: its)
    /\ vsize (edge_begin this g :: its) = num_edges g + 1
    /\ EdgeIterator_deref g (edge_begin this g) = Undefined.
Proof.
  intros Hbuilt Hfit Htotal Hadj.
  pose proof (built_simple this g Hbuilt) as Hsimple.
  exists (position_iterator this <$> lesser_endpoint_positions g).
  split; [rewrite (edge_range_spec this g Hfit), Hadj; reflexivity |].
  split.
  - rewrite (num_edges_simple g Hsimple Htotal). unfold vsize. simpl length.
    pose proof (visit_lesser_endpoint_positions this g) as Hvisit.
    apply visit_all_length in Hvisit. rewrite !length_fmap in *. lia.
  - unfold EdgeIterator_deref, edge_begin, vec_at. simpl. rewrite Hadj. reflexivity.
Qed.

(** [Edge::operator==] between an edge of the graph at [this] and an edge
    of another graph whose endpoint indices are within the bounds of the
    first: false.  (With an index beyond them the [assert] of [has_node]
    fires.) *)
Lemma Edge_eq_other_graph (h : gmap addr (Graph Point V)) this that g
    (p q : size_type * size_type) :
  h !! this = Some g ->
  that <> this ->
  q.1 < num_nodes g -> q.2 < num_nodes g ->
  Edge_eq h (pair_edge this p) (pair_edge that q) = Ret false.
Proof.
  intros Hh Hne Hq1 Hq2.
  assert (Hnode : forall i j, j < num_nodes g ->
            Node_eq h {| m_graph_ptr := Some this; m_node_index := i |}
              {| m_graph_ptr := Some that; m_node_index := j |} = Ret false).
  { intros i j Hj. unfold Node_eq, deref, has_node, ptr_eqb. simpl. rewrite Hh. simpl.
    apply N.ltb_lt in Hj. unfold num_nodes in Hj. rewrite Hj.
    rewrite bool_decide_eq_false_2 by congruence. reflexivity. }
  unfold Edge_eq, node1, node2, pair_edge.
  cbn [edge_graph_ptr m_node1_index m_node2_index].
  rewrite (Hnode p.1 q.1 Hq1), (Hnode p.1 q.2 Hq2). reflexivity.
Qed.

(** 26021 holds to one policy: out of range, [node(i)] and [edge(i)] both
    stop on their [assert]. *)
Lemma node_edge_out_of_range_26021 this g (i : size_type) :
  (num_nodes g <= i -> node this g i = AssertFail)
  /\ (num_edges g <= i -> edge this g i = Some AssertFail).
Proof.
  split; intros Hi; apply N.ltb_ge in Hi.
  - unfold node. unfold num_nodes in Hi. rewrite Hi. reflexivity.
  - unfold edge. rewrite Hi. reflexivity.
Qed.

(** *** Further properties of the adjacency graph *)

Lemma push_back_at_concat_length adj adj' i (x : size_type) :
  push_back_at adj i x = Ret adj' ->
  length (concat adj') = S (length (concat adj)).
Proof.
  intros H. apply push_back_at_Ret in H as (row & Hrow & ->).
  rewrite insert_take_drop by (eapply lookup_lt_Some; exact Hrow).
  rewrite <- (take_drop_middle adj (N.to_nat i) row Hrow) at 3.
  rewrite !concat_app, !length_app. simpl. rewrite !length_app. simpl. lia.
Qed.

Lemma has_edge_Ret this g a b :
  m_graph_ptr a = Some this -> m_graph_ptr b = Some this ->
  index a < vsize (m_adjacency g) ->
  exists r, has_edge this g a b = Ret r /\ (r = true <-> neighbor g (index a) (index b)).
Proof.
  intros Ha Hb Hin. destruct (vec_at_in_range _ _ Hin) as [tmp Htmp].
  exists (row_has tmp (index b)). split.
  - unfold has_edge, ptr_eqb. rewrite Ha, Hb, !bool_decide_eq_true_2 by reflexivity.
    simpl. rewrite Htmp. reflexivity.
  - rewrite row_has_true. apply vec_at_Ret in Htmp. split.
    + intros Hin'. exists tmp. split; assumption.
    + intros (row & Hrow & Hin'). rewrite Htmp in Hrow. injection Hrow as <-. exact Hin'.
Qed.

Lemma has_edge_out_of_range this g a b :
  m_graph_ptr a = Some this -> m_graph_ptr b = Some this ->
  vsize (m_adjacency g) <= index a ->
  has_edge this g a b = Undefined.
Proof.
  intros Ha Hb Hout. unfold has_edge, ptr_eqb.
  rewrite Ha, Hb, !bool_decide_eq_true_2 by reflexivity. simpl.
  unfold vec_at. rewrite lookup_ge_None_2 by (unfold vsize in Hout; lia). reflexivity.
Qed.

(** In a reachable graph [has_edge(a,b)] and [has_edge(b,a)] return the
    same answer for valid nodes. *)
Theorem has_edge_symmetric this g a b :
  reachable this g ->
  valid_node this g a -> valid_node this g b ->
  exists r, has_edge this g a b = Ret r /\ has_edge this g b a = Ret r.
Proof.
  intros [k Hcalls] Ha Hb.
  pose proof (valid_node_in_range this k g a Hcalls Ha) as Hina.
  pose proof (valid_node_in_range this k g b Hcalls Hb) as Hinb.
  pose proof (calls_symmetric this k g Hcalls) as Hsym.
  destruct Ha as [Ha _], Hb as [Hb _].
  destruct (has_edge_Ret this g a b Ha Hb Hina) as (r & Hr & Hiff).
  destruct (has_edge_Ret this g b a Hb Ha Hinb) as (r' & Hr' & Hiff').
  exists r. split; [exact Hr |]. rewrite Hr'. f_equal. apply bool_eq_iff.
  rewrite Hiff, Hiff'. symmetry. apply Hsym.
Qed.

Lemma num_edges_half g :
  vsize (concat (m_adjacency g)) < 2 ^ 32 ->
  num_edges g = vsize (concat (m_adjacency g)) / 2.
Proof. intros Hfit. unfold num_edges. rewrite num_edges_sum by lia. reflexivity. Qed.

(** The documented postcondition of [add_edge] for valid nodes of a
    reachable graph: it returns, [has_edge(a,b)] and [has_edge(b,a)] hold
    afterwards, the nodes are untouched, and [num_edges()] grows by one
    exactly when [has_edge(a,b)] did not hold before; otherwise the graph is
    unchanged. *)
Theorem add_edge_postcondition this g a b :
  reachable this g ->
  valid_node this g a -> valid_node this g b ->
  vsize (concat (m_adjacency g)) + 2 < 2 ^ 32 ->
  exists g' e,
    add_edge this g a b = Ret (g', e)
    /\ has_edge this g' a b = Ret true
    /\ has_edge this g' b a = Ret true
    /\ m_graph_nodes g' = m_graph_nodes g
    /\ ((has_edge this g a b = Ret true /\ g' = g)
        \/ (has_edge this g a b = Ret false /\ num_edges g' = num_edges g + 1)).
Proof.
  intros Hreach Ha Hb Hfit. destruct Hreach as [k Hcalls].
  pose proof (valid_node_in_range this k g a Hcalls Ha) as Hina.
  pose proof (valid_node_in_range this k g b Hcalls Hb) as Hinb.
  destruct (add_edge_returns this g a b Hina Hinb) as (g' & e & Hadd).
  exists g', e. split; [exact Hadd |].
  destruct (add_edge_records_both this g a b g' e (ex_intro _ k Hcalls) Hadd) as [Hab Hba].
  pose proof (add_edge_Ret this g a b g' e Hadd) as (_ & Hnodes & Hlen & _).
  destruct Ha as [Ha _], Hb as [Hb _].
  split; [apply has_edge_true; assumption |].
  split; [apply has_edge_true; assumption |].
  split; [exact Hnodes |].
  destruct (has_edge_Ret this g a b Ha Hb Hina) as (r & Hr & Hiff).
  destruct (add_edge_pushes this g a b g' e Ha Hb Hadd)
    as [[-> Hnb] | (Hnot & adj1 & H1 & H2)].
  - left. split; [| reflexivity]. rewrite Hr. f_equal. apply Hiff. exact Hnb.
  - right. split.
    + rewrite Hr. f_equal. destruct r; [| reflexivity]. destruct Hnot. apply Hiff. reflexivity.
    + pose proof (push_back_at_concat_length _ _ _ _ H1) as Hl1.
      pose proof (push_back_at_concat_length _ _ _ _ H2) as Hl2.
      rewrite (num_edges_half g) by lia.
      rewrite (num_edges_half g') by (unfold vsize in *; lia).
      unfold vsize in *. rewrite Hl2, Hl1.
      replace (N.of_nat (S (S (length (concat (m_adjacency g))))))
        with (N.of_nat (length (concat (m_adjacency g))) + 1 * 2) by lia.
      rewrite N.div_add by lia. reflexivity.
Qed.

(** [add_edge(a,b)] changes nothing but the connection of [a] and [b]:
    positions and values stay, and [has_edge(c,d)] is as before for every
    other pair of this graph's nodes. *)
Theorem add_edge_frame this g a b g' e :
  add_edge this g a b = Ret (g', e) ->
  m_graph_nodes g' = m_graph_nodes g
  /\ (forall h n, position (<[this := g']> h) n = position (<[this := g]> h) n)
  /\ (forall h n, value (<[this := g']> h) n = value (<[this := g]> h) n)
  /\ (forall c d : Node,
        m_graph_ptr c = Some this -> m_graph_ptr d = Some this ->
        ~ (index c = index a /\ index d = index b) ->
        ~ (index c = index b /\ index d = index a) ->
        has_edge this g' c d = has_edge this g c d).
Proof.
  intros Hadd. pose proof (add_edge_Ret this g a b g' e Hadd) as (_ & Hnodes & Hlen & Hnb).
  split; [exact Hnodes |].
  split; [| split].
  - intros h n. unfold position, deref. destruct (m_graph_ptr n) as [p |]; [| reflexivity].
    destruct (decide (p = this)) as [-> | Hne].
    + rewrite !lookup_insert_eq. simpl. rewrite Hnodes. reflexivity.
    + rewrite !lookup_insert_ne by congruence. reflexivity.
  - intros h n. unfold value, deref. destruct (m_graph_ptr n) as [p |]; [| reflexivity].
    destruct (decide (p = this)) as [-> | Hne].
    + rewrite !lookup_insert_eq. simpl. rewrite Hnodes. reflexivity.
    + rewrite !lookup_insert_ne by congruence. reflexivity.
  - intros c d Hc Hd Hne1 Hne2.
    destruct (N.lt_ge_cases (index c) (vsize (m_adjacency g))) as [Hin | Hout].
    + destruct (has_edge_Ret this g c d Hc Hd Hin) as (r & Hr & Hiff).
      destruct (has_edge_Ret this g' c d Hc Hd) as (r' & Hr' & Hiff');
        [unfold vsize in *; rewrite Hlen; exact Hin |].
      rewrite Hr, Hr'. f_equal. apply bool_eq_iff. rewrite Hiff, Hiff'.
      destruct Hnb as [[-> _] | Hnb]; [reflexivity |]. rewrite Hnb. tauto.
    + rewrite !has_edge_out_of_range; try assumption; [reflexivity |].
      unfold vsize in *. rewrite Hlen. exact Hout.
Qed.

(** *** NodeIterator *)

Lemma node_range_from_spec this g (m : nat) : forall (k fuel : nat),
  vsize (m_graph_nodes g) < 2 ^ 32 ->
  (k + m = length (m_graph_nodes g))%nat ->
  (m < fuel)%nat ->
  node_range_from fuel this g {| ni_graph_ptr := Some this; ni_node_index := N.of_nat k |}
  = Some ((fun q : nat => {| ni_graph_ptr := Some this; ni_node_index := N.of_nat q |})
            <$> seq k m).
Proof.
  induction m as [| m IH]; intros k fuel Hfit Hk Hfuel;
    (destruct fuel as [| fuel]; [lia |]); simpl.
  - unfold NodeIterator_eq, node_end, size, ptr_eqb. simpl.
    rewrite wrap32_small by exact Hfit. unfold vsize.
    replace (length (m_graph_nodes g)) with k by lia.
    rewrite N.eqb_refl, bool_decide_eq_true_2 by reflexivity. reflexivity.
  - unfold NodeIterator_eq at 1. unfold node_end, size. simpl.
    rewrite wrap32_small by exact Hfit. unfold vsize.
    destruct (N.eqb_spec (N.of_nat k) (N.of_nat (length (m_graph_nodes g)))) as [Heq | _];
      [lia |]. simpl.
    unfold NodeIterator_incr. simpl.
    rewrite wrap32_small by (unfold vsize in Hfit; lia).
    replace (N.of_nat k + 1) with (N.of_nat (S k)) by lia.
    rewrite (IH (S k) fuel Hfit) by lia. reflexivity.
Qed.

(** The traversal from [node_begin()] to [node_end()] visits one position
    per node, in identifier order; dereferencing gives the valid nodes
    0, 1, ..., [num_nodes()-1]. *)
Theorem node_range_spec this g :
  vsize (m_graph_nodes g) < 2 ^ 32 ->
  exists its,
    node_range this g = Some its
    /\ vsize its = num_nodes g
    /\ NodeIterator_deref <$> its
       = (fun q : nat => {| m_graph_ptr := Some this; m_node_index := N.of_nat q |})
           <$> seq 0 (length (m_graph_nodes g))
    /\ Forall (fun it => valid_node this g (NodeIterator_deref it)) its.
Proof.
  intros Hfit. eexists. split.
  - unfold node_range, node_begin.
    apply (node_range_from_spec this g (length (m_graph_nodes g)) 0%nat);
      [exact Hfit | lia ..].
  - split; [| split].
    + unfold vsize. rewrite length_fmap, length_seq. unfold num_nodes, size.
      rewrite wrap32_small by exact Hfit. reflexivity.
    + rewrite <- list_fmap_compose. reflexivity.
    + apply Forall_fmap, Forall_forall. intros q Hi. apply elem_of_seq in Hi.
      split; [reflexivity |]. unfold num_nodes, size. simpl.
      rewrite wrap32_small by exact Hfit. unfold vsize. lia.
Qed.

(** *** IncidentIterator *)

Lemma incident_range_from_spec (p : ptr) (n : size_type) (len : nat) (m : nat) :
  forall (k fuel : nat),
    N.of_nat len < 2 ^ 32 ->
    (k + m = len)%nat ->
    (m < fuel)%nat ->
    incident_range_from fuel
      {| ii_graph_ptr := p; ii_node_index := n; m_incident_index := N.of_nat len |}
      {| ii_graph_ptr := p; ii_node_index := n; m_incident_index := N.of_nat k |}
    = Some ((fun q : nat => {| ii_graph_ptr := p; ii_node_index := n;
                         m_incident_index := N.of_nat q |}) <$> seq k m).
Proof.
  induction m as [| m IH]; intros k fuel Hfit Hk Hfuel;
    (destruct fuel as [| fuel]; [lia |]); simpl.
  - unfold IncidentIterator_eq, ptr_eqb. simpl.
    replace len with k by lia.
    rewrite !N.eqb_refl, bool_decide_eq_true_2 by reflexivity. reflexivity.
  - unfold IncidentIterator_eq at 1. simpl.
    destruct (N.eqb_spec (N.of_nat k) (N.of_nat len)) as [Heq | _]; [lia |].
    rewrite andb_false_r.
    unfold IncidentIterator_incr. simpl.
    rewrite wrap32_small by lia.
    replace (N.of_nat k + 1) with (N.of_nat (S k)) by lia.
    rewrite (IH (S k) fuel Hfit) by lia. reflexivity.
Qed.

Lemma incident_visit_all_spec g (p : ptr) (n : size_type) row :
  m_adjacency g !! N.to_nat n = Some row ->
  forall rest done,
    row = done ++ rest ->
    incident_visit_all g
      ((fun q : nat => {| ii_graph_ptr := p; ii_node_index := n;
                    m_incident_index := N.of_nat q |})
         <$> seq (length done) (length rest))
    = Ret ((fun x => {| edge_graph_ptr := p; m_node1_index := n; m_node2_index := x |})
             <$> rest).
Proof.
  intros Hrow. induction rest as [| x rest IH]; intros done Hsplit; [reflexivity |].
  assert (Hx : vec_at row (N.of_nat (length done)) = Ret x).
  { apply vec_at_Ret. rewrite Nat2N.id. subst row. apply list_lookup_middle. reflexivity. }
  specialize (IH (done ++ [x])). rewrite length_app in IH. simpl length in IH.
  replace (length done + 1)%nat with (S (length done)) in IH by lia.
  specialize (IH ltac:(rewrite <- app_assoc; exact Hsplit)).
  change (seq (length done) (length (x :: rest)))
    with (length done :: seq (S (length done)) (length rest)).
  rewrite !fmap_cons. cbn [incident_visit_all]. rewrite IH.
  unfold IncidentIterator_deref. cbn [ii_node_index m_incident_index ii_graph_ptr].
  apply vec_at_Ret in Hrow. rewrite Hrow. simpl. rewrite Hx. reflexivity.
Qed.

(** The traversal from [n.edge_begin()] to [n.edge_end()] visits one
    position per entry of node [n]'s adjacency row, [degree()] of them, in
    storage order; dereferencing gives the Edges from [n] (as [node1()])
    to each recorded neighbour, and [has_edge] holds for each. *)
Theorem incident_range_spec this g (n : Node) row :
  m_graph_ptr n = Some this ->
  m_adjacency g !! N.to_nat (index n) = Some row ->
  vsize row < 2 ^ 32 ->
  exists its,
    incident_range g n = Ret (Some its)
    /\ (forall h, h !! this = Some g -> degree h n = Ret (vsize its))
    /\ incident_visit_all g its
       = Ret ((fun x => {| edge_graph_ptr := Some this;
                           m_node1_index := index n; m_node2_index := x |}) <$> row)
    /\ (forall x, x ∈ row ->
          has_edge this g n {| m_graph_ptr := Some this; m_node_index := x |} = Ret true).
Proof.
  intros Hptr Hrow Hfit. eexists. split; [| split; [| split]].
  - unfold incident_range, Node_edge_end. apply vec_at_Ret in Hrow as Hrow'.
    unfold index in Hrow'. rewrite Hrow'. cbn -[incident_range_from wrap32].
    rewrite wrap32_small by exact Hfit. unfold vsize. rewrite Nat2N.id.
    unfold Node_edge_begin. f_equal.
    apply (incident_range_from_spec _ _ (length row) (length row) 0%nat); [exact Hfit | lia ..].
  - intros h Hh. unfold degree, deref. rewrite Hptr, Hh. simpl.
    apply vec_at_Ret in Hrow. unfold index in Hrow. rewrite Hrow. simpl.
    rewrite wrap32_small by exact Hfit. unfold vsize.
    rewrite length_fmap, length_seq. reflexivity.
  - rewrite Hptr. apply (incident_visit_all_spec g (Some this) (index n) row Hrow row []).
    reflexivity.
  - intros x Hx. apply has_edge_true; [exact Hptr | reflexivity |].
    exists row. split; [exact Hrow | exact Hx].
Qed.

(** *** Positions and values *)

Lemma node_record_at h this g (n : Node) r :
  h !! this = Some g ->
  m_graph_ptr n = Some this ->
  m_graph_nodes g !! N.to_nat (m_node_index n) = Some r ->
  position h n = Ret (m_node_point r) /\ value h n = Ret (m_node_value r).
Proof.
  intros Hh Hptr Hr. unfold position, value, deref, vec_at.
  rewrite Hptr, Hh. simpl. rewrite Hr. split; reflexivity.
Qed.

Lemma degree_at h this g (n : Node) row :
  h !! this = Some g ->
  m_graph_ptr n = Some this ->
  m_adjacency g !! N.to_nat (m_node_index n) = Some row ->
  degree h n = Ret (wrap32 (vsize row)).
Proof.
  intros Hh Hptr Hr. unfold degree, deref, vec_at.
  rewrite Hptr, Hh. simpl. rewrite Hr. reflexivity.
Qed.

(** [add_node(position, value)] stores both: the new handle reads them
    back, it is an isolated node, and every valid node keeps its position
    and value. *)
Theorem add_node_position_value h this g (p : Point) (v : V) :
  reachable this g ->
  vsize (m_graph_nodes g) + 1 < 2 ^ 32 ->
  let r := add_node this g p v in
  let h' := <[this := r.1]> h in
  position h' r.2 = Ret p
  /\ value h' r.2 = Ret v
  /\ degree h' r.2 = Ret 0
  /\ (forall n, valid_node this g n ->
        valid_node this r.1 n
        /\ position h' n = position (<[this := g]> h) n
        /\ value h' n = value (<[this := g]> h) n
        /\ has_edge this r.1 n r.2 = Ret false).
Proof.
  intros [k Hcalls] Hfit r h'. destruct (calls_lengths this k g Hcalls) as [Hlen Hadj].
  assert (Hidx : m_node_index r.2 = vsize (m_graph_nodes g)).
  { simpl. unfold size. simpl. rewrite vsize_app. change (vsize [_]) with 1.
    apply sub32_last. lia. }
  assert (Hh' : h' !! this = Some r.1) by apply lookup_insert_eq.
  assert (Hnew : m_graph_nodes r.1 !! N.to_nat (m_node_index r.2)
                 = Some {| m_node_point := p; m_node_value := v |}).
  { rewrite Hidx. unfold vsize. rewrite Nat2N.id. simpl.
    apply list_lookup_middle. reflexivity. }
  destruct (node_record_at h' this r.1 r.2 _ Hh' eq_refl Hnew) as [Hpos Hval].
  split; [exact Hpos |]. split; [exact Hval |]. split.
  - rewrite (degree_at h' this r.1 r.2 [] Hh' eq_refl); [reflexivity |].
    rewrite Hidx. unfold vsize. rewrite Nat2N.id. simpl.
    apply list_lookup_middle. lia.
  - intros n [Hptr Hn].
    assert (Hin : (N.to_nat (m_node_index n) < length (m_graph_nodes g))%nat).
    { unfold num_nodes, size in Hn. rewrite wrap32_small in Hn by lia.
      unfold vsize in Hn. lia. }
    destruct (lookup_lt_is_Some_2 (m_graph_nodes g) _ Hin) as [rec Hrec].
    assert (Hrec' : m_graph_nodes r.1 !! N.to_nat (m_node_index n) = Some rec).
    { simpl. rewrite lookup_app_l by exact Hin. exact Hrec. }
    destruct (node_record_at h' this r.1 n rec Hh' Hptr Hrec') as [Hp1 Hv1].
    destruct (node_record_at (<[this := g]> h) this g n rec
                (lookup_insert_eq _ _ _) Hptr Hrec) as [Hp2 Hv2].
    split; [| split; [| split]].
    + split; [exact Hptr |]. unfold num_nodes, size. simpl.
      rewrite vsize_app. change (vsize [_]) with 1.
      rewrite wrap32_small by lia. unfold vsize in *. lia.
    + rewrite Hp1, Hp2. reflexivity.
    + rewrite Hv1, Hv2. reflexivity.
    + destruct (lookup_lt_is_Some_2 (m_adjacency g) (N.to_nat (m_node_index n)))
        as [row Hrow]; [lia |].
      destruct (has_edge_Ret this r.1 n r.2 Hptr eq_refl) as (b0 & Hb0 & Hiff).
      { simpl. rewrite vsize_app. unfold vsize, index in *. lia. }
      rewrite Hb0. f_equal. destruct b0; [| reflexivity]. exfalso.
      assert (Hnb : neighbor r.1 (index n) (index r.2)) by (apply Hiff; reflexivity).
      apply (symmetric_add_node this g p v (calls_symmetric this k g Hcalls)) in Hnb.
      change (row_member (m_adjacency g ++ [[]]) (index r.2) (index n)) in Hnb.
      apply (proj1 (row_member_new_row _ _ _)) in Hnb. destruct Hnb as (row' & Hrow' & _).
      apply lookup_lt_Some in Hrow'.
      change (index r.2) with (m_node_index r.2) in Hrow'.
      rewrite Hidx in Hrow'. unfold vsize in Hrow'. lia.
Qed.

(** [n.value() = v] is read back by [n.value()], and changes nothing
    else: not the node's position, not another node's position or value,
    not the adjacency. *)
Theorem value_assign_roundtrip h this g (n : Node) (v : V) :
  h !! this = Some g ->
  valid_node this g n ->
  exists h' g',
    value_assign h n v = Ret h'
    /\ h' !! this = Some g'
    /\ value h' n = Ret v
    /\ position h' n = position h n
    /\ m_adjacency g' = m_adjacency g
    /\ num_nodes g' = num_nodes g
    /\ (forall m : Node,
          m_graph_ptr m <> m_graph_ptr n \/ m_node_index m <> m_node_index n ->
          value h' m = value h m /\ position h' m = position h m).
Proof.
  intros Hh [Hptr Hn].
  assert (Hin : (N.to_nat (m_node_index n) < length (m_graph_nodes g))%nat).
  { unfold num_nodes, size in Hn. pose proof (wrap32_le (vsize (m_graph_nodes g))).
    unfold vsize in *. lia. }
  destruct (lookup_lt_is_Some_2 (m_graph_nodes g) _ Hin) as [rec Hrec].
  unfold value_assign, deref, vec_at. rewrite Hptr, Hh. simpl. rewrite Hrec. simpl.
  eexists _, _. split; [reflexivity |]. split; [apply lookup_insert_eq |].
  set (g' := {| m_graph_nodes := _; m_adjacency := _ |}).
  assert (Hh' : <[this := g']> h !! this = Some g') by apply lookup_insert_eq.
  assert (Hrec' : m_graph_nodes g' !! N.to_nat (m_node_index n)
                  = Some {| m_node_point := m_node_point rec; m_node_value := v |}).
  { simpl. apply list_lookup_insert_eq. exact Hin. }
  destruct (node_record_at _ this g' n _ Hh' Hptr Hrec') as [Hp1 Hv1].
  destruct (node_record_at h this g n rec Hh Hptr Hrec) as [Hp2 Hv2].
  split; [exact Hv1 |]. split; [rewrite Hp1, Hp2; reflexivity |].
  split; [reflexivity |]. split.
  - unfold num_nodes, size, vsize. simpl. rewrite length_insert. reflexivity.
  - intros m Hm. unfold value, position, deref.
    destruct (m_graph_ptr m) as [q |] eqn:Hq; [| split; reflexivity].
    destruct (decide (q = this)) as [-> | Hne].
    + rewrite Hh', Hh. simpl. unfold vec_at.
      rewrite list_lookup_insert_ne; [split; reflexivity |].
      destruct Hm as [Hm | Hm]; [congruence | lia].
    + rewrite lookup_insert_ne by congruence. split; reflexivity.
Qed.

(** *** Equality and order of handles *)

(** [Edge::operator==] between an edge of the graph at [this] and an edge
    of the graph at [that], all endpoint indices within the bounds of the
    first graph: true iff the two graphs are one and the edges join the
    same unordered pair. *)
Theorem Edge_eq_unordered h this that g (p q : size_type * size_type) :
  h !! this = Some g ->
  p.1 < num_nodes g -> p.2 < num_nodes g ->
  q.1 < num_nodes g -> q.2 < num_nodes g ->
  Edge_eq h (pair_edge this p) (pair_edge that q)
  = Ret (bool_decide (that = this)
         && (((p.1 =? q.1) && (p.2 =? q.2)) || ((p.1 =? q.2) && (p.2 =? q.1)))).
Proof.
  intros Hh Hp1 Hp2 Hq1 Hq2. destruct (decide (that = this)) as [-> | Hne].
  - rewrite bool_decide_eq_true_2 by reflexivity.
    apply (Edge_eq_pair_edge h this g p q Hh Hp1 Hp2 Hq1 Hq2).
  - rewrite bool_decide_eq_false_2 by exact Hne.
    apply (Edge_eq_other_graph h this that g p q Hh Hne Hq1 Hq2).
Qed.

(** [Node::operator<] and [Node::operator==] on two valid nodes of one
    graph: exactly one of [x == y], [x < y], [y < x] holds, whatever the
    order of graph pointers. *)
Theorem Node_lt_trichotomy h this g (ptr_ltb : ptr -> ptr -> bool) (x y : Node) :
  h !! this = Some g ->
  valid_node this g x -> valid_node this g y ->
  exists e l r,
    Node_eq h x y = Ret e /\ Node_lt ptr_ltb x y = l /\ Node_lt ptr_ltb y x = r
    /\ (e = (m_node_index x =? m_node_index y))
    /\ ((e = true /\ l = false /\ r = false)
        \/ (e = false /\ l = true /\ r = false)
        \/ (e = false /\ l = false /\ r = true)).
Proof.
  intros Hh Hx Hy. eexists _, _, _.
  split; [apply (Node_eq_valid h this g x y Hh (proj1 Hx) Hy) |].
  split; [reflexivity |]. split; [reflexivity |]. split; [reflexivity |].
  destruct Hx as [Hx _], Hy as [Hy _]. unfold Node_lt, ptr_eqb, index.
  rewrite Hx, Hy, !bool_decide_eq_true_2 by reflexivity.
  destruct (N.lt_trichotomy (m_node_index x) (m_node_index y)) as [Hlt | [Heq | Hgt]].
  - right. left. split; [apply N.eqb_neq; lia |].
    split; [apply N.ltb_lt; lia | apply N.ltb_ge; lia].
  - left. split; [apply N.eqb_eq; lia |].
    split; apply N.ltb_ge; lia.
  - right. right. split; [apply N.eqb_neq; lia |].
    split; [apply N.ltb_ge; lia | apply N.ltb_lt; lia].
Qed.

(** [Edge::operator<] and [Edge::operator==] on two edges of one graph
    with endpoints within its bounds: exactly one of [x == y], [x < y],
    [y < x] holds; the order does not depend on which endpoint is first. *)
Theorem Edge_lt_trichotomy h this g (ptr_ltb : ptr -> ptr -> bool)
    (p q : size_type * size_type) :
  h !! this = Some g ->
  p.1 < num_nodes g -> p.2 < num_nodes g ->
  q.1 < num_nodes g -> q.2 < num_nodes g ->
  exists e l r,
    Edge_eq h (pair_edge this p) (pair_edge this q) = Ret e
    /\ Edge_lt ptr_ltb (pair_edge this p) (pair_edge this q) = l
    /\ Edge_lt ptr_ltb (pair_edge this q) (pair_edge this p) = r
    /\ Edge_lt ptr_ltb (pair_edge this (p.2, p.1)) (pair_edge this q) = l
    /\ ((e = true /\ l = false /\ r = false)
        \/ (e = false /\ l = true /\ r = false)
        \/ (e = false /\ l = false /\ r = true)).
Proof.
  intros Hh Hp1 Hp2 Hq1 Hq2. eexists _, _, _.
  split; [apply (Edge_eq_pair_edge h this g p q Hh Hp1 Hp2 Hq1 Hq2) |].
  split; [reflexivity |]. split; [reflexivity |].
  destruct p as [p1 p2], q as [q1 q2]. unfold Edge_lt, pair_edge, ptr_eqb.
  cbn [edge_graph_ptr m_node1_index m_node2_index fst snd].
  rewrite !bool_decide_eq_true_2 by reflexivity.
  split; [rewrite (N.max_comm p2 p1), (N.min_comm p2 p1); reflexivity |].
  destruct (N.eqb_spec (N.max p1 p2) (N.max q1 q2)) as [Hmax | Hmax];
    destruct (N.eqb_spec (N.max q1 q2) (N.max p1 p2)) as [Hmax' | Hmax'];
    try congruence; cbn [negb].
  - destruct (N.lt_trichotomy (N.min p1 p2) (N.min q1 q2)) as [Hlt | [Heq | Hgt]].
    + right. left. split; [| split; [apply N.ltb_lt; lia | apply N.ltb_ge; lia]].
      apply orb_false_iff. split; apply andb_false_iff;
        destruct (N.eqb_spec p1 q1), (N.eqb_spec p2 q2),
                 (N.eqb_spec p1 q2), (N.eqb_spec p2 q1); auto; lia.
    + left. split; [| split; apply N.ltb_ge; lia].
      apply orb_true_iff.
      destruct (N.eqb_spec p1 q1), (N.eqb_spec p2 q2),
               (N.eqb_spec p1 q2), (N.eqb_spec p2 q1); auto; lia.
    + right. right. split; [| split; [apply N.ltb_ge; lia | apply N.ltb_lt; lia]].
      apply orb_false_iff. split; apply andb_false_iff;
        destruct (N.eqb_spec p1 q1), (N.eqb_spec p2 q2),
                 (N.eqb_spec p1 q2), (N.eqb_spec p2 q1); auto; lia.
  - destruct (N.lt_trichotomy (N.max p1 p2) (N.max q1 q2)) as [Hlt | [Heq | Hgt]];
      [| congruence |].
    + right. left. split; [| split; [apply N.ltb_lt; lia | apply N.ltb_ge; lia]].
      apply orb_false_iff. split; apply andb_false_iff;
        destruct (N.eqb_spec p1 q1), (N.eqb_spec p2 q2),
                 (N.eqb_spec p1 q2), (N.eqb_spec p2 q1); auto; lia.
    + right. right. split; [| split; [apply N.ltb_ge; lia | apply N.ltb_lt; lia]].
      apply orb_false_iff. split; apply andb_false_iff;
        destruct (N.eqb_spec p1 q1), (N.eqb_spec p2 q2),
                 (N.eqb_spec p1 q2), (N.eqb_spec p2 q1); auto; lia.
Qed.

(** *** The edge traversal, [num_edges] and [edge] *)

(** From any state whose vectors fit [size_type] the traversal from
    [edge_begin()] to [edge_end()] ends; after position (0,0), when that is
    not one to emit, it visits exactly the positions of the recorded pairs
    (node, neighbour) with node < neighbour, by node and then by entry, and
    dereferencing them gives these pairs as Edges. *)
Theorem edge_traversal_enumeration this g :
  fits32 g ->
  edge_range this g
  = Some (position_iterator this
            <$> (spurious_start (m_adjacency g) ++ lesser_endpoint_positions g))
  /\ visit_all g (position_iterator this <$> lesser_endpoint_positions g)
     = Ret (pair_edge this <$> lesser_endpoint_pairs g)
  /\ (forall i j, (i, j) ∈ lesser_endpoint_pairs g <-> i < j /\ neighbor g i j).
Proof.
  intros Hfit. split; [apply edge_range_spec; exact Hfit |].
  split; [apply visit_lesser_endpoint_positions |].
  intros i j. unfold lesser_endpoint_pairs.
  rewrite list_elem_of_filter, directed_pairs_elem. reflexivity.
Qed.

(** In a graph built within the precondition of [add_edge], with fewer
    than 2^32 adjacency entries (fewer than 2^31 edges), [num_edges()] is
    the number of unordered neighbour pairs, each recorded once from either
    endpoint: half the number of adjacency entries. *)
Theorem num_edges_counts_pairs this g :
  built this g ->
  vsize (concat (m_adjacency g)) < 2 ^ 32 ->
  num_edges g = vsize (lesser_endpoint_pairs g)
  /\ vsize (concat (m_adjacency g)) = 2 * num_edges g
  /\ NoDup (lesser_endpoint_pairs g)
  /\ (forall i j, neighbor g i j <->
                  (i, j) ∈ lesser_endpoint_pairs g \/ (j, i) ∈ lesser_endpoint_pairs g).
Proof.
  intros Hbuilt Hfit. pose proof (built_simple this g Hbuilt) as Hsimple.
  pose proof (num_edges_simple g Hsimple Hfit) as Hnum.
  split; [exact Hnum |]. split; [| split].
  - rewrite Hnum. pose proof (directed_pairs_twice g Hsimple) as Htwice.
    unfold directed_pairs in Htwice. rewrite directed_pairs_from_length in Htwice.
    unfold vsize. lia.
  - apply NoDup_filter, directed_pairs_from_NoDup. apply Hsimple.
  - intros i j. unfold lesser_endpoint_pairs.
    rewrite !list_elem_of_filter, !directed_pairs_elem. unfold lesser_first. simpl.
    destruct Hsimple as (Hsym & _ & Hloop). split.
    + intros Hij. destruct (N.lt_trichotomy i j) as [Hlt | [-> | Hgt]].
      * left. split; assumption.
      * destruct (Hloop j Hij).
      * right. split; [exact Hgt | apply Hsym; exact Hij].
    + intros [[_ Hij] | [_ Hji]]; [exact Hij | apply Hsym; exact Hji].
Qed.

Lemma EdgeIterator_next_spec this g (k : nat) : forall n e L p,
  fits32 g ->
  n < vsize (m_adjacency g) ->
  e + 1 < 2 ^ 32 ->
  after (m_adjacency g) n e = L ->
  L !! k = Some p ->
  EdgeIterator_next (S k) g (position_iterator this (n, e))
  = Some (Ret (position_iterator this p)).
Proof.
  induction k as [| k IH]; intros n e L p Hfit Hn He Hafter Hp.
  - cbn [EdgeIterator_next]. rewrite (EdgeIterator_incr_spec this g n e Hfit Hn He), Hafter.
    destruct L as [| q L]; [discriminate |]. injection Hp as <-. reflexivity.
  - change (EdgeIterator_next (S (S k)) g (position_iterator this (n, e)))
      with (match EdgeIterator_incr g (position_iterator this (n, e)) with
            | Some (Ret it') => EdgeIterator_next (S k) g it'
            | r => r
            end).
    rewrite (EdgeIterator_incr_spec this g n e Hfit Hn He), Hafter.
    destruct L as [| [n' e'] L]; [discriminate |]. cbn [first_or_end].
    destruct (after_head _ _ _ _ _ _ Hafter) as (Hn' & He' & Hafter').
    apply (IH n' e' L p Hfit Hn'); [| exact Hafter' | exact Hp].
    assert (vsize (row_of (m_adjacency g) n') < 2 ^ 32); [| lia].
    unfold row_of. destruct (m_adjacency g !! N.to_nat n') as [row |] eqn:Hrow.
    + destruct Hfit as (_ & Hfit). apply (fits_row _ _ _ Hfit Hrow).
    + reflexivity.
Qed.

Lemma visit_all_lookup g (its : list EdgeIterator) es (k : nat) it :
  visit_all g its = Ret es ->
  its !! k = Some it ->
  exists e, es !! k = Some e /\ EdgeIterator_deref g it = Ret e.
Proof.
  revert es k. induction its as [| it0 its IH]; intros es k Hvisit Hk; [discriminate |].
  simpl in Hvisit.
  destruct (EdgeIterator_deref g it0) as [e0 | |] eqn:Hd; simpl in Hvisit; try discriminate.
  destruct (visit_all g its) as [es' | |]; simpl in Hvisit; try discriminate.
  injection Hvisit as <-. destruct k as [| k].
  - injection Hk as <-. exists e0. split; [reflexivity | exact Hd].
  - apply (IH es' k eq_refl Hk).
Qed.

(** In a built graph where [edge_begin()] is a position to emit, [edge(i)]
    for [i < num_edges()] returns the [i]-th recorded pair seen from its
    lesser endpoint, in the order of the traversal. *)
Theorem edge_index_spec this g (i : size_type) (p : size_type * size_type) :
  built this g ->
  fits32 g ->
  vsize (concat (m_adjacency g)) < 2 ^ 32 ->
  spurious_start (m_adjacency g) = [] ->
  lesser_endpoint_pairs g !! N.to_nat i = Some p ->
  i < num_edges g /\ edge this g i = Some (Ret (pair_edge this p)).
Proof.
  intros Hbuilt Hfit Htotal Hstart Hp.
  pose proof (num_edges_simple g (built_simple this g Hbuilt) Htotal) as Hnum.
  assert (Hi : i < num_edges g).
  { rewrite Hnum. apply lookup_lt_Some in Hp. unfold vsize. lia. }
  split; [exact Hi |].
  pose proof (visit_lesser_endpoint_positions this g) as Hvisit.
  assert (Hpos : exists pos, lesser_endpoint_positions g !! N.to_nat i = Some pos).
  { apply lookup_lt_is_Some_2. apply visit_all_length in Hvisit.
    rewrite !length_fmap in Hvisit. rewrite <- Hvisit. eapply lookup_lt_Some. exact Hp. }
  destruct Hpos as [pos Hpos].
  destruct (visit_all_lookup g _ _ (N.to_nat i) (position_iterator this pos) Hvisit)
    as (e & He & Hderef).
  { rewrite list_lookup_fmap, Hpos. reflexivity. }
  rewrite list_lookup_fmap, Hp in He. injection He as <-.
  unfold edge. apply N.ltb_lt in Hi. rewrite Hi.
  assert (Hnext : EdgeIterator_next (N.to_nat i) g (edge_begin this g)
                  = Some (Ret (position_iterator this pos))).
  { unfold lesser_endpoint_positions in Hpos.
    destruct (m_adjacency g) as [| row0 adj] eqn:Hadj; [discriminate |].
    assert (Hsplit : positions_from 0 (row0 :: adj) = (0, 0) :: after (row0 :: adj) 0 0).
    { unfold after, row_after, rows_after, row_of. simpl in *.
      destruct row0 as [| x row0]; [discriminate |]. simpl.
      destruct (0 <? x); [reflexivity | discriminate]. }
    rewrite Hsplit in Hpos.
    destruct (N.to_nat i) as [| k]; [injection Hpos as <-; reflexivity |].
    change (edge_begin this g) with (position_iterator this (0, 0)).
    apply (EdgeIterator_next_spec this g k 0 0 (after (m_adjacency g) 0 0));
      [exact Hfit | rewrite Hadj; unfold vsize; simpl; lia | reflexivity | reflexivity |].
    rewrite Hadj. exact Hpos. }
  rewrite Hnext, Hderef. reflexivity.
Qed.

End Graph26021_facts.

(** ** hw0/Graph-20558.hpp *)

Section Graph20558_facts.
Context {Point : Type}.
Import Graph20558.
Implicit Types (g : Graph Point) (a b x n : Node) (ie : internal_edge) (live : gset addr).

Lemma add_edge_nodes_20558 live this g a b g' e :
  add_edge live this g a b = Ret (g', e) -> m_graph_nodes g' = m_graph_nodes g.
Proof.
  unfold add_edge. intros H.
  destruct (if ptr_eqb (m_ptr_graph a) (Some this) && ptr_eqb (m_ptr_graph b) (Some this)
            then find_edge live (m_graph_edges g) 0 a b else Ret None)
    as [[i |] | |]; simpl in H; try discriminate; injection H as <- _; reflexivity.
Qed.

Lemma calls_length_20558 live this k g :
  calls live this k g -> length (m_graph_nodes g) = k.
Proof.
  induction 1 as [| k g position _ IH | k g a b g' e _ IH Hadd | k g _ _].
  - reflexivity.
  - simpl. rewrite length_app. simpl. lia.
  - rewrite (add_edge_nodes_20558 _ _ _ _ _ _ _ Hadd). exact IH.
  - reflexivity.
Qed.

Lemma Node_eq_live live x n p :
  m_ptr_graph x = Some p -> p ∈ live ->
  exists c, Node_eq live x n = Ret c /\ (c = true <-> x = n).
Proof.
  intros Hp Hlive. unfold Node_eq. rewrite Hp.
  rewrite bool_decide_eq_true_2 by exact Hlive. eexists. split; [reflexivity |].
  unfold has_node, ptr_eqb, index. rewrite andb_true_iff, bool_decide_eq_true, N.eqb_eq.
  destruct x as [ix px], n as [i_n pn]. simpl in *. subst px. split.
  - intros [-> ->]. reflexivity.
  - intros [= -> ->]. split; reflexivity.
Qed.

Lemma connects_live live ie a b :
  (exists p, m_ptr_graph (m_node1 ie) = Some p /\ p ∈ live) ->
  (exists q, m_ptr_graph (m_node2 ie) = Some q /\ q ∈ live) ->
  exists c, connects live ie a b = Ret c /\ (c = true <-> joins ie a b).
Proof.
  intros (p & Hp & Hpl) (q & Hq & Hql). unfold connects, joins, and_then, or_else.
  destruct (Node_eq_live live (m_node1 ie) a p Hp Hpl) as (c1 & -> & H1).
  destruct (Node_eq_live live (m_node2 ie) b q Hq Hql) as (c2 & -> & H2).
  destruct (Node_eq_live live (m_node1 ie) b p Hp Hpl) as (c3 & -> & H3).
  destruct (Node_eq_live live (m_node2 ie) a q Hq Hql) as (c4 & -> & H4).
  destruct c1, c2, c3, c4; simpl; eexists; (split; [reflexivity |]);
    intuition congruence.
Qed.

Lemma joins_sym_20558 ie a b : joins ie a b <-> joins ie b a.
Proof. unfold joins. tauto. Qed.

(** The loop returns the position of the first record that joins [a] and
    [b], or nothing when there is none. *)
Lemma find_edge_spec_20558 live (es : list internal_edge) (i : size_type) a b :
  Forall (fun ie =>
            (exists p, m_ptr_graph (m_node1 ie) = Some p /\ p ∈ live)
            /\ (exists q, m_ptr_graph (m_node2 ie) = Some q /\ q ∈ live)) es ->
  i + vsize es < 2 ^ 32 ->
  (exists (k : nat) ie,
      find_edge live es i a b = Ret (Some (i + N.of_nat k))
      /\ es !! k = Some ie /\ joins ie a b
      /\ forall (j : nat) ie', (j < k)%nat -> es !! j = Some ie' -> ~ joins ie' a b)
  \/ (find_edge live es i a b = Ret None /\ forall ie, ie ∈ es -> ~ joins ie a b).
Proof.
  intros Hlive. revert i.
  induction Hlive as [| ie es [H1 H2] _ IH]; intros i Hfit.
  - right. split; [reflexivity |]. intros ie Hin. apply elem_of_nil in Hin. contradiction.
  - unfold vsize in Hfit. simpl length in Hfit.
    cbn [find_edge]. destruct (connects_live live ie a b H1 H2) as (c & -> & Hc).
    destruct c; simpl.
    + left. exists 0%nat, ie. rewrite N.add_0_r.
      split; [reflexivity |]. split; [reflexivity |]. split; [apply Hc; reflexivity |].
      intros j ie' Hj. lia.
    + assert (Hno : ~ joins ie a b) by (intros Hj; apply Hc in Hj; discriminate).
      rewrite wrap32_small by lia.
      destruct (IH (i + 1)) as [(k & ie' & Hf & Hk & Hj & Hfirst) | [Hf Hnone]];
        [unfold vsize; lia | |].
      * left. exists (S k), ie'.
        split; [rewrite Hf; do 2 f_equal; lia |]. split; [exact Hk |]. split; [exact Hj |].
        intros [| j] ie'' Hlt Hl; simpl in Hl.
        -- injection Hl as <-. exact Hno.
        -- apply (Hfirst j ie''); [lia | exact Hl].
      * right. split; [exact Hf |]. intros ie' Hin.
        apply elem_of_cons in Hin as [-> | Hin]; [exact Hno | apply Hnone; exact Hin].
Qed.

Lemma find_edge_sym_20558 live (es : list internal_edge) (i : size_type) a b :
  Forall (fun ie =>
            (exists p, m_ptr_graph (m_node1 ie) = Some p /\ p ∈ live)
            /\ (exists q, m_ptr_graph (m_node2 ie) = Some q /\ q ∈ live)) es ->
  find_edge live es i a b = find_edge live es i b a.
Proof.
  intros Hlive. revert i. induction Hlive as [| ie es [H1 H2] _ IH]; intros i;
    [reflexivity |].
  cbn [find_edge].
  destruct (connects_live live ie a b H1 H2) as (c & -> & Hc).
  destruct (connects_live live ie b a H1 H2) as (c' & -> & Hc').
  assert (c = c') as <-.
  { apply bool_eq_iff. rewrite Hc, Hc'. apply joins_sym_20558. }
  simpl. destruct c; [reflexivity | apply IH].
Qed.

(** [add_edge(a,b)] on two handles of this graph, in a graph whose stored
    handles point to live graphs: the call returns; [has_edge(a,b)] and
    [has_edge(b,a)] hold afterwards; the nodes are untouched; if the pair
    was present the graph is unchanged, else one record (a,b) is appended
    and [num_edges()] grows by one; the returned Edge lies within
    [num_edges()] and its [node1()], [node2()] are [a] and [b] in one of
    the two orders. *)
Theorem add_edge_postcondition_20558 (h : gmap addr (Graph Point)) this g a b :
  h !! this = Some g ->
  stored_live (dom h) g ->
  m_ptr_graph a = Some this -> m_ptr_graph b = Some this ->
  vsize (m_graph_edges g) + 1 < 2 ^ 32 ->
  exists g' e (present : bool),
    has_edge (dom h) this g a b = Ret present
    /\ has_edge (dom h) this g b a = Ret present
    /\ add_edge (dom h) this g a b = Ret (g', e)
    /\ m_graph_nodes g' = m_graph_nodes g
    /\ (if present then g' = g
        else m_graph_edges g' = m_graph_edges g ++ [{| m_node1 := a; m_node2 := b |}])
    /\ num_edges g' = (if present then num_edges g else num_edges g + 1)
    /\ has_edge (dom h) this g' a b = Ret true
    /\ has_edge (dom h) this g' b a = Ret true
    /\ edge_ptr_graph e = Some this
    /\ edge_index e < num_edges g'
    /\ ((node1 (<[this := g']> h) e = Ret a /\ node2 (<[this := g']> h) e = Ret b)
        \/ (node1 (<[this := g']> h) e = Ret b /\ node2 (<[this := g']> h) e = Ret a)).
Proof.
  intros Hh Hlive Ha Hb Hfit.
  assert (Hthis : this ∈ dom h) by (apply elem_of_dom; eexists; exact Hh).
  assert (Hhas : forall g1 c d, m_ptr_graph c = Some this -> m_ptr_graph d = Some this ->
             has_edge (dom h) this g1 c d
             = (found ← find_edge (dom h) (m_graph_edges g1) 0 c d;
                Ret (match found with Some _ => true | None => false end))).
  { intros g1 c d Hc Hd. unfold has_edge, ptr_eqb. rewrite Hc, Hd.
    rewrite !bool_decide_eq_true_2 by reflexivity. reflexivity. }
  unfold add_edge, ptr_eqb. rewrite (Hhas g b a Hb Ha), (Hhas g a b Ha Hb), Ha, Hb.
  rewrite !bool_decide_eq_true_2 by reflexivity. cbn [andb].
  rewrite <- (find_edge_sym_20558 (dom h) (m_graph_edges g) 0 a b Hlive).
  destruct (find_edge_spec_20558 (dom h) (m_graph_edges g) 0 a b Hlive)
    as [(k & ie & Hf & Hk & Hj & _) | [Hf Hnone]]; [lia | |]; rewrite Hf; simpl.
  - pose proof (lookup_lt_Some _ _ _ Hk) as Hlt.
    exists g, {| edge_index := N.of_nat k; edge_ptr_graph := Some this |}, true.
    split; [reflexivity |]. split; [reflexivity |]. split; [reflexivity |].
    split; [reflexivity |]. split; [reflexivity |]. split; [reflexivity |].
    rewrite (Hhas g a b Ha Hb), (Hhas g b a Hb Ha).
    rewrite <- (find_edge_sym_20558 (dom h) (m_graph_edges g) 0 a b Hlive), Hf. simpl.
    split; [reflexivity |]. split; [reflexivity |]. split; [reflexivity |].
    split; [unfold num_edges; rewrite wrap32_small by lia; unfold vsize; lia |].
    unfold node1, node2, deref, vec_at. simpl. rewrite lookup_insert_eq. simpl.
    rewrite Nat2N.id, Hk. simpl. destruct Hj as [[-> ->] | [-> ->]]; auto.
  - set (rec := {| m_node1 := a; m_node2 := b |}).
    set (g' := {| m_graph_nodes := m_graph_nodes g;
                  m_graph_edges := m_graph_edges g ++ [rec] |}).
    assert (Hn : num_edges g' = vsize (m_graph_edges g) + 1).
    { unfold num_edges, g'. simpl. rewrite vsize_app. change (vsize [rec]) with 1.
      apply wrap32_small. lia. }
    assert (Hlive' : stored_live (dom h) g').
    { unfold stored_live, g'. simpl. apply Forall_app. split; [exact Hlive |].
      apply Forall_singleton. simpl. rewrite Ha, Hb. split; exists this; auto. }
    exists g', {| edge_index := sub32 (num_edges g') 1; edge_ptr_graph := Some this |}, false.
    split; [reflexivity |]. split; [reflexivity |]. split; [reflexivity |].
    split; [reflexivity |]. split; [reflexivity |].
    split; [rewrite Hn; unfold num_edges; rewrite wrap32_small by lia; reflexivity |].
    assert (Hidx : sub32 (num_edges g') 1 = vsize (m_graph_edges g)).
    { rewrite Hn. unfold sub32. rewrite (wrap32_small 1) by lia.
      replace (vsize (m_graph_edges g) + 1 + (2 ^ 32 - 1))
        with (vsize (m_graph_edges g) + 1 * 2 ^ 32) by lia.
      unfold wrap32. rewrite N.Div0.mod_add. apply N.mod_small. lia. }
    assert (Hfound : exists k, find_edge (dom h) (m_graph_edges g') 0 a b = Ret (Some k)).
    { destruct (find_edge_spec_20558 (dom h) (m_graph_edges g') 0 a b Hlive')
        as [(k & ie & Hf' & _) | [_ Hnone']].
      - unfold g'. simpl. rewrite vsize_app. change (vsize [rec]) with 1. lia.
      - eexists. exact Hf'.
      - exfalso. apply (Hnone' rec).
        + unfold g'. simpl. apply elem_of_app. right. apply list_elem_of_singleton.
          reflexivity.
        + left. split; reflexivity. }
    destruct Hfound as (k & Hfound).
    rewrite (Hhas g' a b Ha Hb), (Hhas g' b a Hb Ha).
    rewrite <- (find_edge_sym_20558 (dom h) (m_graph_edges g') 0 a b Hlive'), Hfound. simpl.
    split; [reflexivity |]. split; [reflexivity |]. split; [reflexivity |].
    rewrite Hidx. split; [rewrite Hn; lia |]. left.
    unfold node1, node2, deref, vec_at. simpl. rewrite lookup_insert_eq. simpl.
    unfold vsize. rewrite Nat2N.id, list_lookup_middle by reflexivity. split; reflexivity.
Qed.

(** [Node::operator<] looks at the index alone: with [Node::operator==] it
    obeys trichotomy among the handles of one live graph, and between two
    live graphs two handles of the same index are neither equal nor
    ordered. *)
Theorem Node_lt_index_only_20558 live (x y : Node) p q :
  m_ptr_graph x = Some p -> m_ptr_graph y = Some q -> p ∈ live -> q ∈ live ->
  exists e : bool,
    Node_eq live x y = Ret e
    /\ Node_eq live y x = Ret e
    /\ (p = q ->
        (e = true /\ Node_lt x y = false /\ Node_lt y x = false)
        \/ (e = false /\ Node_lt x y = true /\ Node_lt y x = false)
        \/ (e = false /\ Node_lt x y = false /\ Node_lt y x = true))
    /\ (p <> q -> m_index x = m_index y ->
        e = false /\ Node_lt x y = false /\ Node_lt y x = false).
Proof.
  intros Hx Hy Hp Hq.
  destruct (Node_eq_live live x y p Hx Hp) as (e & He & Hiff).
  destruct (Node_eq_live live y x q Hy Hq) as (e' & He' & Hiff').
  assert (e' = e) as -> by (apply bool_eq_iff; rewrite Hiff, Hiff'; split; congruence).
  exists e. split; [exact He |]. split; [exact He' |].
  unfold Node_lt, index. destruct x as [ix px], y as [iy py]. simpl in *. subst px py.
  split.
  - intros ->. destruct (N.lt_trichotomy ix iy) as [Hlt | [-> | Hgt]].
    + right. left. split; [| split; [apply N.ltb_lt; lia | apply N.ltb_ge; lia]].
      destruct e; [| reflexivity]. destruct Hiff as [Hiff _].
      specialize (Hiff eq_refl). injection Hiff as ->. lia.
    + left. split; [apply Hiff; reflexivity | split; apply N.ltb_irrefl].
    + right. right. split; [| split; [apply N.ltb_ge; lia | apply N.ltb_lt; lia]].
      destruct e; [| reflexivity]. destruct Hiff as [Hiff _].
      specialize (Hiff eq_refl). injection Hiff as ->. lia.
  - intros Hne ->. split; [| split; apply N.ltb_irrefl].
    destruct e; [| reflexivity]. destruct Hiff as [Hiff _].
    specialize (Hiff eq_refl). congruence.
Qed.

End Graph20558_facts.

(** ** 20862: the list of index pairs *)

Section Graph20862_facts.
Context {Point : Type}.
Import Graph20862.
Implicit Types (g : Graph Point) (a b c d : Node) (v : list (size_type * size_type)).

Lemma pair_eqb_eq (p q : size_type * size_type) : pair_eqb p q = true <-> p = q.
Proof.
  destruct p as [p1 p2], q as [q1 q2]. unfold pair_eqb. simpl.
  rewrite andb_true_iff, !N.eqb_eq. split; [intros [-> ->]; reflexivity | intros [= -> ->]; auto].
Qed.

Lemma find_pos_le v x : (find_pos v x <= length v)%nat.
Proof. induction v as [| y v IH]; simpl; [lia |]. destruct (pair_eqb y x); simpl; lia. Qed.

Lemma find_pos_found v x : find_pos v x <> length v <-> x ∈ v.
Proof.
  induction v as [| y v IH]; simpl.
  - split; [intros H; destruct H; reflexivity | intros H; apply elem_of_nil in H; contradiction].
  - destruct (pair_eqb y x) eqn:Heq.
    + apply pair_eqb_eq in Heq. subst y. split; [intros _; left | intros _; lia].
    + rewrite elem_of_cons. split.
      * intros H. right. apply IH. lia.
      * intros [-> | H]; [| apply IH in H; lia].
        rewrite (proj2 (pair_eqb_eq y y) eq_refl) in Heq. discriminate.
Qed.

Lemma find_pos_lookup v x : x ∈ v -> v !! find_pos v x = Some x.
Proof.
  induction v as [| y v IH]; intros Hin; simpl.
  - apply elem_of_nil in Hin. contradiction.
  - destruct (pair_eqb y x) eqn:Heq.
    + apply pair_eqb_eq in Heq. subst y. reflexivity.
    + simpl. apply IH. apply elem_of_cons in Hin as [-> | Hin]; [| exact Hin].
      rewrite (proj2 (pair_eqb_eq y y) eq_refl) in Heq. discriminate.
Qed.

Lemma found_test v x : negb (Nat.eqb (find_pos v x) (length v)) = true <-> x ∈ v.
Proof.
  rewrite <- find_pos_found, negb_true_iff, Nat.eqb_neq. reflexivity.
Qed.

Lemma has_edge_spec_20862 g a b :
  has_edge g a b = true
  <-> (index a, index b) ∈ Edges g \/ (index b, index a) ∈ Edges g.
Proof.
  unfold has_edge. rewrite <- !found_test.
  destruct (negb (Nat.eqb (find_pos (Edges g) (index a, index b)) (length (Edges g))));
    destruct (negb (Nat.eqb (find_pos (Edges g) (index b, index a)) (length (Edges g))));
    intuition congruence.
Qed.

Lemma add_edge_Edges_20862 this g a b :
  Points (add_edge this g a b).1 = Points g
  /\ ((has_edge g a b = true /\ (add_edge this g a b).1 = g)
      \/ (has_edge g a b = false
          /\ Edges (add_edge this g a b).1 = Edges g ++ [(index a, index b)])).
Proof.
  unfold add_edge, has_edge.
  destruct (negb (Nat.eqb (find_pos (Edges g) (index a, index b)) (length (Edges g))));
    [split; [reflexivity | left; split; reflexivity] |].
  destruct (negb (Nat.eqb (find_pos (Edges g) (index b, index a)) (length (Edges g))));
    [split; [reflexivity | left; split; reflexivity] |].
  split; [reflexivity | right; split; reflexivity].
Qed.

(** [has_edge] does not depend on the order of its arguments; after
    [add_edge(a,b)] it holds for [a] and [b] in both orders and is unchanged
    for every other pair; the points are untouched; [num_edges()] grows by
    one exactly when [has_edge(a,b)] did not hold before, otherwise the
    graph is unchanged.  In every state, for arbitrary handles. *)
Theorem add_edge_postcondition_20862 this g a b :
  vsize (Edges g) + 1 < 2 ^ 32 ->
  let g' := (add_edge this g a b).1 in
  has_edge g a b = has_edge g b a
  /\ has_edge g' a b = true
  /\ has_edge g' b a = true
  /\ Points g' = Points g
  /\ ((has_edge g a b = true /\ g' = g)
      \/ (has_edge g a b = false /\ num_edges g' = num_edges g + 1))
  /\ (forall c d,
        (index c, index d) <> (index a, index b) ->
        (index c, index d) <> (index b, index a) ->
        has_edge g' c d = has_edge g c d).
Proof.
  intros Hfit g'. destruct (add_edge_Edges_20862 this g a b) as [Hpts Hcase]. fold g' in Hpts, Hcase.
  split; [apply bool_eq_iff; rewrite !has_edge_spec_20862; tauto |].
  assert (Hin : (index a, index b) ∈ Edges g' \/ (index b, index a) ∈ Edges g').
  { destruct Hcase as [[Hhas ->] | [_ ->]]; [apply has_edge_spec_20862; exact Hhas |].
    left. apply elem_of_app. right. apply list_elem_of_singleton. reflexivity. }
  split; [apply has_edge_spec_20862; exact Hin |].
  split; [apply has_edge_spec_20862; tauto |].
  split; [exact Hpts |]. split.
  - destruct Hcase as [[Hhas Heq] | [Hhas Heq]]; [left; split; assumption |].
    right. split; [exact Hhas |]. unfold num_edges. rewrite Heq, vsize_app.
    change (vsize [_]) with 1. rewrite !wrap32_small by lia. reflexivity.
  - intros c d Hne1 Hne2. apply bool_eq_iff. rewrite !has_edge_spec_20862.
    destruct Hcase as [[_ ->] | [_ ->]]; [reflexivity |].
    rewrite !elem_of_app, !list_elem_of_singleton.
    split; [intros [[H | H] | [H | H]] | intros [H | H]]; try tauto; try congruence.
Qed.

Lemma unordered_eq (p q : size_type * size_type) :
  unordered p = unordered q <-> p = q \/ p = (q.2, q.1).
Proof.
  destruct p as [p1 p2], q as [q1 q2]. unfold unordered. simpl. split.
  - intros [= Hmin Hmax].
    destruct (N.le_ge_cases p1 p2), (N.le_ge_cases q1 q2);
      [left | right | right | left]; f_equal; lia.
  - intros [[= -> ->] | [= -> ->]]; [reflexivity |].
    rewrite N.min_comm, N.max_comm. reflexivity.
Qed.

(** No unordered pair is stored twice, in either orientation, whatever the
    calls were; a pair is stored iff [has_edge] holds. *)
Theorem edges_unique_20862 this g :
  calls this g ->
  NoDup (unordered <$> Edges g)
  /\ (forall a b,
        has_edge g a b = true <-> unordered (index a, index b) ∈ unordered <$> Edges g).
Proof.
  intros Hcalls. split.
  - induction Hcalls as [| g position _ IH | g a b _ IH | g _ _].
    + apply NoDup_nil_2.
    + exact IH.
    + destruct (add_edge_Edges_20862 this g a b) as [_ [[_ ->] | [Hhas ->]]]; [exact IH |].
      rewrite fmap_app. apply NoDup_app. split; [exact IH |]. split.
      * intros p Hp Hp'. apply list_elem_of_singleton in Hp'. subst p.
        apply list_elem_of_fmap in Hp as (q & Hq & Hin).
        apply unordered_eq in Hq. simpl in Hq.
        assert (Hyes : has_edge g a b = true); [| congruence].
        apply has_edge_spec_20862. destruct Hq as [<- | Hq]; [left; exact Hin |].
        right. destruct q as [q1 q2]. injection Hq as -> ->. exact Hin.
      * apply NoDup_singleton.
    + apply NoDup_nil_2.
  - intros a b. rewrite has_edge_spec_20862, list_elem_of_fmap. split.
    + intros [H | H]; [exists (index a, index b) | exists (index b, index a)];
        (split; [| exact H]); [reflexivity |].
      apply unordered_eq. right. reflexivity.
    + intros (q & Hq & Hin). apply unordered_eq in Hq. simpl in Hq.
      destruct Hq as [<- | Hq]; [left; exact Hin |].
      right. destruct q as [q1 q2]. injection Hq as -> ->. exact Hin.
Qed.

(** [Node::operator<] with [Node::operator==] obeys trichotomy on all
    handles, the invalid one included, when the order of graph pointers
    does. *)
Theorem Node_lt_trichotomy_20862 (ptr_ltb : ptr -> ptr -> bool) :
  (forall p q : ptr,
      (p = q /\ ptr_ltb p q = false /\ ptr_ltb q p = false)
      \/ (p <> q /\ ptr_ltb p q = true /\ ptr_ltb q p = false)
      \/ (p <> q /\ ptr_ltb p q = false /\ ptr_ltb q p = true)) ->
  forall x y : Node,
    (Node_eq x y = true /\ Node_lt ptr_ltb x y = false /\ Node_lt ptr_ltb y x = false)
    \/ (Node_eq x y = false /\ Node_lt ptr_ltb x y = true /\ Node_lt ptr_ltb y x = false)
    \/ (Node_eq x y = false /\ Node_lt ptr_ltb x y = false /\ Node_lt ptr_ltb y x = true).
Proof.
  intros Hptr [ix px] [iy py]. unfold Node_eq, Node_lt, index, ptr_eqb. simpl.
  destruct (N.lt_trichotomy ix iy) as [Hlt | [-> | Hgt]].
  - right. left.
    rewrite (proj2 (N.ltb_lt ix iy) Hlt), (proj2 (N.ltb_ge iy ix)) by lia.
    rewrite (proj2 (N.eqb_neq iy ix)) by lia.
    split; [apply andb_false_r | split; reflexivity].
  - rewrite N.ltb_irrefl, N.eqb_refl, andb_true_r.
    destruct (Hptr px py) as [(-> & H1 & H2) | [(Hne & H1 & H2) | (Hne & H1 & H2)]].
    + left. rewrite bool_decide_eq_true_2 by reflexivity. auto.
    + right. left. rewrite bool_decide_eq_false_2 by congruence. auto.
    + right. right. rewrite bool_decide_eq_false_2 by congruence. auto.
  - right. right.
    rewrite (proj2 (N.ltb_lt iy ix) Hgt), (proj2 (N.ltb_ge ix iy)) by lia.
    rewrite (proj2 (N.eqb_neq iy ix)), (proj2 (N.eqb_neq ix iy)) by lia.
    split; [apply andb_false_r | split; reflexivity].
Qed.

(** The documented result of [add_edge(a,b)] for valid nodes, when the
    pair is new or already stored as (a,b): the returned Edge has
    [node1() == a] and [node2() == b] (as handles). *)
Theorem add_edge_endpoints_20862 (h : gmap addr (Graph Point)) this g a b :
  valid_node this g a -> valid_node this g b ->
  vsize (Edges g) + 1 < 2 ^ 32 ->
  (index a, index b) ∈ Edges g \/ (index b, index a) ∉ Edges g ->
  let r := add_edge this g a b in
  h !! this = Some r.1 ->
  node1 h r.2 = Ret a /\ node2 h r.2 = Ret b.
Proof.
  intros [Hga Hia] [Hgb Hib] Hfit Hcase r Hh.
  assert (Hnode : forall n : Node, graph n = Some this -> id n < vsize (Points g) ->
                    node this r.1 (index n) = n).
  { intros [i p] Hp Hi. simpl in *. subst p. unfold node.
    pose proof (proj1 (add_edge_Edges_20862 this g a b)) as Hpts. fold r in Hpts.
    rewrite Hpts, (proj2 (N.leb_gt _ _) Hi). reflexivity. }
  assert (Hstored : exists k : nat,
             r.2 = {| edge_id := N.of_nat k; edge_graph := Some this |}
             /\ Edges r.1 !! k = Some (index a, index b)).
  { unfold r, add_edge.
    destruct (negb (Nat.eqb (find_pos (Edges g) (index a, index b)) (length (Edges g))))
      eqn:H1.
    - apply found_test in H1. exists (find_pos (Edges g) (index a, index b)). simpl.
      pose proof (find_pos_le (Edges g) (index a, index b)) as Hle.
      split; [| apply find_pos_lookup; exact H1].
      unfold edge. rewrite wrap32_small by (unfold vsize in Hfit; lia).
      rewrite (proj2 (N.ltb_ge _ _)) by (unfold vsize; lia). reflexivity.
    - destruct (negb (Nat.eqb (find_pos (Edges g) (index b, index a)) (length (Edges g))))
        eqn:H2.
      + apply found_test in H2. exfalso.
        destruct Hcase as [Hin | Hnot]; [| exact (Hnot H2)].
        apply found_test in Hin. congruence.
      + exists (length (Edges g)). simpl. split.
        * unfold edge. simpl. rewrite vsize_app. change (vsize [_]) with 1.
          replace (vsize (Edges g) + 1 - 1) with (vsize (Edges g)) by lia.
          rewrite wrap32_small by lia.
          rewrite (proj2 (N.ltb_ge _ _)) by lia. reflexivity.
        * apply list_lookup_middle. reflexivity. }
  destruct Hstored as (k & He & Hk). rewrite He.
  unfold node1, node2, deref, vec_at. simpl. rewrite Hh. simpl.
  rewrite Nat2N.id, Hk. simpl.
  rewrite (Hnode a Hga Hia), (Hnode b Hgb Hib). split; reflexivity.
Qed.
End Graph20862_facts.

(** ** 1703: the list of edge records *)

Section Graph1703_facts.
Context {Point : Type}.
Import Graph1703.
Implicit Types (g : Graph Point) (a b x n : Node) (ie : internal_edges).

Lemma Node_eq_initialised x n :
  x <> Node_default -> n <> Node_default ->
  exists c, Node_eq x n = Ret c /\ (c = true <-> x = n).
Proof.
  intros Hx Hn. destruct x as [| gx ux], n as [| gn un]; try congruence.
  simpl. eexists. split; [reflexivity |].
  unfold ptr_eqb. rewrite andb_true_iff, bool_decide_eq_true, N.eqb_eq. split.
  - intros [-> ->]. reflexivity.
  - intros [= -> ->]. split; reflexivity.
Qed.

Lemma connects_initialised ie a b :
  node_a ie <> Node_default -> node_b ie <> Node_default ->
  a <> Node_default -> b <> Node_default ->
  exists c, connects ie a b = Ret c /\ (c = true <-> joins ie a b).
Proof.
  intros H1 H2 Ha Hb. unfold connects, joins, and_then, or_else.
  destruct (Node_eq_initialised (node_a ie) a H1 Ha) as (c1 & -> & E1).
  destruct (Node_eq_initialised (node_b ie) b H2 Hb) as (c2 & -> & E2).
  destruct (Node_eq_initialised (node_b ie) a H2 Ha) as (c3 & -> & E3).
  destruct (Node_eq_initialised (node_a ie) b H1 Hb) as (c4 & -> & E4).
  destruct c1, c2, c3, c4; simpl; eexists; (split; [reflexivity |]);
    intuition congruence.
Qed.

Lemma joins_sym_1703 ie a b : joins ie a b <-> joins ie b a.
Proof. unfold joins. tauto. Qed.

Lemma find_edge_spec_1703 (es : list internal_edges) (i : size_type) a b :
  Forall (fun ie => node_a ie <> Node_default /\ node_b ie <> Node_default) es ->
  a <> Node_default -> b <> Node_default ->
  i + vsize es < 2 ^ 32 ->
  (exists (k : nat) ie,
      find_edge es i a b = Ret (Some (i + N.of_nat k))
      /\ es !! k = Some ie /\ joins ie a b
      /\ forall (j : nat) ie', (j < k)%nat -> es !! j = Some ie' -> ~ joins ie' a b)
  \/ (find_edge es i a b = Ret None /\ forall ie, ie ∈ es -> ~ joins ie a b).
Proof.
  intros Hinit Ha Hb. revert i.
  induction Hinit as [| ie es [H1 H2] _ IH]; intros i Hfit.
  - right. split; [reflexivity |]. intros ie Hin. apply elem_of_nil in Hin. contradiction.
  - unfold vsize in Hfit. simpl length in Hfit.
    cbn [find_edge]. destruct (connects_initialised ie a b H1 H2 Ha Hb) as (c & -> & Hc).
    destruct c; simpl.
    + left. exists 0%nat, ie. rewrite N.add_0_r.
      split; [reflexivity |]. split; [reflexivity |]. split; [apply Hc; reflexivity |].
      intros j ie' Hj. lia.
    + assert (Hno : ~ joins ie a b) by (intros Hj; apply Hc in Hj; discriminate).
      rewrite wrap32_small by lia.
      destruct (IH (i + 1)) as [(k & ie' & Hf & Hk & Hj & Hfirst) | [Hf Hnone]];
        [unfold vsize; lia | |].
      * left. exists (S k), ie'.
        split; [rewrite Hf; do 2 f_equal; lia |]. split; [exact Hk |]. split; [exact Hj |].
        intros [| j] ie'' Hlt Hl; simpl in Hl.
        -- injection Hl as <-. exact Hno.
        -- apply (Hfirst j ie''); [lia | exact Hl].
      * right. split; [exact Hf |]. intros ie' Hin.
        apply elem_of_cons in Hin as [-> | Hin]; [exact Hno | apply Hnone; exact Hin].
Qed.

Lemma find_edge_sym_1703 (es : list internal_edges) (i : size_type) a b :
  Forall (fun ie => node_a ie <> Node_default /\ node_b ie <> Node_default) es ->
  a <> Node_default -> b <> Node_default ->
  find_edge es i a b = find_edge es i b a.
Proof.
  intros Hinit Ha Hb. revert i. induction Hinit as [| ie es [H1 H2] _ IH]; intros i;
    [reflexivity |].
  cbn [find_edge].
  destruct (connects_initialised ie a b H1 H2 Ha Hb) as (c & -> & Hc).
  destruct (connects_initialised ie b a H1 H2 Hb Ha) as (c' & -> & Hc').
  assert (c = c') as <-.
  { apply bool_eq_iff. rewrite Hc, Hc'. apply joins_sym_1703. }
  simpl. destruct c; [reflexivity | apply IH].
Qed.

(** [add_edge(a,b)] on two distinct nodes [Node(this,ua)], [Node(this,ub)]
    within the bounds of the graph, whose stored handles are initialised:
    the call returns a valid Edge; [has_edge(a,b)] and [has_edge(b,a)] hold
    afterwards; the nodes are untouched.  If the pair was present, the
    graph is unchanged and the Edge carries the position of a record that
    joins [a] and [b].  Else one record (a,b) is appended,
    [num_edges()] grows by one, and the Edge and the record carry the id
    [size()], the number of nodes. *)
Theorem add_edge_postcondition_1703 (h : gmap addr (Graph Point)) this g
    (ua ub : size_type) :
  h !! this = Some g ->
  stored_initialised g ->
  ua <> ub -> ua < vsize (nodes_ g) -> ub < vsize (nodes_ g) ->
  vsize (edges_ g) + 1 < 2 ^ 32 ->
  let a := Node_mk (Some this) ua in
  let b := Node_mk (Some this) ub in
  exists g' (i ia ib : size_type) (present : bool),
    has_edge this g a b = Ret present
    /\ has_edge this g b a = Ret present
    /\ Node_index h a = Ret ia /\ Node_index h b = Ret ib
    /\ add_edge h this a b = Ret (<[this := g']> h, Edge_mk (Some this) i ia ib)
    /\ nodes_ g' = nodes_ g
    /\ (if present
        then g' = g
             /\ exists ie, edges_ g !! N.to_nat i = Some ie /\ joins ie a b
        else edges_ g' = edges_ g ++ [{| node_a := a; node_b := b; edgeid := size g |}]
             /\ i = size g)
    /\ num_edges g' = (if present then num_edges g else num_edges g + 1)
    /\ has_edge this g' a b = Ret true
    /\ has_edge this g' b a = Ret true.
Proof.
  intros Hh Hinit Hne Hua Hub Hfit a b.
  assert (Ha : a <> Node_default) by discriminate.
  assert (Hb : b <> Node_default) by discriminate.
  assert (Hhas : forall g1 c d : _, 
             has_edge this g1 (Node_mk (Some this) c) (Node_mk (Some this) d)
             = (r ← find_edge (edges_ g1) 0 (Node_mk (Some this) c) (Node_mk (Some this) d);
                Ret (match r with Some _ => true | None => false end))).
  { intros g1 c d. unfold has_edge, ptr_eqb.
    rewrite !bool_decide_eq_true_2 by reflexivity. reflexivity. }
  assert (Hidx : forall u, u < vsize (nodes_ g) ->
             exists iu, forall g1, nodes_ g1 = nodes_ g ->
               Node_index (<[this := g1]> h) (Node_mk (Some this) u) = Ret iu).
  { intros u Hu. unfold vsize in Hu.
    destruct (lookup_lt_is_Some_2 (nodes_ g) (N.to_nat u)) as [r Hr]; [lia |].
    exists (uid r). intros g1 Hg1. unfold Node_index, deref, vec_at.
    rewrite lookup_insert_eq. simpl. rewrite Hg1, Hr. reflexivity. }
  destruct (Hidx ua Hua) as (ia & Hia). destruct (Hidx ub Hub) as (ib & Hib).
  assert (Hself : <[this := g]> h = h) by (apply insert_id; exact Hh).
  pose proof (Hia g eq_refl) as Hia0. pose proof (Hib g eq_refl) as Hib0.
  rewrite Hself in Hia0, Hib0. fold a in Hia0. fold b in Hib0.
  assert (Hsame : Node_eq a b = Ret false).
  { unfold a, b. simpl. unfold ptr_eqb. rewrite bool_decide_eq_true_2 by reflexivity.
    simpl. f_equal. apply N.eqb_neq. congruence. }
  pose proof (Hhas g ua ub) as Hab. pose proof (Hhas g ub ua) as Hba.
  fold a b in Hab, Hba.
  rewrite <- (find_edge_sym_1703 (edges_ g) 0 a b Hinit Ha Hb) in Hba.
  destruct (find_edge_spec_1703 (edges_ g) 0 a b Hinit Ha Hb)
    as [(k & ie & Hf & Hk & Hj & _) | [Hf Hnone]]; [lia | |];
    rewrite Hf in Hab, Hba;
    [change (has_edge this g a b = Ret true) in Hab;
     change (has_edge this g b a = Ret true) in Hba
    | change (has_edge this g a b = Ret false) in Hab;
      change (has_edge this g b a = Ret false) in Hba].
  - assert (Hadd : add_edge h this a b = Ret (h, Edge_mk (Some this) (N.of_nat k) ia ib)).
    { unfold add_edge. rewrite Hsame. cbn -[Node_index has_edge find_edge].
      rewrite Hh. cbn -[Node_index has_edge find_edge].
      fold a b. rewrite Hab. cbn -[Node_index has_edge find_edge].
      rewrite Hf. cbn -[Node_index has_edge find_edge].
      rewrite Hia0. cbn -[Node_index has_edge find_edge]. rewrite Hib0. reflexivity. }
    exists g, (N.of_nat k), ia, ib, true. rewrite Hself.
    split; [exact Hab |]. split; [exact Hba |].
    split; [exact Hia0 |]. split; [exact Hib0 |].
    split; [exact Hadd |]. split; [reflexivity |].
    split; [split; [reflexivity | exists ie; rewrite Nat2N.id; auto] |].
    split; [reflexivity |]. split; [exact Hab | exact Hba].
  - set (rec := {| node_a := a; node_b := b; edgeid := size g |}).
    set (g' := {| nodes_ := nodes_ g; edges_ := edges_ g ++ [rec] |}).
    assert (Hinit' : stored_initialised g').
    { unfold stored_initialised, g'. simpl. apply Forall_app. split; [exact Hinit |].
      apply Forall_singleton. split; discriminate. }
    assert (Hadd : add_edge h this a b
                   = Ret (<[this := g']> h, Edge_mk (Some this) (size g) ia ib)).
    { unfold add_edge. rewrite Hsame. cbn -[Node_index has_edge find_edge].
      rewrite Hh. cbn -[Node_index has_edge find_edge].
      fold a b. rewrite Hab. cbn -[Node_index has_edge find_edge]. fold rec g'.
      pose proof (Hia g' eq_refl) as Hia'. pose proof (Hib g' eq_refl) as Hib'.
      fold a in Hia'. fold b in Hib'. rewrite Hia'. cbn -[Node_index has_edge find_edge].
      rewrite Hib'. reflexivity. }
    assert (Hfound : exists k, find_edge (edges_ g') 0 a b = Ret (Some k)).
    { destruct (find_edge_spec_1703 (edges_ g') 0 a b Hinit' Ha Hb)
        as [(k & ie & Hf' & _) | [_ Hnone']].
      - unfold g'. simpl. rewrite vsize_app. change (vsize [rec]) with 1. lia.
      - eexists. exact Hf'.
      - exfalso. apply (Hnone' rec).
        + unfold g'. simpl. apply elem_of_app. right. apply list_elem_of_singleton.
          reflexivity.
        + left. split; reflexivity. }
    destruct Hfound as (k & Hfound).
    pose proof (Hhas g' ua ub) as Hab'. pose proof (Hhas g' ub ua) as Hba'.
    fold a b in Hab', Hba'.
    rewrite <- (find_edge_sym_1703 (edges_ g') 0 a b Hinit' Ha Hb) in Hba'.
    rewrite Hfound in Hab', Hba'.
    change (has_edge this g' a b = Ret true) in Hab'.
    change (has_edge this g' b a = Ret true) in Hba'.
    exists g', (size g), ia, ib, false.
    split; [exact Hab |]. split; [exact Hba |].
    split; [exact Hia0 |]. split; [exact Hib0 |].
    split; [exact Hadd |]. split; [reflexivity |].
    split; [split; reflexivity |].
    split; [| split; [exact Hab' | exact Hba']].
    unfold num_edges, g'. simpl. rewrite vsize_app. change (vsize [rec]) with 1.
    rewrite !wrap32_small by lia. reflexivity.
Qed.

Lemma add_edge_nodes_1703 (h h' : gmap addr (Graph Point)) this g g' a b e :
  h !! this = Some g ->
  add_edge h this a b = Ret (h', e) ->
  h' !! this = Some g' ->
  nodes_ g' = nodes_ g.
Proof.
  intros Hh Hadd Hh'. unfold add_edge in Hadd.
  destruct (Node_eq a b) as [[|] | |]; cbn -[Node_index has_edge find_edge] in Hadd;
    try discriminate.
  - injection Hadd as <- _. congruence.
  - unfold deref in Hadd. rewrite Hh in Hadd. cbn -[Node_index has_edge find_edge] in Hadd.
    destruct (has_edge this g a b) as [[|] | |];
      cbn -[Node_index has_edge find_edge] in Hadd; try discriminate.
    + destruct (find_edge (edges_ g) 0 a b) as [[i |] | |];
        cbn -[Node_index has_edge find_edge] in Hadd; try discriminate.
      * destruct (Node_index h a); cbn -[Node_index] in Hadd; try discriminate.
        destruct (Node_index h b); cbn in Hadd; try discriminate.
        injection Hadd as <- _. congruence.
      * injection Hadd as <- _. congruence.
    + match type of Hadd with
      | context [Node_index ?hh a] =>
          destruct (Node_index hh a); cbn -[Node_index] in Hadd; try discriminate;
          destruct (Node_index hh b); cbn in Hadd; try discriminate
      end.
      injection Hadd as <- _. rewrite lookup_insert_eq in Hh'.
      injection Hh' as <-. reflexivity.
Qed.

Lemma calls_uid this g :
  calls this g ->
  forall (k : nat) r, nodes_ g !! k = Some r -> uid r = wrap32 (N.of_nat k).
Proof.
  induction 1 as [| g pos _ IH | g h a b h' e g' _ IH Hh Hadd Hh' | g _ _]; intros k r Hk.
  - discriminate.
  - simpl in Hk. apply lookup_app_Some in Hk as [Hk | [Hge Hk]]; [apply IH; exact Hk |].
    apply list_lookup_singleton_Some in Hk as [Hz <-]. simpl. unfold size, vsize.
    do 2 f_equal. lia.
  - rewrite (add_edge_nodes_1703 h h' this g g' a b e Hh Hadd Hh') in Hk.
    apply IH. exact Hk.
  - discriminate.
Qed.

(** Whatever the calls were, while the graph holds fewer than 2^32 nodes:
    for [i < num_nodes()] the handle [node(i)] belongs to the graph and
    [node(i).index() == i]. *)
Theorem node_index_roundtrip_1703 (h : gmap addr (Graph Point)) this g (i : size_type) :
  calls this g ->
  h !! this = Some g ->
  vsize (nodes_ g) < 2 ^ 32 ->
  i < num_nodes g ->
  Node_index h (node this g i) = Ret i
  /\ has_node this g (node this g i) = Ret true.
Proof.
  intros Hcalls Hh Hfit Hi. unfold num_nodes, size in Hi.
  rewrite wrap32_small in Hi by exact Hfit.
  unfold node, size. rewrite wrap32_small by exact Hfit.
  rewrite (proj2 (N.leb_gt _ _) Hi). split.
  - unfold vsize in Hi, Hfit.
    destruct (lookup_lt_is_Some_2 (nodes_ g) (N.to_nat i)) as [r Hr]; [lia |].
    unfold Node_index, deref, vec_at. rewrite Hh. simpl. rewrite Hr. simpl.
    rewrite (calls_uid this g Hcalls _ _ Hr), N2Nat.id, wrap32_small by lia.
    reflexivity.
  - simpl. unfold ptr_eqb. rewrite bool_decide_eq_true_2 by reflexivity. reflexivity.
Qed.

End Graph1703_facts.

(** ** The other two edge-list graphs: [add_node] and [clear] *)

(** In 1703 and 20862 too [add_node] returns the handle whose [index()] is
    the old [num_nodes()] and raises [num_nodes()] by one. *)
Lemma add_node_post_hw0 {Point : Type} (this : addr) (position : Point) :
  (forall (h : gmap addr (Graph1703.Graph Point)) (g : Graph1703.Graph Point),
      vsize (Graph1703.nodes_ g) + 1 < 2 ^ 32 ->
      let r := Graph1703.add_node this g position in
      r.2 = Graph1703.Node_mk (Some this) (Graph1703.num_nodes g)
      /\ Graph1703.Node_index (<[this := r.1]> h) r.2 = Ret (Graph1703.num_nodes g)
      /\ Graph1703.num_nodes r.1 = Graph1703.num_nodes g + 1)
  /\ (forall g : Graph20862.Graph Point,
        vsize (Graph20862.Points g) + 1 < 2 ^ 32 ->
        let r := Graph20862.add_node this g position in
        r.2 = {| Graph20862.id := Graph20862.num_nodes g; Graph20862.graph := Some this |}
        /\ Graph20862.num_nodes r.1 = Graph20862.num_nodes g + 1).
Proof.
  split.
  - intros h g Hfit. simpl. unfold Graph1703.num_nodes, Graph1703.size. simpl.
    rewrite vsize_app. change (vsize [_]) with 1.
    rewrite !wrap32_small by lia. split; [reflexivity |]. split; [| reflexivity].
    unfold deref. rewrite lookup_insert_eq. simpl.
    unfold vec_at, vsize. rewrite Nat2N.id.
    rewrite list_lookup_middle by reflexivity. reflexivity.
  - intros g Hfit. simpl. unfold Graph20862.num_nodes, Graph20862.size, Graph20862.node.
    simpl. rewrite vsize_app. change (vsize [_]) with 1.
    rewrite !wrap32_small by lia.
    replace (vsize (Graph20862.Points g) + 1 - 1) with (vsize (Graph20862.Points g)) by lia.
    destruct (N.leb_spec (vsize (Graph20862.Points g) + 1) (vsize (Graph20862.Points g)))
      as [Hle | _]; [lia |].
    split; reflexivity.
Qed.

(** In 20862 and 20558 too [clear()] empties the graph and the next
    [add_node] returns identifier 0. *)
Lemma clear_resets_hw0 {Point : Type} (this : addr) (position : Point) :
  (forall g : Graph20862.Graph Point,
      let g0 := Graph20862.clear g in
      Graph20862.num_nodes g0 = 0 /\ Graph20862.num_edges g0 = 0
      /\ Graph20862.index (Graph20862.add_node this g0 position).2 = 0)
  /\ (forall g : Graph20558.Graph Point,
        let g0 := Graph20558.clear g in
        Graph20558.num_nodes g0 = 0 /\ Graph20558.num_edges g0 = 0
        /\ Graph20558.index (Graph20558.add_node this g0 position).2 = 0).
Proof. split; intros g; repeat split. Qed.

(** ** The claims *)

Section Claims.
Context {Point V : Type}.

(** C8. In the adjacency design the neighbour relation is symmetric in
    every reachable state of the graph: [j] is in node [i]'s adjacency
    entry iff [i] is in node [j]'s.  [add_node], a returning [add_edge]
    and [clear] lead to a symmetric state again, and after [add_edge(a,b)]
    has returned both directions are recorded.  On valid nodes [add_edge]
    does return: if the pair was recorded the graph is unchanged, else the
    one call pushes [a] on [b]'s entry and [b] on [a]'s, and both
    directions are recorded in the symmetric state it leaves. *)
Theorem neighbor_relation_symmetric this (g : Graph26021.Graph Point V) :
  Graph26021.reachable this g ->
  Graph26021.symmetric g
  /\ (forall position v,
        Graph26021.symmetric (Graph26021.add_node this g position v).1)
  /\ (forall a b g' e,
        Graph26021.add_edge this g a b = Ret (g', e) ->
        Graph26021.symmetric g'
        /\ Graph26021.neighbor g' (Graph26021.index a) (Graph26021.index b)
        /\ Graph26021.neighbor g' (Graph26021.index b) (Graph26021.index a))
  /\ Graph26021.symmetric (Graph26021.clear g)
  /\ (forall a b,
        Graph26021.valid_node this g a -> Graph26021.valid_node this g b ->
        exists g' e,
          Graph26021.add_edge this g a b = Ret (g', e)
          /\ Graph26021.symmetric g'
          /\ Graph26021.neighbor g' (Graph26021.index a) (Graph26021.index b)
          /\ Graph26021.neighbor g' (Graph26021.index b) (Graph26021.index a)
          /\ (Graph26021.neighbor g (Graph26021.index a) (Graph26021.index b) ->
              g' = g)
          /\ (~ Graph26021.neighbor g (Graph26021.index a) (Graph26021.index b) ->
              exists adj1,
                push_back_at (Graph26021.m_adjacency g)
                  (Graph26021.index b) (Graph26021.index a) = Ret adj1
                /\ push_back_at adj1 (Graph26021.index a) (Graph26021.index b)
                   = Ret (Graph26021.m_adjacency g'))).
Proof.
  intros [k Hcalls]. pose proof (calls_symmetric _ _ _ Hcalls) as Hsym.
  split; [exact Hsym |]. split; [| split; [| split]].
  - intros position v. apply symmetric_add_node. exact Hsym.
  - intros a b g' e Hadd. split; [eapply symmetric_add_edge; eassumption |].
    apply add_edge_Ret in Hadd as (_ & _ & _ & [[-> Hab] | Hnb]).
    + split; [exact Hab | apply Hsym; exact Hab].
    + rewrite !Hnb. tauto.
  - apply symmetric_clear.
  - intros a b Ha Hb.
    pose proof (valid_node_in_range this k g a Hcalls Ha) as Hia.
    pose proof (valid_node_in_range this k g b Hcalls Hb) as Hib.
    destruct (add_edge_returns this g a b Hia Hib) as (g' & e & Hadd).
    exists g', e. split; [exact Hadd |].
    split; [exact (symmetric_add_edge this g a b g' e Hsym Hadd) |].
    destruct (add_edge_records_both this g a b g' e
                (ex_intro _ k Hcalls) Hadd) as [Hab Hba].
    split; [exact Hab |]. split; [exact Hba |].
    destruct (add_edge_pushes this g a b g' e (proj1 Ha) (proj1 Hb) Hadd)
      as [[Heq Hold] | [Hnew Hpush]].
    + split; [intros _; exact Heq | intros Hno; contradiction].
    + split; [intros Hold; contradiction | intros _; exact Hpush].
Qed.

(** C6. When [k] calls of [add_node] have returned since the construction
    of the graph or its last [clear], and the count still fits [size_type],
    the next call, number [k+1], returns a handle of this graph with
    [index() == k], leaves [num_nodes() == k+1], and has increased
    [num_nodes()] by exactly 1.  Both for the adjacency graph (26021) and
    for the edge-list graph (20558). *)
Theorem add_node_kth_call (k : nat) :
  N.of_nat (S k) < 2 ^ 32 ->
  (forall this (g : Graph26021.Graph Point V) position v,
      Graph26021.calls this k g ->
      let r := Graph26021.add_node this g position v in
      Graph26021.index r.2 = N.of_nat k
      /\ Graph26021.m_graph_ptr r.2 = Some this
      /\ Graph26021.num_nodes r.1 = N.of_nat (S k)
      /\ Graph26021.num_nodes r.1 = Graph26021.num_nodes g + 1)
  /\ (forall live this (g : Graph20558.Graph Point) position,
        Graph20558.calls live this k g ->
        let r := Graph20558.add_node this g position in
        Graph20558.index r.2 = N.of_nat k
        /\ Graph20558.m_ptr_graph r.2 = Some this
        /\ Graph20558.num_nodes r.1 = N.of_nat (S k)
        /\ Graph20558.num_nodes r.1 = Graph20558.num_nodes g + 1).
Proof.
  intros Hk. split.
  - intros this g position v Hcalls. apply calls_lengths in Hcalls as [Hlen _].
    simpl. unfold Graph26021.index, Graph26021.num_nodes, Graph26021.size. simpl.
    rewrite vsize_app. unfold vsize. rewrite Hlen. simpl length.
    change (N.of_nat 1) with 1.
    rewrite sub32_last by lia.
    rewrite !wrap32_small by lia. repeat split; lia.
  - intros live this g position Hcalls. apply calls_length_20558 in Hcalls as Hlen.
    simpl. unfold Graph20558.index, Graph20558.num_nodes, Graph20558.size. simpl.
    rewrite vsize_app. unfold vsize. rewrite Hlen. simpl length.
    change (N.of_nat 1) with 1.
    rewrite sub32_last by lia.
    rewrite !wrap32_small by lia. repeat split; lia.
Qed.

(** C7. After [clear()] the graph has [num_nodes() == 0] and
    [num_edges() == 0], and the next [add_node] returns a handle with
    identifier 0; in every state of the graph, for the adjacency graph
    (26021) and for the edge-list graph (1703), where the handle's
    [index()] reads the [uid] stored in the graph. *)
Theorem clear_resets :
  (forall this (g : Graph26021.Graph Point V) position v,
      let g0 := Graph26021.clear g in
      Graph26021.num_nodes g0 = 0
      /\ Graph26021.num_edges g0 = 0
      /\ (Graph26021.add_node this g0 position v).2
         = {| Graph26021.m_graph_ptr := Some this; Graph26021.m_node_index := 0 |}
      /\ Graph26021.index (Graph26021.add_node this g0 position v).2 = 0)
  /\ (forall (h : gmap addr (Graph1703.Graph Point)) this
             (g : Graph1703.Graph Point) position,
        let g0 := Graph1703.clear g in
        let r := Graph1703.add_node this g0 position in
        Graph1703.num_nodes g0 = 0
        /\ Graph1703.num_edges g0 = 0
        /\ r.2 = Graph1703.Node_mk (Some this) 0
        /\ Graph1703.Node_index (<[this := r.1]> h) r.2 = Ret 0).
Proof.
  split.
  - intros this g position v. repeat split.
  - intros h this g position. simpl. repeat split.
    unfold Graph1703.size. simpl. change (wrap32 (vsize [])) with 0.
    unfold deref. rewrite lookup_insert_eq. reflexivity.
Qed.

(** C10. In the adjacency design, for valid nodes [a] and [b] of a
    reachable graph, [add_edge(a, b)] returns, and the Edge it returns,
    in the new-edge branch as in the already-connected one, is
    [Edge(this, a.index(), b.index())]: [node1() == a] and [node2() == b]
    hold in the graph as [add_edge] leaves it.  Distinctness of [a] and
    [b] is not needed. *)
Theorem add_edge_endpoints this (g : Graph26021.Graph Point V) a b :
  Graph26021.reachable this g ->
  Graph26021.valid_node this g a ->
  Graph26021.valid_node this g b ->
  exists g' e,
    Graph26021.add_edge this g a b = Ret (g', e)
    /\ forall h : gmap addr (Graph26021.Graph Point V),
         h !! this = Some g' ->
         Graph26021.Node_eq h (Graph26021.node1 e) a = Ret true
         /\ Graph26021.Node_eq h (Graph26021.node2 e) b = Ret true.
Proof.
  intros [k Hcalls] Ha Hb.
  destruct (add_edge_returns this g a b) as (g' & e & Hadd);
    [eapply valid_node_in_range; eassumption .. |].
  exists g', e. split; [exact Hadd |].
  apply add_edge_Ret in Hadd as (-> & Hnodes & _).
  intros h Hh. split.
  - rewrite (Node_eq_valid h this g') by
      (first [ exact Hh | reflexivity | eapply valid_node_same_nodes; eassumption ]).
    simpl. rewrite N.eqb_refl. reflexivity.
  - rewrite (Node_eq_valid h this g') by
      (first [ exact Hh | reflexivity | eapply valid_node_same_nodes; eassumption ]).
    simpl. rewrite N.eqb_refl. reflexivity.
Qed.

(** The adjacency graph (26021) does what C2 asks: once [add_edge(a,b)]
    has returned for valid nodes of a reachable graph, [add_edge(a,b)] and
    [add_edge(b,a)] leave the graph as it is and return Edges equal to the
    first. *)
Theorem add_edge_again_26021 this (g g1 : Graph26021.Graph Point V) a b e1 :
  Graph26021.reachable this g ->
  Graph26021.valid_node this g a ->
  Graph26021.valid_node this g b ->
  Graph26021.add_edge this g a b = Ret (g1, e1) ->
  Graph26021.add_edge this g1 a b = Ret (g1, e1)
  /\ exists e2,
       Graph26021.add_edge this g1 b a = Ret (g1, e2)
       /\ forall h : gmap addr (Graph26021.Graph Point V),
            h !! this = Some g1 ->
            Graph26021.Edge_eq h e2 e1 = Ret true
            /\ Graph26021.Edge_eq h e1 e1 = Ret true.
Proof.
  intros Hreach Ha Hb Hadd.
  destruct (add_edge_records_both this g a b g1 e1 Hreach Hadd) as (Hab & Hba).
  apply add_edge_Ret in Hadd as (-> & Hnodes & _).
  pose proof (valid_node_same_nodes this g g1 a Hnodes Ha) as Ha1.
  pose proof (valid_node_same_nodes this g g1 b Hnodes Hb) as Hb1.
  destruct Ha as [Hpa _], Hb as [Hpb _].
  split; [apply add_edge_present; assumption |].
  eexists. split; [apply add_edge_present; assumption |].
  intros h Hh. unfold Graph26021.Edge_eq, Graph26021.node1, Graph26021.node2. simpl.
  rewrite !(Node_eq_valid h this g1) by
    (first [ exact Hh | reflexivity
           | split; [reflexivity | first [ apply Ha1 | apply Hb1 ] ] ]).
  simpl. rewrite !N.eqb_refl. simpl.
  split; [| reflexivity].
  destruct (Graph26021.index b =? Graph26021.index a) eqn:Hba'; simpl.
  - apply N.eqb_eq in Hba'. rewrite Hba', N.eqb_refl. reflexivity.
  - reflexivity.
Qed.

End Claims.

(** ** The claims the code does not meet, at concrete inputs *)

(** C1 (not met by 26021).  [edge_begin()] is [EdgeIterator(this, 0, 0)]
    whatever node 0's adjacency entry holds.  On the graph with nodes 0, 1, 2
    and the single edge {1,2} the traversal from [edge_begin()] to
    [edge_end()] visits two positions, one more than [num_edges()]; the
    first, (0,0), is not an entry of the adjacency vector and dereferencing
    it is undefined, as is [edge(0)]; only the second yields the edge. *)
Theorem edge_range_visits_missing_entry :
  exists g : Graph26021.Graph unit unit,
    Graph26021.three_nodes_edge12 = Ret g
    /\ Graph26021.m_adjacency g = [[]; [2]; [1]]
    /\ Graph26021.num_edges g = 1
    /\ Graph26021.edge_range 1 g
       = Some [ {| Graph26021.it_graph_ptr := Some 1;
                   Graph26021.it_node1_index := 0; Graph26021.m_edge_index := 0 |};
                {| Graph26021.it_graph_ptr := Some 1;
                   Graph26021.it_node1_index := 1; Graph26021.m_edge_index := 0 |} ]
    /\ Graph26021.EdgeIterator_deref g (Graph26021.edge_begin 1 g) = Undefined
    /\ Graph26021.edge 1 g 0 = Some Undefined
    /\ Graph26021.EdgeIterator_deref g
         {| Graph26021.it_graph_ptr := Some 1;
            Graph26021.it_node1_index := 1; Graph26021.m_edge_index := 0 |}
       = Ret {| Graph26021.edge_graph_ptr := Some 1;
                Graph26021.m_node1_index := 1; Graph26021.m_node2_index := 2 |}.
Proof.
  eexists. split; [vm_compute; reflexivity |].
  repeat split; vm_compute; reflexivity.
Qed.

(** C2 (not met by 20862).  With nodes [n0], [n1] of a two-node graph,
    [add_edge(n0,n1)] returns the Edge with id 0; the reversed call
    [add_edge(n1,n0)] leaves [num_edges()] at 1 but returns the Edge with
    id 1, the position [Edges.end()], which is not an element of [Edges]:
    the handle differs from the first and comparing the two reads
    [Edges[1]] out of range. *)
Theorem add_edge_reversed_20862 :
  let g := Graph20862.two_nodes in
  let n0 := Graph20862.node 1 g 0 in
  let n1 := Graph20862.node 1 g 1 in
  let r1 := Graph20862.add_edge 1 g n0 n1 in
  let r2 := Graph20862.add_edge 1 r1.1 n1 n0 in
  r1.2 = {| Graph20862.edge_id := 0; Graph20862.edge_graph := Some 1 |}
  /\ r2.2 = {| Graph20862.edge_id := 1; Graph20862.edge_graph := Some 1 |}
  /\ r2.1 = r1.1
  /\ Graph20862.num_edges r1.1 = 1
  /\ Graph20862.num_edges r2.1 = 1
  /\ vec_at (Graph20862.Edges r2.1) (Graph20862.edge_id r2.2) = Undefined
  /\ Graph20862.Edge_eq {[ 1 := r2.1 ]} r2.2 r1.2 = Undefined
  /\ Graph20862.Edge_eq {[ 1 := r2.1 ]} r1.2 r2.2 = Undefined.
Proof. repeat split; vm_compute; reflexivity. Qed.

(** C3, as the code has it: in 1703 [add_edge(a, a)], for every initialised
    handle [a], returns the default-constructed Edge and leaves every graph
    as it was, so [num_edges()] does not change. *)
Theorem add_edge_self_loop_1703 {Point : Type}
    (h : gmap addr (Graph1703.Graph Point)) (this : addr) (g_ : ptr) (uid_ : size_type) :
  Graph1703.add_edge h this (Graph1703.Node_mk g_ uid_) (Graph1703.Node_mk g_ uid_)
  = Ret (h, Graph1703.Edge_default).
Proof.
  unfold Graph1703.add_edge, Graph1703.Node_eq, ptr_eqb.
  rewrite bool_decide_eq_true_2 by reflexivity. rewrite N.eqb_refl. reflexivity.
Qed.

(** C3 fails on 26021, which has no self-loop test: on a graph with one
    node [n0], [add_edge(n0, n0)] returns the initialised Edge (0,0), enters
    0 twice in node 0's adjacency entry and raises [num_edges()] from 0
    to 1. *)
Lemma add_edge_self_loop_26021 :
  let g := Graph26021.one_node.1 in
  let n0 := Graph26021.one_node.2 in
  Graph26021.valid_node 1 g n0
  /\ Graph26021.num_edges g = 0
  /\ exists g',
      Graph26021.add_edge 1 g n0 n0
      = Ret (g', {| Graph26021.edge_graph_ptr := Some 1;
                    Graph26021.m_node1_index := 0; Graph26021.m_node2_index := 0 |})
      /\ Graph26021.m_adjacency g' = [[0; 0]]
      /\ Graph26021.num_edges g' = 1.
Proof.
  split; [split; vm_compute; reflexivity |].
  split; [vm_compute; reflexivity |].
  eexists. split; [vm_compute; reflexivity |].
  split; vm_compute; reflexivity.
Qed.

(** C4 (not met by 1703).  [Edge::operator==] compares [edgeid_] alone, and
    [add_edge] gives a new edge the id [size()], the number of nodes.  On
    one graph with three nodes the edges {0,1} and {1,2} both get id 3 and
    compare equal; on two graphs, at addresses 1 and 2, the edges {0,1} of
    each get id 3 and compare equal although their graph pointers
    differ. *)
Theorem Edge_eq_ignores_pair_and_graph_1703 :
  (exists e1 e2,
      Graph1703.two_edges_one_graph = Ret (e1, e2)
      /\ e1 = Graph1703.Edge_mk (Some 1) 3 0 1
      /\ e2 = Graph1703.Edge_mk (Some 1) 3 1 2
      /\ Graph1703.Edge_eq e1 e2 = Ret true)
  /\ (exists e1 e2,
        Graph1703.two_graphs_one_edge = Ret (e1, e2)
        /\ e1 = Graph1703.Edge_mk (Some 1) 3 0 1
        /\ e2 = Graph1703.Edge_mk (Some 2) 3 0 1
        /\ Graph1703.Edge_eq e1 e2 = Ret true).
Proof.
  split; eexists _, _; (split; [vm_compute; reflexivity |]); repeat split.
Qed.

(** In 20862 [has_node(Node())] is true on every graph whose size fits
    [size_type]: [node(size_type(-1))] is [Node()] again. *)
Lemma has_node_default_20862 {Point : Type} (this : addr) (g : Graph20862.Graph Point) :
  vsize (Graph20862.Points g) < 2 ^ 32 ->
  Graph20862.has_node this g Graph20862.Node_default = true.
Proof.
  intros Hfit. unfold Graph20862.has_node, Graph20862.node.
  change (Graph20862.index Graph20862.Node_default) with (2 ^ 32 - 1).
  destruct (N.leb_spec (vsize (Graph20862.Points g)) (2 ^ 32 - 1)) as [_ | Hlt]; [| lia].
  reflexivity.
Qed.

(** 20862 does what C5 asks for every handle but the invalid one: for a
    handle [n] with a graph pointer, [has_node(n)] is true iff the pointer
    is this graph and the identifier is within the bounds. *)
Lemma has_node_spec_20862 {Point : Type} (this : addr) (g : Graph20862.Graph Point)
    (n : Graph20862.Node) :
  Graph20862.graph n <> nullptr ->
  Graph20862.has_node this g n = true
  <-> Graph20862.graph n = Some this /\ Graph20862.id n < vsize (Graph20862.Points g).
Proof.
  intros Hptr. unfold Graph20862.has_node, Graph20862.node, Graph20862.Node_eq,
    Graph20862.index, ptr_eqb.
  destruct (N.leb_spec (vsize (Graph20862.Points g)) (Graph20862.id n)) as [Hout | Hin].
  - simpl. rewrite bool_decide_eq_false_2 by exact Hptr. simpl.
    split; [discriminate | intros [_ Hlt]; lia].
  - simpl. rewrite N.eqb_refl, andb_true_r. rewrite bool_decide_eq_true.
    split; [intros Heq; split; [exact Heq | exact Hin] | intros [Heq _]; exact Heq].
Qed.

(** C5 (not met).  In 1703 [has_node] compares the graph pointer only: for
    the handle [n0] of the first node, after [clear()], it returns true
    although [num_nodes()] is 0.  In 26021 the same call stops on the
    [assert].  In 20862 [has_node(Node())], on the invalid handle that no
    graph issued, is true. *)
Theorem has_node_out_of_bounds :
  (let g := Graph1703.clear Graph1703.one_node.1 in
   let n0 := Graph1703.one_node.2 in
   n0 = Graph1703.Node_mk (Some 1) 0
   /\ Graph1703.num_nodes g = 0
   /\ Graph1703.has_node 1 g n0 = Ret true)
  /\ (let g := Graph26021.clear Graph26021.one_node.1 in
      let n0 := Graph26021.one_node.2 in
      Graph26021.num_nodes g = 0
      /\ Graph26021.has_node 1 g n0 = AssertFail)
  /\ Graph20862.graph Graph20862.Node_default = nullptr
  /\ Graph20862.has_node 1 Graph20862.two_nodes Graph20862.Node_default = true.
Proof. repeat split. Qed.

(** C9 (not met by 20862).  On the empty graph index 0 is out of range for
    both calls: [node(0)] returns the invalid [Node()], [edge(0)] returns
    the initialised handle [Edge(0, this)], which is not [Edge()] and
    refers to no element of [Edges]. *)
Theorem node_edge_out_of_range_20862 :
  let g : Graph20862.Graph unit := Graph20862.empty in
  Graph20862.num_nodes g = 0
  /\ Graph20862.num_edges g = 0
  /\ Graph20862.node 1 g 0 = Graph20862.Node_default
  /\ Graph20862.edge 1 g 0
     = {| Graph20862.edge_id := 0; Graph20862.edge_graph := Some 1 |}
  /\ Graph20862.edge 1 g 0 <> Graph20862.Edge_default
  /\ vec_at (Graph20862.Edges g) (Graph20862.edge_id (Graph20862.edge 1 g 0)) = Undefined.
Proof. repeat split. intros H. discriminate H. Qed.

(** In 20862 the position one past the last edge always gets an initialised
    handle, where [node] at the position one past the last node gets
    [Node()]. *)
Lemma edge_one_past_end_20862 {Point : Type} (this : addr) (g : Graph20862.Graph Point) :
  Graph20862.edge this g (vsize (Graph20862.Edges g))
  = {| Graph20862.edge_id := vsize (Graph20862.Edges g);
       Graph20862.edge_graph := Some this |}
  /\ Graph20862.node this g (vsize (Graph20862.Points g)) = Graph20862.Node_default.
Proof.
  unfold Graph20862.edge, Graph20862.node.
  rewrite N.ltb_irrefl, N.leb_refl. split; reflexivity.
Qed.

(** 1703 holds to one policy: out of range, [node(i)] and [edge(i)] both
    return the default-constructed handle. *)
Lemma node_edge_out_of_range_1703 {Point : Type}
    (h : gmap addr (Graph1703.Graph Point)) (this : addr) (g : Graph1703.Graph Point)
    (i : size_type) :
  h !! this = Some g ->
  (Graph1703.num_nodes g <= i -> Graph1703.node this g i = Graph1703.Node_default)
  /\ (vsize (Graph1703.edges_ g) <= i -> Graph1703.edge h this i = Ret Graph1703.Edge_default).
Proof.
  intros Hg. split; intros Hi.
  - unfold Graph1703.node. apply N.leb_le in Hi. unfold Graph1703.num_nodes in Hi.
    rewrite Hi. reflexivity.
  - unfold Graph1703.edge, deref. rewrite Hg. simpl. apply N.leb_le in Hi.
    rewrite Hi. reflexivity.
Qed.

(** ** The scenario of the specification on 26021 *)

Lemma three_nodes_built : Graph26021.built 1 Graph26021.three_nodes.
Proof.
  unfold Graph26021.three_nodes.
  do 3 apply Graph26021.built_add_node. apply Graph26021.built_ctor.
Qed.

(** Three nodes; [add_edge(n0,n1)] gives [num_edges() == 1],
    [has_edge(n0,n1)] and not [has_edge(n1,n2)]; the reversed
    [add_edge(n1,n0)] keeps [num_edges() == 1]; [add_edge(n1,n2)] gives
    [num_edges() == 2], and the traversal from [edge_begin()] to
    [edge_end()] yields the pairs {0,1} and {1,2}, each once: here node 0
    has a neighbour. *)
Example scenario_26021 :
  let n0 := {| Graph26021.m_graph_ptr := Some 1; Graph26021.m_node_index := 0 |} in
  let n1 := {| Graph26021.m_graph_ptr := Some 1; Graph26021.m_node_index := 1 |} in
  let n2 := {| Graph26021.m_graph_ptr := Some 1; Graph26021.m_node_index := 2 |} in
  Graph26021.num_nodes Graph26021.three_nodes = 3
  /\ exists g1 g2 g3,
      Graph26021.scenario = Ret (g1, g2, g3)
      /\ Graph26021.num_edges g1 = 1
      /\ Graph26021.has_edge 1 g1 n0 n1 = Ret true
      /\ Graph26021.has_edge 1 g1 n1 n2 = Ret false
      /\ Graph26021.num_edges g2 = 1
      /\ Graph26021.num_edges g3 = 2
      /\ Graph26021.built 1 g3
      /\ (its ← default Undefined (Ret <$> Graph26021.edge_range 1 g3);
          Graph26021.visit_all g3 its)
         = Ret [Graph26021.pair_edge 1 (0, 1); Graph26021.pair_edge 1 (1, 2)].
Proof.
  intros n0 n1 n2. split; [reflexivity |].
  eexists _, _, _. split; [vm_compute; reflexivity |].
  repeat split; try (vm_compute; reflexivity).
  eapply (Graph26021.built_add_edge 1 _ n1 n2);
    [ eapply (Graph26021.built_add_edge 1 _ n0 n1);
      [ exact three_nodes_built | .. ] | .. ];
    try (split; vm_compute; reflexivity);
    try (vm_compute; discriminate);
    vm_compute; reflexivity.
Qed.

(** ** Sample graphs of 26021 *)

Lemma path_graph_built : Graph26021.built 1 Graph26021.path_graph.
Proof.
  destruct scenario_26021 as (_ & g1 & g2 & g3 & Hrun & _ & _ & _ & _ & _ & Hbuilt & _).
  vm_compute in Hrun. injection Hrun as _ _ <-. exact Hbuilt.
Qed.

Lemma edge12_graph_built : Graph26021.built 1 Graph26021.edge12_graph.
Proof.
  eapply (Graph26021.built_add_edge 1 _
            {| Graph26021.m_graph_ptr := Some 1; Graph26021.m_node_index := 1 |}
            {| Graph26021.m_graph_ptr := Some 1; Graph26021.m_node_index := 2 |});
    [ exact three_nodes_built | .. ];
    try (split; vm_compute; reflexivity);
    try (vm_compute; discriminate).
Qed.

Lemma path_graph_fits32 : Graph26021.fits32 Graph26021.path_graph.
Proof. fits32_by_computation. Qed.

Lemma edge12_graph_fits32 : Graph26021.fits32 Graph26021.edge12_graph.
Proof. fits32_by_computation. Qed.

Lemma three_nodes_reachable : Graph26021.reachable 1 Graph26021.three_nodes.
Proof. apply built_reachable, three_nodes_built. Qed.

(** ** Witnesses *)

Lemma neighbor_relation_symmetric_witness :
  Graph26021.symmetric Graph26021.path_graph
  /\ exists g' e,
      Graph26021.add_edge 1 Graph26021.edge12_graph
        {| Graph26021.m_graph_ptr := Some 1; Graph26021.m_node_index := 0 |}
        {| Graph26021.m_graph_ptr := Some 1; Graph26021.m_node_index := 1 |}
      = Ret (g', e)
      /\ Graph26021.symmetric g'
      /\ Graph26021.neighbor g' 0 1
      /\ Graph26021.neighbor g' 1 0
      /\ Graph26021.m_adjacency g' = [[1]; [2; 0]; [1]].
Proof.
  split.
  - apply (@neighbor_relation_symmetric unit unit 1 Graph26021.path_graph).
    exact (built_reachable 1 _ path_graph_built).
  - destruct (@neighbor_relation_symmetric unit unit 1 Graph26021.edge12_graph
                (built_reachable 1 _ edge12_graph_built))
      as (_ & _ & _ & _ & Hadd).
    destruct (Hadd {| Graph26021.m_graph_ptr := Some 1; Graph26021.m_node_index := 0 |}
                   {| Graph26021.m_graph_ptr := Some 1; Graph26021.m_node_index := 1 |})
      as (g' & e & Hret & Hsym & H01 & H10 & _ & _).
    + split; [reflexivity | vm_compute; reflexivity].
    + split; [reflexivity | vm_compute; reflexivity].
    + exists g', e. split; [exact Hret |]. split; [exact Hsym |].
      split; [exact H01 |]. split; [exact H10 |].
      vm_compute in Hret. injection Hret as <- _. reflexivity.
Defined.

Lemma add_node_kth_call_witness :
  (Graph26021.index (Graph26021.add_node 1 Graph26021.three_nodes tt tt).2 = 3
   /\ Graph26021.num_nodes (Graph26021.add_node 1 Graph26021.three_nodes tt tt).1 = 4)
  /\ (Graph20558.index (Graph20558.add_node 1 Graph20558.three_nodes tt).2 = 3
      /\ Graph20558.num_nodes (Graph20558.add_node 1 Graph20558.three_nodes tt).1 = 4).
Proof.
  assert (Hk : N.of_nat 4 < 2 ^ 32) by (vm_compute; reflexivity).
  destruct (@add_node_kth_call unit unit 3 Hk) as [Hadj Hlist].
  split.
  - assert (Hcalls : Graph26021.calls 1 3 Graph26021.three_nodes)
      by (unfold Graph26021.three_nodes; repeat constructor).
    destruct (Hadj 1 Graph26021.three_nodes tt tt Hcalls) as (Hi & _ & Hn & _).
    split; [exact Hi | exact Hn].
  - assert (Hcalls : Graph20558.calls {[ 1 ]} 1 3 Graph20558.three_nodes)
      by (unfold Graph20558.three_nodes; repeat constructor).
    destruct (Hlist {[ 1 ]} 1 Graph20558.three_nodes tt Hcalls) as (Hi & _ & Hn & _).
    split; [exact Hi | exact Hn].
Defined.

Lemma add_edge_endpoints_witness :
  exists g' e,
    Graph26021.add_edge 1 Graph26021.three_nodes
      {| Graph26021.m_graph_ptr := Some 1; Graph26021.m_node_index := 1 |}
      {| Graph26021.m_graph_ptr := Some 1; Graph26021.m_node_index := 2 |}
    = Ret (g', e)
    /\ forall h : gmap addr (Graph26021.Graph unit unit),
         h !! 1 = Some g' ->
         Graph26021.Node_eq h (Graph26021.node1 e)
           {| Graph26021.m_graph_ptr := Some 1; Graph26021.m_node_index := 1 |} = Ret true
         /\ Graph26021.Node_eq h (Graph26021.node2 e)
              {| Graph26021.m_graph_ptr := Some 1; Graph26021.m_node_index := 2 |} = Ret true.
Proof.
  apply (@add_edge_endpoints unit unit 1 Graph26021.three_nodes).
  - exists 3%nat. unfold Graph26021.three_nodes. repeat constructor.
  - split; [reflexivity | vm_compute; reflexivity].
  - split; [reflexivity | vm_compute; reflexivity].
Defined.

(** *** Witnesses of the further properties of 26021 *)

Lemma edge_traversal_enumeration_witness :
  Graph26021.edge_range 1 Graph26021.path_graph
  = Some (Graph26021.position_iterator 1 <$> [(0, 0); (1, 1)]).
Proof.
  apply (proj1 (edge_traversal_enumeration 1 Graph26021.path_graph path_graph_fits32)).
Defined.

Lemma edge_range_of_built_graph_witness :
  exists its,
    Graph26021.edge_range 1 Graph26021.path_graph = Some its
    /\ vsize its = Graph26021.num_edges Graph26021.path_graph.
Proof.
  destruct (edge_range_of_built_graph 1 Graph26021.path_graph
              path_graph_built path_graph_fits32)
    as (its & Hrange & Hsize & _).
  - vm_compute. reflexivity.
  - reflexivity.
  - exists its. split; assumption.
Defined.

Lemma edge_range_one_too_many_witness :
  exists its,
    Graph26021.edge_range 1 Graph26021.edge12_graph
    = Some (Graph26021.edge_begin 1 Graph26021.edge12_graph :: its)
    /\ vsize (Graph26021.edge_begin 1 Graph26021.edge12_graph :: its)
       = Graph26021.num_edges Graph26021.edge12_graph + 1.
Proof.
  destruct (edge_range_one_too_many 1 Graph26021.edge12_graph [[2]; [1]]
              edge12_graph_built edge12_graph_fits32)
    as (its & Hrange & Hsize & _).
  - vm_compute. reflexivity.
  - reflexivity.
  - exists its. split; assumption.
Defined.

Lemma num_edges_counts_pairs_witness :
  Graph26021.num_edges Graph26021.path_graph
  = vsize (Graph26021.lesser_endpoint_pairs Graph26021.path_graph).
Proof.
  apply (num_edges_counts_pairs 1 Graph26021.path_graph path_graph_built).
  vm_compute. reflexivity.
Defined.

Lemma add_edge_postcondition_witness :
  exists g' e,
    Graph26021.add_edge 1 Graph26021.three_nodes
      {| Graph26021.m_graph_ptr := Some 1; Graph26021.m_node_index := 1 |}
      {| Graph26021.m_graph_ptr := Some 1; Graph26021.m_node_index := 2 |}
    = Ret (g', e)
    /\ Graph26021.has_edge 1 g'
         {| Graph26021.m_graph_ptr := Some 1; Graph26021.m_node_index := 2 |}
         {| Graph26021.m_graph_ptr := Some 1; Graph26021.m_node_index := 1 |}
       = Ret true.
Proof.
  destruct (add_edge_postcondition 1 Graph26021.three_nodes
              {| Graph26021.m_graph_ptr := Some 1; Graph26021.m_node_index := 1 |}
              {| Graph26021.m_graph_ptr := Some 1; Graph26021.m_node_index := 2 |}
              three_nodes_reachable)
    as (g' & e & Hadd & _ & Hba & _).
  - split; [reflexivity | vm_compute; reflexivity].
  - split; [reflexivity | vm_compute; reflexivity].
  - vm_compute. reflexivity.
  - exists g', e. split; assumption.
Defined.

Lemma add_edge_frame_witness :
  match Graph26021.add_edge 1 Graph26021.edge12_graph
          {| Graph26021.m_graph_ptr := Some 1; Graph26021.m_node_index := 0 |}
          {| Graph26021.m_graph_ptr := Some 1; Graph26021.m_node_index := 1 |} with
  | Ret (g', _) =>
      Graph26021.has_edge 1 g'
        {| Graph26021.m_graph_ptr := Some 1; Graph26021.m_node_index := 1 |}
        {| Graph26021.m_graph_ptr := Some 1; Graph26021.m_node_index := 2 |}
      = Graph26021.has_edge 1 Graph26021.edge12_graph
          {| Graph26021.m_graph_ptr := Some 1; Graph26021.m_node_index := 1 |}
          {| Graph26021.m_graph_ptr := Some 1; Graph26021.m_node_index := 2 |}
  | _ => False
  end.
Proof.
  destruct (Graph26021.add_edge 1 Graph26021.edge12_graph
              {| Graph26021.m_graph_ptr := Some 1; Graph26021.m_node_index := 0 |}
              {| Graph26021.m_graph_ptr := Some 1; Graph26021.m_node_index := 1 |})
    as [[g' e] | |] eqn:Hadd; [| vm_compute in Hadd; discriminate Hadd ..].
  destruct (add_edge_frame 1 _ _ _ g' e Hadd) as (_ & _ & _ & Hframe).
  apply Hframe; [reflexivity | reflexivity | |].
  - intros [H _]. vm_compute in H. discriminate H.
  - intros [_ H]. vm_compute in H. discriminate H.
Defined.

Lemma has_edge_symmetric_witness :
  Graph26021.has_edge 1 Graph26021.path_graph
    {| Graph26021.m_graph_ptr := Some 1; Graph26021.m_node_index := 1 |}
    {| Graph26021.m_graph_ptr := Some 1; Graph26021.m_node_index := 2 |} = Ret true
  /\ Graph26021.has_edge 1 Graph26021.path_graph
       {| Graph26021.m_graph_ptr := Some 1; Graph26021.m_node_index := 2 |}
       {| Graph26021.m_graph_ptr := Some 1; Graph26021.m_node_index := 1 |} = Ret true.
Proof.
  destruct (has_edge_symmetric 1 Graph26021.path_graph
              {| Graph26021.m_graph_ptr := Some 1; Graph26021.m_node_index := 1 |}
              {| Graph26021.m_graph_ptr := Some 1; Graph26021.m_node_index := 2 |}
              (built_reachable 1 _ path_graph_built))
    as (r & H12 & H21).
  - split; [reflexivity | vm_compute; reflexivity].
  - split; [reflexivity | vm_compute; reflexivity].
  - assert (Hr : Ret r = Ret true) by (rewrite <- H12; vm_compute; reflexivity).
    injection Hr as ->. split; [exact H12 | exact H21].
Defined.

Lemma add_edge_again_26021_witness :
  Graph26021.add_edge 1 Graph26021.edge12_graph
    {| Graph26021.m_graph_ptr := Some 1; Graph26021.m_node_index := 1 |}
    {| Graph26021.m_graph_ptr := Some 1; Graph26021.m_node_index := 2 |}
  = Ret (Graph26021.edge12_graph,
         {| Graph26021.edge_graph_ptr := Some 1;
            Graph26021.m_node1_index := 1; Graph26021.m_node2_index := 2 |}).
Proof.
  refine (proj1 (add_edge_again_26021 1 Graph26021.three_nodes Graph26021.edge12_graph
                   _ _ _ three_nodes_reachable _ _ _)).
  - split; [reflexivity | vm_compute; reflexivity].
  - split; [reflexivity | vm_compute; reflexivity].
  - vm_compute. reflexivity.
Defined.

Lemma node_range_spec_witness :
  exists its,
    Graph26021.node_range 1 Graph26021.three_nodes = Some its
    /\ vsize its = Graph26021.num_nodes Graph26021.three_nodes.
Proof.
  destruct (node_range_spec 1 Graph26021.three_nodes) as (its & Hrange & Hsize & _).
  - vm_compute. reflexivity.
  - exists its. split; assumption.
Defined.

Lemma incident_range_spec_witness :
  exists its,
    Graph26021.incident_range Graph26021.path_graph
      {| Graph26021.m_graph_ptr := Some 1; Graph26021.m_node_index := 1 |}
    = Ret (Some its)
    /\ Graph26021.incident_visit_all Graph26021.path_graph its
       = Ret [Graph26021.pair_edge 1 (1, 0); Graph26021.pair_edge 1 (1, 2)].
Proof.
  destruct (incident_range_spec 1 Graph26021.path_graph
              {| Graph26021.m_graph_ptr := Some 1; Graph26021.m_node_index := 1 |}
              [0; 2] eq_refl eq_refl)
    as (its & Hrange & _ & Hvisit & _).
  - vm_compute. reflexivity.
  - exists its. split; assumption.
Defined.

Lemma add_node_position_value_witness :
  let r := Graph26021.add_node 1 (@Graph26021.empty N N) 7 9 in
  Graph26021.position {[ 1 := r.1 ]} r.2 = Ret 7
  /\ Graph26021.value {[ 1 := r.1 ]} r.2 = Ret 9.
Proof.
  destruct (@add_node_position_value N N ∅ 1 Graph26021.empty 7 9)
    as (Hp & Hv & _).
  - exists 0%nat. apply Graph26021.calls_ctor.
  - vm_compute. reflexivity.
  - split; [exact Hp | exact Hv].
Defined.

Lemma value_assign_roundtrip_witness :
  exists h',
    Graph26021.value_assign
      {[ 1 := (Graph26021.add_node 1 (@Graph26021.empty N N) 7 9).1 ]}
      {| Graph26021.m_graph_ptr := Some 1; Graph26021.m_node_index := 0 |} 5
    = Ret h'
    /\ Graph26021.value h'
         {| Graph26021.m_graph_ptr := Some 1; Graph26021.m_node_index := 0 |} = Ret 5.
Proof.
  destruct (@value_assign_roundtrip N N
              {[ 1 := (Graph26021.add_node 1 (@Graph26021.empty N N) 7 9).1 ]} 1
              (Graph26021.add_node 1 (@Graph26021.empty N N) 7 9).1
              {| Graph26021.m_graph_ptr := Some 1; Graph26021.m_node_index := 0 |} 5)
    as (h' & g' & Hassign & _ & Hval & _).
  - apply lookup_singleton_eq.
  - split; [reflexivity | vm_compute; reflexivity].
  - exists h'. split; assumption.
Defined.

Lemma Edge_eq_unordered_witness :
  Graph26021.Edge_eq {[ 1 := Graph26021.three_nodes ]}
    (Graph26021.pair_edge 1 (0, 1)) (Graph26021.pair_edge 1 (1, 0))
  = Ret true.
Proof.
  apply (Edge_eq_unordered {[ 1 := Graph26021.three_nodes ]} 1 1 Graph26021.three_nodes
           (0, 1) (1, 0)).
  - apply lookup_singleton_eq.
  - vm_compute. reflexivity.
  - vm_compute. reflexivity.
  - vm_compute. reflexivity.
  - vm_compute. reflexivity.
Defined.

Lemma Node_lt_trichotomy_witness :
  exists e l r,
    Graph26021.Node_eq {[ 1 := Graph26021.three_nodes ]}
      {| Graph26021.m_graph_ptr := Some 1; Graph26021.m_node_index := 0 |}
      {| Graph26021.m_graph_ptr := Some 1; Graph26021.m_node_index := 2 |} = Ret e
    /\ Graph26021.Node_lt (fun _ _ => false)
         {| Graph26021.m_graph_ptr := Some 1; Graph26021.m_node_index := 0 |}
         {| Graph26021.m_graph_ptr := Some 1; Graph26021.m_node_index := 2 |} = l
    /\ Graph26021.Node_lt (fun _ _ => false)
         {| Graph26021.m_graph_ptr := Some 1; Graph26021.m_node_index := 2 |}
         {| Graph26021.m_graph_ptr := Some 1; Graph26021.m_node_index := 0 |} = r.
Proof.
  destruct (Node_lt_trichotomy {[ 1 := Graph26021.three_nodes ]} 1 Graph26021.three_nodes
              (fun _ _ => false)
              {| Graph26021.m_graph_ptr := Some 1; Graph26021.m_node_index := 0 |}
              {| Graph26021.m_graph_ptr := Some 1; Graph26021.m_node_index := 2 |})
    as (e & l & r & He & Hl & Hr & _).
  - apply lookup_singleton_eq.
  - split; [reflexivity | vm_compute; reflexivity].
  - split; [reflexivity | vm_compute; reflexivity].
  - exists e, l, r. split; [exact He | split; [exact Hl | exact Hr]].
Defined.

Lemma Edge_lt_trichotomy_witness :
  exists e l r,
    Graph26021.Edge_eq {[ 1 := Graph26021.three_nodes ]}
      (Graph26021.pair_edge 1 (0, 1)) (Graph26021.pair_edge 1 (2, 1)) = Ret e
    /\ Graph26021.Edge_lt (fun _ _ => false)
         (Graph26021.pair_edge 1 (0, 1)) (Graph26021.pair_edge 1 (2, 1)) = l
    /\ Graph26021.Edge_lt (fun _ _ => false)
         (Graph26021.pair_edge 1 (2, 1)) (Graph26021.pair_edge 1 (0, 1)) = r.
Proof.
  destruct (Edge_lt_trichotomy {[ 1 := Graph26021.three_nodes ]} 1 Graph26021.three_nodes
              (fun _ _ => false) (0, 1) (2, 1))
    as (e & l & r & He & Hl & Hr & _).
  - apply lookup_singleton_eq.
  - vm_compute. reflexivity.
  - vm_compute. reflexivity.
  - vm_compute. reflexivity.
  - vm_compute. reflexivity.
  - exists e, l, r. split; [exact He | split; [exact Hl | exact Hr]].
Defined.

Lemma edge_index_spec_witness :
  Graph26021.edge 1 Graph26021.path_graph 1
  = Some (Ret (Graph26021.pair_edge 1 (1, 2))).
Proof.
  apply (edge_index_spec 1 Graph26021.path_graph 1 (1, 2)
           path_graph_built path_graph_fits32).
  - vm_compute. reflexivity.
  - reflexivity.
  - vm_compute. reflexivity.
Defined.

(** ** Witnesses of the properties of the edge-list graphs *)

Lemma ptr_ltb_by_address_total (p q : ptr) :
  (p = q /\ ptr_ltb_by_address p q = false /\ ptr_ltb_by_address q p = false)
  \/ (p <> q /\ ptr_ltb_by_address p q = true /\ ptr_ltb_by_address q p = false)
  \/ (p <> q /\ ptr_ltb_by_address p q = false /\ ptr_ltb_by_address q p = true).
Proof.
  destruct p as [a |], q as [b |]; simpl.
  - destruct (N.lt_trichotomy a b) as [Hlt | [-> | Hgt]].
    + right. left. split; [intros [= ->]; lia |].
      split; [apply N.ltb_lt; lia | apply N.ltb_ge; lia].
    + left. split; [reflexivity | split; apply N.ltb_irrefl].
    + right. right. split; [intros [= ->]; lia |].
      split; [apply N.ltb_ge; lia | apply N.ltb_lt; lia].
  - right. right. split; [discriminate | split; reflexivity].
  - right. left. split; [discriminate | split; reflexivity].
  - left. split; [reflexivity | split; reflexivity].
Qed.

Lemma two_nodes_calls_20862 : Graph20862.calls 1 Graph20862.two_nodes.
Proof.
  unfold Graph20862.two_nodes.
  do 2 apply Graph20862.calls_add_node. apply Graph20862.calls_ctor.
Qed.

Lemma three_nodes_calls_1703 : Graph1703.calls 1 (Graph1703.three_nodes 1).
Proof.
  unfold Graph1703.three_nodes.
  do 3 apply Graph1703.calls_add_node. apply Graph1703.calls_ctor.
Qed.

Lemma add_edge_postcondition_20862_witness :
  let a := {| Graph20862.id := 0; Graph20862.graph := Some 1 |} in
  let b := {| Graph20862.id := 1; Graph20862.graph := Some 1 |} in
  let g' := (Graph20862.add_edge 1 Graph20862.two_nodes a b).1 in
  Graph20862.has_edge Graph20862.two_nodes a b = Graph20862.has_edge Graph20862.two_nodes b a
  /\ Graph20862.has_edge g' a b = true
  /\ Graph20862.has_edge g' b a = true
  /\ Graph20862.Points g' = Graph20862.Points Graph20862.two_nodes
  /\ ((Graph20862.has_edge Graph20862.two_nodes a b = true /\ g' = Graph20862.two_nodes)
      \/ (Graph20862.has_edge Graph20862.two_nodes a b = false
          /\ Graph20862.num_edges g' = Graph20862.num_edges Graph20862.two_nodes + 1))
  /\ (forall c d,
        (Graph20862.index c, Graph20862.index d) <> (Graph20862.index a, Graph20862.index b) ->
        (Graph20862.index c, Graph20862.index d) <> (Graph20862.index b, Graph20862.index a) ->
        Graph20862.has_edge g' c d = Graph20862.has_edge Graph20862.two_nodes c d).
Proof.
  intros a b.
  apply (add_edge_postcondition_20862 1 Graph20862.two_nodes a b).
  vm_compute. reflexivity.
Defined.

Lemma edges_unique_20862_witness :
  let a := {| Graph20862.id := 0; Graph20862.graph := Some 1 |} in
  let b := {| Graph20862.id := 1; Graph20862.graph := Some 1 |} in
  let g := (Graph20862.add_edge 1 (Graph20862.add_edge 1 Graph20862.two_nodes a b).1 b a).1 in
  NoDup (Graph20862.unordered <$> Graph20862.Edges g)
  /\ (forall c d,
        Graph20862.has_edge g c d = true
        <-> Graph20862.unordered (Graph20862.index c, Graph20862.index d)
            ∈ Graph20862.unordered <$> Graph20862.Edges g).
Proof.
  intros a b g.
  apply (edges_unique_20862 1 g).
  do 2 apply Graph20862.calls_add_edge. exact two_nodes_calls_20862.
Defined.

Lemma Node_lt_trichotomy_20862_witness :
  let x := {| Graph20862.id := 0; Graph20862.graph := Some 1 |} in
  let y := {| Graph20862.id := 0; Graph20862.graph := Some 2 |} in
  (Graph20862.Node_eq x y = true
   /\ Graph20862.Node_lt ptr_ltb_by_address x y = false
   /\ Graph20862.Node_lt ptr_ltb_by_address y x = false)
  \/ (Graph20862.Node_eq x y = false
      /\ Graph20862.Node_lt ptr_ltb_by_address x y = true
      /\ Graph20862.Node_lt ptr_ltb_by_address y x = false)
  \/ (Graph20862.Node_eq x y = false
      /\ Graph20862.Node_lt ptr_ltb_by_address x y = false
      /\ Graph20862.Node_lt ptr_ltb_by_address y x = true).
Proof.
  intros x y.
  exact (Node_lt_trichotomy_20862 ptr_ltb_by_address ptr_ltb_by_address_total x y).
Defined.

Lemma add_edge_endpoints_20862_witness :
  let a := {| Graph20862.id := 0; Graph20862.graph := Some 1 |} in
  let b := {| Graph20862.id := 1; Graph20862.graph := Some 1 |} in
  let r := Graph20862.add_edge 1 Graph20862.two_nodes a b in
  Graph20862.node1 {[ 1 := r.1 ]} r.2 = Ret a
  /\ Graph20862.node2 {[ 1 := r.1 ]} r.2 = Ret b.
Proof.
  intros a b r.
  apply (add_edge_endpoints_20862 {[ 1 := r.1 ]} 1 Graph20862.two_nodes a b).
  - split; [reflexivity | vm_compute; reflexivity].
  - split; [reflexivity | vm_compute; reflexivity].
  - vm_compute. reflexivity.
  - right. apply not_elem_of_nil.
  - apply lookup_singleton_eq.
Defined.

Lemma has_node_spec_20862_witness :
  let n := {| Graph20862.id := 1; Graph20862.graph := Some 1 |} in
  Graph20862.has_node 1 Graph20862.two_nodes n = true
  <-> Graph20862.graph n = Some 1
      /\ Graph20862.id n < vsize (Graph20862.Points Graph20862.two_nodes).
Proof.
  intros n. apply (has_node_spec_20862 1 Graph20862.two_nodes n). discriminate.
Defined.

Lemma has_node_default_20862_witness :
  Graph20862.has_node 1 Graph20862.two_nodes Graph20862.Node_default = true.
Proof.
  apply (has_node_default_20862 1 Graph20862.two_nodes). vm_compute. reflexivity.
Defined.

Lemma add_edge_postcondition_20558_witness :
  let h : gmap addr (Graph20558.Graph unit) := {[ 1 := Graph20558.three_nodes ]} in
  let g := Graph20558.three_nodes in
  let a := {| Graph20558.m_index := 0; Graph20558.m_ptr_graph := Some 1 |} in
  let b := {| Graph20558.m_index := 1; Graph20558.m_ptr_graph := Some 1 |} in
  exists g' e (present : bool),
    Graph20558.has_edge (dom h) 1 g a b = Ret present
    /\ Graph20558.has_edge (dom h) 1 g b a = Ret present
    /\ Graph20558.add_edge (dom h) 1 g a b = Ret (g', e)
    /\ Graph20558.m_graph_nodes g' = Graph20558.m_graph_nodes g
    /\ (if present then g' = g
        else Graph20558.m_graph_edges g'
             = Graph20558.m_graph_edges g
               ++ [{| Graph20558.m_node1 := a; Graph20558.m_node2 := b |}])
    /\ Graph20558.num_edges g'
       = (if present then Graph20558.num_edges g else Graph20558.num_edges g + 1)
    /\ Graph20558.has_edge (dom h) 1 g' a b = Ret true
    /\ Graph20558.has_edge (dom h) 1 g' b a = Ret true
    /\ Graph20558.edge_ptr_graph e = Some 1
    /\ Graph20558.edge_index e < Graph20558.num_edges g'
    /\ ((Graph20558.node1 (<[1 := g']> h) e = Ret a
         /\ Graph20558.node2 (<[1 := g']> h) e = Ret b)
        \/ (Graph20558.node1 (<[1 := g']> h) e = Ret b
            /\ Graph20558.node2 (<[1 := g']> h) e = Ret a)).
Proof.
  intros h g a b.
  apply (add_edge_postcondition_20558 h 1 g a b).
  - apply lookup_singleton_eq.
  - apply Forall_nil_2.
  - reflexivity.
  - reflexivity.
  - vm_compute. reflexivity.
Defined.

Lemma Node_lt_index_only_20558_witness :
  let x := {| Graph20558.m_index := 0; Graph20558.m_ptr_graph := Some 1 |} in
  let y := {| Graph20558.m_index := 0; Graph20558.m_ptr_graph := Some 2 |} in
  exists e : bool,
    Graph20558.Node_eq {[ 1; 2 ]} x y = Ret e
    /\ Graph20558.Node_eq {[ 1; 2 ]} y x = Ret e
    /\ (1 = 2 ->
        (e = true /\ Graph20558.Node_lt x y = false /\ Graph20558.Node_lt y x = false)
        \/ (e = false /\ Graph20558.Node_lt x y = true /\ Graph20558.Node_lt y x = false)
        \/ (e = false /\ Graph20558.Node_lt x y = false /\ Graph20558.Node_lt y x = true))
    /\ (1 <> 2 -> Graph20558.m_index x = Graph20558.m_index y ->
        e = false /\ Graph20558.Node_lt x y = false /\ Graph20558.Node_lt y x = false).
Proof.
  intros x y.
  apply (Node_lt_index_only_20558 {[ 1; 2 ]} x y 1 2).
  - reflexivity.
  - reflexivity.
  - apply elem_of_union_l, elem_of_singleton. reflexivity.
  - apply elem_of_union_r, elem_of_singleton. reflexivity.
Defined.

Lemma add_edge_postcondition_1703_witness :
  let h : gmap addr (Graph1703.Graph unit) := {[ 1 := Graph1703.three_nodes 1 ]} in
  let g := Graph1703.three_nodes 1 in
  let a := Graph1703.Node_mk (Some 1) 0 in
  let b := Graph1703.Node_mk (Some 1) 1 in
  exists g' (i ia ib : size_type) (present : bool),
    Graph1703.has_edge 1 g a b = Ret present
    /\ Graph1703.has_edge 1 g b a = Ret present
    /\ Graph1703.Node_index h a = Ret ia /\ Graph1703.Node_index h b = Ret ib
    /\ Graph1703.add_edge h 1 a b
       = Ret (<[1 := g']> h, Graph1703.Edge_mk (Some 1) i ia ib)
    /\ Graph1703.nodes_ g' = Graph1703.nodes_ g
    /\ (if present
        then g' = g
             /\ exists ie, Graph1703.edges_ g !! N.to_nat i = Some ie
                           /\ Graph1703.joins ie a b
        else Graph1703.edges_ g'
             = Graph1703.edges_ g
               ++ [{| Graph1703.node_a := a; Graph1703.node_b := b;
                      Graph1703.edgeid := Graph1703.size g |}]
             /\ i = Graph1703.size g)
    /\ Graph1703.num_edges g'
       = (if present then Graph1703.num_edges g else Graph1703.num_edges g + 1)
    /\ Graph1703.has_edge 1 g' a b = Ret true
    /\ Graph1703.has_edge 1 g' b a = Ret true.
Proof.
  intros h g a b.
  apply (add_edge_postcondition_1703 h 1 g 0 1).
  - apply lookup_singleton_eq.
  - apply Forall_nil_2.
  - discriminate.
  - vm_compute. reflexivity.
  - vm_compute. reflexivity.
  - vm_compute. reflexivity.
Defined.

Lemma node_index_roundtrip_1703_witness :
  let g := Graph1703.three_nodes 1 in
  Graph1703.Node_index {[ 1 := g ]} (Graph1703.node 1 g 2) = Ret 2
  /\ Graph1703.has_node 1 g (Graph1703.node 1 g 2) = Ret true.
Proof.
  intros g.
  apply (node_index_roundtrip_1703 {[ 1 := g ]} 1 g 2).
  - exact three_nodes_calls_1703.
  - apply lookup_singleton_eq.
  - vm_compute. reflexivity.
  - vm_compute. reflexivity.
Defined.

Lemma add_node_post_hw0_witness :
  (let r := Graph1703.add_node 1 (Graph1703.three_nodes 1) tt in
   r.2 = Graph1703.Node_mk (Some 1) (Graph1703.num_nodes (Graph1703.three_nodes 1))
   /\ Graph1703.Node_index (<[1 := r.1]> ∅) r.2
      = Ret (Graph1703.num_nodes (Graph1703.three_nodes 1))
   /\ Graph1703.num_nodes r.1 = Graph1703.num_nodes (Graph1703.three_nodes 1) + 1)
  /\ (let r := Graph20862.add_node 1 Graph20862.two_nodes tt in
      r.2 = {| Graph20862.id := Graph20862.num_nodes Graph20862.two_nodes;
               Graph20862.graph := Some 1 |}
      /\ Graph20862.num_nodes r.1 = Graph20862.num_nodes Graph20862.two_nodes + 1).
Proof.
  split.
  - apply (proj1 (add_node_post_hw0 1 tt) ∅ (Graph1703.three_nodes 1)).
    vm_compute. reflexivity.
  - apply (proj2 (add_node_post_hw0 1 tt) Graph20862.two_nodes).
    vm_compute. reflexivity.
Defined.
